(** * ubuntu-linux-changelog-filter: parser, filter and renderer of main.go

    A shallow embedding of [main.go]: the line-oriented changelog parser
    ([parseChangelog], [parseEntryLine], [parseMaintainerLine]), the filter
    ([filterEntries], [Detail.Matches]) and the renderer ([Entry.String] and
    the output loop of [run]), followed by the properties proved of them.

    Go strings are byte sequences: they are modelled by [string] (a list of
    8-bit [ascii]).  Slices are lists; a nil slice and an empty slice are
    both [[]].  Pointers into slices ([change], [detail], [matchedEntry],
    [matchedChange]) are indices into the slice they point into. *)

From Stdlib Require Import String Ascii List Bool Arith ZArith Lia DecimalString.
Import ListNotations.
Open Scope string_scope.

(* ================================================================== *)
(** ** Go's [error] values *)

(** An [error] is [io.EOF] or a value made by [fmt.Errorf] (or by a library)
    that carries its message. *)
Inductive error : Type :=
| io_EOF
| errorString (msg : string).

(** [err.Error()] *)
Definition Error (e : error) : string :=
  match e with
  | io_EOF => "EOF"
  | errorString msg => msg
  end.

(* ================================================================== *)
(** ** The parts of package [strings] the program uses *)

Module strings.

(** The newline byte ['\n']. *)
Definition LF : ascii := "010"%char.

(** [strings.HasPrefix(s, prefix)] *)
Fixpoint HasPrefix (s prefix : string) {struct prefix} : bool :=
  match prefix with
  | EmptyString => true
  | String p prefix' =>
      match s with
      | String c s' => Ascii.eqb c p && HasPrefix s' prefix'
      | EmptyString => false
      end
  end.

(** [s[n:]] for [n <= len(s)] (the program slices only after [HasPrefix]). *)
Fixpoint from (n : nat) (s : string) : string :=
  match n, s with
  | O, _ => s
  | S n', String _ s' => from n' s'
  | S _, EmptyString => EmptyString
  end.

(** [strings.TrimRight(s, "\n")]: [s] without its trailing newlines. *)
Fixpoint TrimRight_LF (s : string) : string :=
  match s with
  | EmptyString => EmptyString
  | String c s' =>
      match TrimRight_LF s' with
      | EmptyString => if Ascii.eqb c LF then EmptyString else String c EmptyString
      | t => String c t
      end
  end.

(** No byte of [s] is a newline. *)
Fixpoint no_LF (s : string) : bool :=
  match s with
  | EmptyString => true
  | String c s' => negb (Ascii.eqb c LF) && no_LF s'
  end.

(** Every byte of [s] satisfies [p]. *)
Fixpoint all (p : ascii -> bool) (s : string) : bool :=
  match s with
  | EmptyString => true
  | String c s' => p c && all p s'
  end.

(** [needle] occurs in [s] ([strings.Contains]). *)
Fixpoint Contains (s needle : string) : bool :=
  HasPrefix s needle ||
  match s with
  | EmptyString => false
  | String _ s' => Contains s' needle
  end.

End strings.

(* ================================================================== *)
(** ** The fragment of package [regexp] the program's patterns use

    Go's [regexp] finds the leftmost match and, among the matches that start
    there, the one a backtracking search meets first (greedy repetitions take
    as much as they can and give back one byte at a time).  The three
    patterns of the program, [entryLineRegex], [maintainerLineRegex] and the
    default filter [.], are built from literal bytes, one-byte classes
    ([[^x]], [.]), [+] and [*] over such classes, groups that do not nest,
    and a leading [^].  Every delimiter in them is an ASCII byte, and an
    ASCII byte never occurs inside a multi-byte UTF-8 sequence, so matching
    byte by byte agrees with Go's matching rune by rune. *)

Module regexp.

(** A one-byte matcher. *)
Inductive class : Type :=
| Byte (c : ascii)       (* the literal byte [c] *)
| Not (c : ascii)        (* [[^c]]: any byte but [c] (a newline too) *)
| Dot.                   (* [.]: any byte but a newline *)

Definition accepts (k : class) (c : ascii) : bool :=
  match k with
  | Byte x => Ascii.eqb c x
  | Not x => negb (Ascii.eqb c x)
  | Dot => negb (Ascii.eqb c strings.LF)
  end.

(** A pattern is a sequence of nodes. *)
Inductive node : Type :=
| Bol                    (* [^] *)
| One (k : class)        (* one byte of the class *)
| Plus (k : class)       (* [k+] *)
| Star (k : class)       (* [k*] *)
| Open                   (* [(] *)
| Close.                 (* [)] *)

(** The state of one attempt: where it started, the bytes matched so far,
    the group being filled and the groups that are closed (last first). *)
Record attempt : Type := {
  start : nat;
  whole : string;
  group : option string;
  closed : list string
}.

Definition begin (i : nat) : attempt :=
  {| start := i; whole := ""; group := None; closed := [] |}.

Definition snoc (s : string) (c : ascii) : string := s ++ String c "".

Definition consume (c : ascii) (a : attempt) : attempt :=
  {| start := start a;
     whole := snoc (whole a) c;
     group := option_map (fun g => snoc g c) (group a);
     closed := closed a |}.

Definition open_group (a : attempt) : attempt :=
  {| start := start a; whole := whole a; group := Some ""; closed := closed a |}.

Definition close_group (a : attempt) : attempt :=
  {| start := start a; whole := whole a; group := None;
     closed := match group a with Some g => g :: closed a | None => closed a end |}.

Definition at_bol (a : attempt) : bool :=
  Nat.eqb (start a + String.length (whole a)) 0.

(** Greedy repetition of a class, then the rest of the pattern [k]: the
    longest run is tried first, and a byte is given back each time the rest
    fails. *)
Fixpoint greedy (cl : class) (k : string -> attempt -> option attempt)
    (s : string) (a : attempt) : option attempt :=
  match s with
  | String c s' =>
      if accepts cl c then
        match greedy cl k s' (consume c a) with
        | Some r => Some r
        | None => k s a
        end
      else k s a
  | EmptyString => k s a
  end.

Fixpoint exec (r : list node) (s : string) (a : attempt) : option attempt :=
  match r with
  | [] => Some a
  | Bol :: r' => if at_bol a then exec r' s a else None
  | One cl :: r' =>
      match s with
      | String c s' => if accepts cl c then exec r' s' (consume c a) else None
      | EmptyString => None
      end
  | Plus cl :: r' =>
      match s with
      | String c s' => if accepts cl c then greedy cl (exec r') s' (consume c a) else None
      | EmptyString => None
      end
  | Star cl :: r' => greedy cl (exec r') s a
  | Open :: r' => exec r' s (open_group a)
  | Close :: r' => exec r' s (close_group a)
  end.

(** The leftmost match: the attempt at byte [i], then at [i+1], ... *)
Fixpoint search (r : list node) (i : nat) (s : string) : option attempt :=
  match exec r s (begin i) with
  | Some a => Some a
  | None =>
      match s with
      | EmptyString => None
      | String _ s' => search r (S i) s'
      end
  end.

(** A compiled pattern, [*regexp.Regexp], as the program sees it: through
    its methods.  A value of this type need not come from the fragment
    above: the filter of [filterEntries] is any compiled pattern. *)
Record Regexp : Type := {
  MatchString : string -> bool;
  FindStringSubmatch : string -> option (list string)
}.

(** The compiled pattern of a sequence of nodes. *)
Definition program (r : list node) : Regexp :=
  {| MatchString := fun s =>
       match search r 0 s with Some _ => true | None => false end;
     FindStringSubmatch := fun s =>
       match search r 0 s with
       | Some a => Some (whole a :: rev (closed a))
       | None => None
       end |}.

(** The [i]-th element [m[i]] of a submatch slice. *)
Definition sub (m : list string) (i : nat) : string := nth i m "".

(** The syntax of the fragment: the text of a pattern is cut into tokens,
    and a [+] or [*] is attached to the one-byte matcher before it. *)
Inductive token : Type :=
| TBol
| TOpen
| TClose
| TPlus
| TStar
| TClass (k : class).

Fixpoint tokens (pattern : string) : list token :=
  match pattern with
  | EmptyString => []
  | String "[" (String "^" (String c (String "]" rest))) =>
      TClass (Not c) :: tokens rest
  | String "\" (String c rest) => TClass (Byte c) :: tokens rest
  | String "^" rest => TBol :: tokens rest
  | String "(" rest => TOpen :: tokens rest
  | String ")" rest => TClose :: tokens rest
  | String "+" rest => TPlus :: tokens rest
  | String "*" rest => TStar :: tokens rest
  | String "." rest => TClass Dot :: tokens rest
  | String c rest => TClass (Byte c) :: tokens rest
  end.

Fixpoint nodes (ts : list token) : list node :=
  match ts with
  | [] => []
  | TClass k :: TPlus :: ts' => Plus k :: nodes ts'
  | TClass k :: TStar :: ts' => Star k :: nodes ts'
  | TClass k :: ts' => One k :: nodes ts'
  | TBol :: ts' => Bol :: nodes ts'
  | TOpen :: ts' => Open :: nodes ts'
  | TClose :: ts' => Close :: nodes ts'
  | TPlus :: ts' => nodes ts'
  | TStar :: ts' => nodes ts'
  end.

(** [regexp.MustCompile(pattern)] for a pattern of the fragment. *)
Definition MustCompile (pattern : string) : Regexp :=
  program (nodes (tokens pattern)).

(** The pattern [.], the default of the [-filter] flag. *)
Definition dot : Regexp := MustCompile ".".

End regexp.

Import regexp(Regexp, MatchString, FindStringSubmatch).

(* ================================================================== *)
(** ** The parts of package [time] the program uses

    [time.Time], [time.Parse] and [Time.Format] belong to Go's library, not
    to this program: the program is modelled over any implementation of
    them.  [GoTime] below is one, used where a property is checked on a
    concrete input. *)

Class TimePkg : Type := {
  time_Time : Type;
  (** the zero value [time.Time{}] *)
  time_zero : time_Time;
  (** [time.Parse(layout, value)] *)
  time_Parse : string -> string -> time_Time + error;
  (** [t.Format(layout)] *)
  time_Format : time_Time -> string -> string
}.

(** ["\n"] *)
Definition nl : string := String strings.LF "".

(* ================================================================== *)
(** ** The data model (main.go 18-52) *)

Section Program.

Context {T : TimePkg}.

Record Detail : Type := {
  Lines : list string
}.

Record Change : Type := {
  Summary : string;
  Details : list Detail
}.

Record Entry : Type := {
  Package : string;
  Version : string;
  Distributions : string;
  Metadata : string;
  MaintainerName : string;
  EmailAddress : string;
  Date : time_Time;
  Changes : list Change
}.

Definition changePrefix : string := "  * ".
Definition detailHeadPrefix : string := "    - ".
Definition detailTailPrefix : string := "      ".
Definition maintainerLinePrefix : string := " -- ".

Inductive parseState : Type :=
| parseStateInitial
| parseStateInEntry
| parseStateInChange
| parseStateInDetail.

(** Field updates ([x.F = v]). *)
Definition setLines (d : Detail) (ls : list string) : Detail :=
  {| Lines := ls |}.

Definition setDetails (c : Change) (ds : list Detail) : Change :=
  {| Summary := Summary c; Details := ds |}.

Definition setChanges (e : Entry) (cs : list Change) : Entry :=
  {| Package := Package e; Version := Version e;
     Distributions := Distributions e; Metadata := Metadata e;
     MaintainerName := MaintainerName e; EmailAddress := EmailAddress e;
     Date := Date e; Changes := cs |}.

Definition setMaintainer (e : Entry) (name email : string) : Entry :=
  {| Package := Package e; Version := Version e;
     Distributions := Distributions e; Metadata := Metadata e;
     MaintainerName := name; EmailAddress := email;
     Date := Date e; Changes := Changes e |}.

Definition setDate (e : Entry) (d : time_Time) : Entry :=
  {| Package := Package e; Version := Version e;
     Distributions := Distributions e; Metadata := Metadata e;
     MaintainerName := MaintainerName e; EmailAddress := EmailAddress e;
     Date := d; Changes := Changes e |}.

(** Writing through the pointer [&l[i]]: the element it points to becomes
    [f] of itself.  A list is left as it is when [i] is not an index of
    it; no pointer of the program is in that case when it is written
    through (see [valid_dispatch], [appendChange_pointing] and
    [appendDetail_pointing]). *)
Fixpoint through {A : Type} (i : nat) (f : A -> A) (l : list A) : list A :=
  match l, i with
  | [], _ => []
  | x :: l', O => f x :: l'
  | x :: l', S i' => x :: through i' f l'
  end.

(* ================================================================== *)
(** ** Parsing one line (main.go 226-258) *)

Definition entryLineRegex : Regexp :=
  regexp.MustCompile "^([^ ]+) +\(([^)]+)\) +([^;]+); +(.*)".

Definition parseEntryLine (line : string) : Entry + error :=
  match FindStringSubmatch entryLineRegex line with
  | None => inr (errorString ("invalid format entry line: " ++ line))
  | Some m =>
      inl {| Package := regexp.sub m 1;
             Version := regexp.sub m 2;
             Distributions := regexp.sub m 3;
             Metadata := regexp.sub m 4;
             MaintainerName := "";
             EmailAddress := "";
             Date := time_zero;
             Changes := [] |}
  end.

Definition maintainerLineRegex : Regexp :=
  regexp.MustCompile ("^" ++ maintainerLinePrefix ++ "([^<]+) +<([^>]+)> +(.*)").

Definition entryDateFormat : string := "Mon, 02 Jan 2006 15:04:05 -0700".

(** [parseMaintainerLine(e, line)]: the entry [*e] as the call leaves it,
    and the error returned.  The name and the address are stored before the
    date is parsed, so they are set also when the date is refused. *)
Definition parseMaintainerLine (e : Entry) (line : string) : Entry * option error :=
  match FindStringSubmatch maintainerLineRegex line with
  | None => (e, Some (errorString ("invalid format maintainer line: " ++ line)))
  | Some m =>
      let e1 := setMaintainer e (regexp.sub m 1) (regexp.sub m 2) in
      match time_Parse entryDateFormat (regexp.sub m 3) with
      | inr err =>
          (e1, Some (errorString
                       ("parse date: " ++ regexp.sub m 3 ++ ", " ++ Error err)))
      | inl d => (setDate e1 d, None)
      end
  end.

(* ================================================================== *)
(** ** The parser (main.go 130-224) *)

(** What a call returns: the pair [(entries, err)], or a run-time panic (a
    nil pointer dereference). *)
Inductive result : Type :=
| Returns (es : list Entry) (err : option error)
| Panics.

(** The local variables of [parseChangelog].  [entry] is the entry [*entry]
    ([None] for a nil pointer); [change] is the index [i] of
    [&entry.Changes[i]]; [detail] is the path [(i, j)] of
    [&entry.Changes[i].Details[j]].  After a trailer and the next header
    [change] and [detail] still hold the places they had in the entry
    before; the states in which they are used are entered only after
    they are set again.  A use of a nil pointer, or of a place that is not
    in the entry in progress, is modelled as a panic; [valid_dispatch]
    shows that the parser makes none. *)
Record locals : Type := {
  entries : list Entry;
  entry : option Entry;
  change : option nat;
  detail : option (nat * nat);
  state : parseState
}.

(** One turn of the loop either goes on or returns from the function. *)
Inductive turn : Type :=
| Continue (p : locals)
| Stop (r : result).

Definition processChangeLine (p : locals) (line : string) : turn :=
  match entry p with
  | None => Stop Panics
  | Some e =>
      let cs := (Changes e ++
                 [{| Summary := strings.from (String.length changePrefix) line;
                     Details := [] |}])%list in
      Continue {| entries := entries p;
                  entry := Some (setChanges e cs);
                  change := Some (List.length cs - 1);
                  detail := detail p;
                  state := parseStateInChange |}
  end.

Definition processDetailHeadLine (p : locals) (line : string) : turn :=
  match entry p, change p with
  | Some e, Some i =>
      match nth_error (Changes e) i with
      | None => Stop Panics
      | Some c =>
          let ds := (Details c ++
                     [{| Lines := [strings.from (String.length detailHeadPrefix) line] |}])%list in
          Continue {| entries := entries p;
                      entry := Some (setChanges e
                                 (through i (fun c => setDetails c ds) (Changes e)));
                      change := Some i;
                      detail := Some (i, List.length ds - 1);
                      state := parseStateInDetail |}
      end
  | _, _ => Stop Panics
  end.

Definition processDetailTailLine (p : locals) (line : string) : turn :=
  match entry p, detail p with
  | Some e, Some (i, j) =>
      match nth_error (Changes e) i with
      | None => Stop Panics
      | Some c =>
          match nth_error (Details c) j with
          | None => Stop Panics
          | Some _ =>
              let add d :=
                setLines d (Lines d ++
                  [strings.from (String.length detailTailPrefix) line])%list in
              Continue {| entries := entries p;
                          entry := Some (setChanges e
                                     (through i (fun c =>
                                        setDetails c (through j add (Details c)))
                                        (Changes e)));
                          change := change p;
                          detail := detail p;
                          state := state p |}
          end
      end
  | _, _ => Stop Panics
  end.

Definition processMaintainerLine (p : locals) (line : string) : turn :=
  match entry p with
  | None => Stop Panics
  | Some e =>
      match parseMaintainerLine e line with
      | (_, Some err) => Stop (Returns [] (Some err))
      | (e', None) =>
          Continue {| entries := (entries p ++ [e'])%list;
                      entry := Some e';
                      change := change p;
                      detail := detail p;
                      state := parseStateInitial |}
      end
  end.

(** The body of the loop for a line that is not empty (main.go 183-221). *)
Definition dispatch (p : locals) (line : string) : turn :=
  match state p with
  | parseStateInitial =>
      match parseEntryLine line with
      | inr err => Stop (Returns [] (Some err))
      | inl e =>
          Continue {| entries := entries p;
                      entry := Some e;
                      change := change p;
                      detail := detail p;
                      state := parseStateInEntry |}
      end
  | parseStateInEntry =>
      if strings.HasPrefix line changePrefix then processChangeLine p line
      else if strings.HasPrefix line maintainerLinePrefix then processMaintainerLine p line
      else Continue p
  | parseStateInChange =>
      if strings.HasPrefix line changePrefix then processChangeLine p line
      else if strings.HasPrefix line detailHeadPrefix then processDetailHeadLine p line
      else if strings.HasPrefix line maintainerLinePrefix then processMaintainerLine p line
      else Continue p
  | parseStateInDetail =>
      if strings.HasPrefix line changePrefix then processChangeLine p line
      else if strings.HasPrefix line detailHeadPrefix then processDetailHeadLine p line
      else if strings.HasPrefix line detailTailPrefix then processDetailTailLine p line
      else if strings.HasPrefix line maintainerLinePrefix then processMaintainerLine p line
      else Continue p
  end.

(** The body of the loop for a line that [ReadString] returned with no
    error (main.go 178-221). *)
Definition body (p : locals) (read : string) : turn :=
  let line := strings.TrimRight_LF read in
  if Nat.eqb (String.length line) 0 then Continue p else dispatch p line.

(** An [io.Reader]: the bytes it delivers, and the error it reports once
    they are used up ([io.EOF] at the end of a file). *)
Record Reader : Type := {
  unread : string;
  failure : error
}.

(** The successive results of [br.ReadString('\n')] that come with no error
    (each ends with its newline), and the bytes after the last newline,
    which [ReadString] returns together with the reader's error. *)
Fixpoint readLines (s : string) : list string * string :=
  match s with
  | EmptyString => ([], EmptyString)
  | String c s' =>
      let (ls, rest) := readLines s' in
      if Ascii.eqb c strings.LF then (String c EmptyString :: ls, rest)
      else match ls with
           | l :: ls' => (String c l :: ls', rest)
           | [] => ([], String c rest)
           end
  end.

(** The loop over the lines read with no error. *)
Fixpoint loop (p : locals) (reads : list string) : turn :=
  match reads with
  | [] => Continue p
  | read :: reads' =>
      match body p read with
      | Continue p' => loop p' reads'
      | Stop r => Stop r
      end
  end.

Definition initial : locals :=
  {| entries := []; entry := None; change := None; detail := None;
     state := parseStateInitial |}.

(** [parseChangelog(r)].  When [ReadString] reports an error the bytes it
    returns with it are dropped: [io.EOF] leaves the loop, any other error
    is returned. *)
Definition parseChangelog (r : Reader) : result :=
  match loop initial (fst (readLines (unread r))) with
  | Stop res => res
  | Continue p =>
      match failure r with
      | io_EOF => Returns (entries p) None
      | err => Returns [] (Some err)
      end
  end.

(* ================================================================== *)
(** ** The filter (main.go 260-316) *)

Definition Detail_Matches (d : Detail) (re : Regexp) : bool :=
  existsb (MatchString re) (Lines d).

(** The variables of [filterEntries] that its closures share.
    [matchedEntry] is the index [i] of [&matchedEntries[i]]; [matchedChange]
    is the path [(i, j)] of [&matchedEntries[i].Changes[j]]. *)
Record matched : Type := {
  matchedEntries : list Entry;
  matchedEntry : option nat;
  matchedChange : option (nat * nat)
}.

Definition appendChange (m : matched) (entry : Entry) (change : Change) : matched :=
  let (es, i) :=
    match matchedEntry m with
    | None =>
        ((matchedEntries m ++
            [{| Package := Package entry; Version := Version entry;
                Distributions := Distributions entry; Metadata := Metadata entry;
                MaintainerName := MaintainerName entry;
                EmailAddress := EmailAddress entry;
                Date := Date entry; Changes := [] |}])%list,
         List.length (matchedEntries m))
    | Some i => (matchedEntries m, i)
    end in
  let grow e :=
    setChanges e (Changes e ++ [{| Summary := Summary change; Details := [] |}])%list in
  let es' := through i grow es in
  {| matchedEntries := es';
     matchedEntry := Some i;
     matchedChange :=
       Some (i, match nth_error es' i with
                | Some e => List.length (Changes e) - 1
                | None => 0
                end) |}.

Definition appendDetail (m : matched) (entry : Entry) (change : Change)
    (detail : Detail) : matched :=
  let m1 := match matchedChange m with
            | None => appendChange m entry change
            | Some _ => m
            end in
  match matchedChange m1 with
  | Some (i, j) =>
      {| matchedEntries :=
           through i (fun e =>
             setChanges e
               (through j (fun c => setDetails c (Details c ++ [detail])%list)
                  (Changes e)))
             (matchedEntries m1);
         matchedEntry := matchedEntry m1;
         matchedChange := matchedChange m1 |}
  | None => m1
  end.

Definition clearEntry (m : matched) : matched :=
  {| matchedEntries := matchedEntries m; matchedEntry := None;
     matchedChange := matchedChange m |}.

Definition clearChange (m : matched) : matched :=
  {| matchedEntries := matchedEntries m; matchedEntry := matchedEntry m;
     matchedChange := None |}.

(** The loop over [change.Details] (main.go 299-303). *)
Definition overDetails (filter : Regexp) (entry : Entry) (change : Change)
    (m : matched) : matched :=
  fold_left
    (fun m detail =>
       if Detail_Matches detail filter then appendDetail m entry change detail
       else m)
    (Details change) m.

(** The loop over [entry.Changes] (main.go 293-304). *)
Definition overChanges (filter : Regexp) (entry : Entry) (m : matched) : matched :=
  fold_left
    (fun m change =>
       overDetails filter entry change
         (if MatchString filter (Summary change) then appendChange m entry change
          else clearChange m))
    (Changes entry) m.

(** The loop over [entries] (main.go 291-305). *)
Definition overEntries (filter : Regexp) (es : list Entry) (m : matched) : matched :=
  fold_left (fun m entry => overChanges filter entry (clearEntry m)) es m.

(** [filterEntries(entries, filter)]; its error is always nil. *)
Definition filterEntries (es : list Entry) (filter : Regexp) : list Entry :=
  matchedEntries
    (overEntries filter es
       {| matchedEntries := []; matchedEntry := None; matchedChange := None |}).

(* ================================================================== *)
(** ** Rendering (main.go 318-335 and 111-116) *)

(** The lines of one detail: the first with [detailHeadPrefix], the others
    with [detailTailPrefix]. *)
Fixpoint detailText (i : nat) (lines : list string) : string :=
  match lines with
  | [] => ""
  | line :: lines' =>
      (if Nat.ltb 0 i then detailTailPrefix else detailHeadPrefix)
        ++ line ++ nl ++ detailText (S i) lines'
  end.

Definition changeText (c : Change) : string :=
  changePrefix ++ Summary c ++ nl
    ++ String.concat "" (map (fun d => detailText 0 (Lines d)) (Details c)).

(** [e.String()] *)
Definition Entry_String (e : Entry) : string :=
  Package e ++ " (" ++ Version e ++ ") " ++ Distributions e ++ "; "
    ++ Metadata e ++ nl
    ++ String.concat "" (map changeText (Changes e))
    ++ maintainerLinePrefix ++ MaintainerName e ++ " <" ++ EmailAddress e
    ++ "> " ++ time_Format (Date e) entryDateFormat.

(** What the loop at the end of [run] writes to the standard output: an
    empty line before every entry but the first, and each entry followed by
    a newline. *)
Fixpoint printEntries (i : nat) (es : list Entry) : string :=
  match es with
  | [] => ""
  | e :: es' =>
      (if Nat.ltb 0 i then nl else "") ++ Entry_String e ++ nl
        ++ printEntries (S i) es'
  end.

End Program.

(* ================================================================== *)
(** ** A model of [time.Parse] and [Time.Format] for [entryDateFormat]

    Go's library, followed step by step for the one layout the program
    uses, [Mon, 02 Jan 2006 15:04:05 -0700]: the weekday name is looked up
    and ignored, a space of the layout stands for any run of spaces, the
    day, minute and second take two digits and the hour one or two, a
    fraction of a second after the seconds is read to the nanoseconds of
    the time (which this layout does not print), and the day is checked
    against the month once the whole value is read.  [Format] prints the
    wall clock and the offset that were read, with the weekday of the
    date.  It is used only to run the program on concrete
    inputs; every general theorem below holds for any [TimePkg]. *)

Module GoTime.

Record Time : Type := {
  year : Z; month : Z; day : Z;
  hour : Z; minute : Z; second : Z;
  nanosecond : Z;
  zone : Z  (* seconds east of UTC *)
}.

(** [time.Time{}]: January 1, year 1, 00:00:00 UTC. *)
Definition zero : Time :=
  {| year := 1; month := 1; day := 1; hour := 0; minute := 0; second := 0;
     nanosecond := 0; zone := 0 |}.

Definition isDigit (c : ascii) : bool :=
  Nat.leb 48 (nat_of_ascii c) && Nat.leb (nat_of_ascii c) 57.

Definition digit (c : ascii) : Z := Z.of_nat (nat_of_ascii c - 48).

(** [getnum(s, fixed)]: one or two digits, two when [fixed]. *)
Definition getnum (s : string) (fixed : bool) : option (Z * string) :=
  match s with
  | String a s1 =>
      if isDigit a then
        match s1 with
        | String b s2 =>
            if isDigit b then Some (digit a * 10 + digit b, s2)%Z
            else if fixed then None else Some (digit a, s1)
        | EmptyString => if fixed then None else Some (digit a, s1)
        end
      else None
  | EmptyString => None
  end.

Fixpoint cutspace (s : string) : string :=
  match s with
  | String " " s' => cutspace s'
  | _ => s
  end.

(** [skip(value, prefix)]: the value after the literal text [prefix], or
    the value left where they differ.  [spaces] says that the spaces of the
    prefix just before were already matched. *)
Fixpoint skip_from (spaces : bool) (prefix value : string) : string + string :=
  match prefix with
  | EmptyString => inl value
  | String " " prefix' =>
      if spaces then skip_from true prefix' value
      else match value with
           | String c _ =>
               if Ascii.eqb c " " then skip_from true prefix' (cutspace value)
               else inr value
           | EmptyString => skip_from true prefix' value
           end
  | String p prefix' =>
      match value with
      | String c value' =>
          if Ascii.eqb c p then skip_from false prefix' value' else inr value
      | EmptyString => inr value
      end
  end.

Definition skip (value prefix : string) : string + string :=
  skip_from false prefix value.

(** Lower case of an ASCII letter. *)
Definition lower (c : ascii) : ascii :=
  let n := nat_of_ascii c in
  if Nat.leb 65 n && Nat.leb n 90 then ascii_of_nat (n + 32) else c.

(** [match(s1, s2)] for a name [s2] of letters: equal up to case, over the
    length of [s2]; the rest of [s1] is returned. *)
Fixpoint match_name (name val : string) : option string :=
  match name, val with
  | EmptyString, _ => Some val
  | String a name', String b val' =>
      if Ascii.eqb (lower a) (lower b) then match_name name' val' else None
  | String _ _, EmptyString => None
  end.

(** [lookup(tab, val)]: the index of the first name of [tab] that starts
    [val], and the rest of [val]. *)
Fixpoint lookup (tab : list string) (i : nat) (val : string) : option (nat * string) :=
  match tab with
  | [] => None
  | v :: tab' =>
      match match_name v val with
      | Some rest => Some (i, rest)
      | None => lookup tab' (S i) val
      end
  end.

Definition shortDayNames : list string :=
  ["Sun"; "Mon"; "Tue"; "Wed"; "Thu"; "Fri"; "Sat"].

Definition shortMonthNames : list string :=
  ["Jan"; "Feb"; "Mar"; "Apr"; "May"; "Jun";
   "Jul"; "Aug"; "Sep"; "Oct"; "Nov"; "Dec"].

Definition isLeap (y : Z) : bool :=
  (Z.eqb (y mod 4) 0 && (negb (Z.eqb (y mod 100) 0) || Z.eqb (y mod 400) 0))%Z.

Definition daysIn (m y : Z) : Z :=
  (if Z.eqb m 2 then (if isLeap y then 29 else 28)
   else if Z.eqb m 4 || Z.eqb m 6 || Z.eqb m 9 || Z.eqb m 11 then 30
   else 31)%Z.

(** The double quote. *)
Definition dq : string := String (ascii_of_nat 34) EmptyString.

Definition lowerhex : string := "0123456789abcdef".

Definition hex (n : nat) : string :=
  match String.get n lowerhex with
  | Some c => String c EmptyString
  | None => EmptyString
  end.

(** The bytes of [s] as [quote] writes them: a byte below the space or
    from 128 on as a backslash, [x] and its two hexadecimal digits (so is
    every byte of a rune that is not ASCII, and every byte that is not
    valid UTF-8), a double quote and a backslash after a backslash, any
    other byte as it is. *)
Fixpoint escaped (s : string) : string :=
  match s with
  | EmptyString => EmptyString
  | String c s' =>
      let n := nat_of_ascii c in
      (if Nat.leb 128 n || Nat.ltb n 32
       then "\x" ++ hex (n / 16) ++ hex (n mod 16)
       else if Ascii.eqb c (ascii_of_nat 34) || Ascii.eqb c "\"
       then String "\" (String c EmptyString)
       else String c EmptyString) ++ escaped s'
  end.

(** [quote(s)] of package [time]. *)
Definition quote (s : string) : string := dq ++ escaped s ++ dq.

Definition layout : string := "Mon, 02 Jan 2006 15:04:05 -0700".

(** [ParseError.Error()] without and with a message. *)
Definition bad (value layoutElem valueElem : string) : error :=
  errorString ("parsing time " ++ quote value ++ " as " ++ quote layout
               ++ ": cannot parse " ++ quote valueElem ++ " as " ++ quote layoutElem).

Definition refused (value message : string) : error :=
  errorString ("parsing time " ++ quote value ++ message).

(** The digits of a fraction of a second that follow the seconds. *)
Fixpoint digits (s : string) : string :=
  match s with
  | String c s' => if isDigit c then digits s' else s
  | EmptyString => s
  end.

(** [parseNanoseconds]: the first nine digits of the fraction, as
    nanoseconds ([k] digits are still to come, and those that are missing
    count as zeros). *)
Fixpoint nanoseconds (k : nat) (s : string) (acc : Z) : Z :=
  match k with
  | O => acc
  | S k' =>
      match s with
      | String c s' =>
          if isDigit c then nanoseconds k' s' (acc * 10 + digit c)%Z
          else nanoseconds k' EmptyString (acc * 10)%Z
      | EmptyString => nanoseconds k' EmptyString (acc * 10)%Z
      end
  end.

(** A fraction of a second after the seconds, which the layout does not
    have: a period or a comma and one digit or more.  The nanoseconds it
    gives, and the value after it. *)
Definition fraction (s : string) : Z * string :=
  match s with
  | String c (String d s') =>
      if (Ascii.eqb c "." || Ascii.eqb c ",") && isDigit d
      then (nanoseconds 9 (String d s') 0%Z, digits s')
      else (0%Z, s)
  | _ => (0%Z, s)
  end.

(** The four digits of the year. *)
Definition year4 (s : string) : option (Z * string) :=
  match s with
  | String a (String b (String c (String d s'))) =>
      if isDigit a && isDigit b && isDigit c && isDigit d
      then Some (digit a * 1000 + digit b * 100 + digit c * 10 + digit d, s')%Z
      else None
  | _ => None
  end.

(** The offset [-0700]: five bytes, cut into the sign, the hour and the
    minute, and the value after them. *)
Definition numTZ (s : string) : option (ascii * string * string * string) :=
  match s with
  | String sg (String a (String b (String c (String d s')))) =>
      Some (sg, String a (String b EmptyString),
            String c (String d EmptyString), s')
  | _ => None
  end.

(** The number [getnum] gives, zero when it fails. *)
Definition number (r : option (Z * string)) : Z :=
  match r with
  | Some (n, _) => n
  | None => 0%Z
  end.

Definition Parse (value : string) : Time + error :=
  let cannot elem at_ := inr (bad value elem at_) in
  let range what := inr (refused value (": " ++ what ++ " out of range")) in
  match lookup shortDayNames 0 value with
  | None => cannot "Mon" value
  | Some (_, v1) =>
  match skip v1 ", " with
  | inr v => cannot ", " v
  | inl v2 =>
  match getnum v2 true with
  | None => cannot "02" v2
  | Some (d, v3) =>
  match skip v3 " " with
  | inr v => cannot " " v
  | inl v4 =>
  match lookup shortMonthNames 0 v4 with
  | None => cannot "Jan" v4
  | Some (mi, v5) =>
  match skip v5 " " with
  | inr v => cannot " " v
  | inl v6 =>
  match year4 v6 with
  | None => cannot "2006" v6
  | Some (y, v7) =>
  match skip v7 " " with
  | inr v => cannot " " v
  | inl v8 =>
  match getnum v8 false with
  | None => cannot "15" v8
  | Some (h, v9) =>
  if (24 <=? h)%Z then range "hour" else
  match skip v9 ":" with
  | inr v => cannot ":" v
  | inl v10 =>
  match getnum v10 true with
  | None => cannot "04" v10
  | Some (mi', v11) =>
  if (60 <=? mi')%Z then range "minute" else
  match skip v11 ":" with
  | inr v => cannot ":" v
  | inl v12 =>
  match getnum v12 true with
  | None => cannot "05" v12
  | Some (s, v13) =>
  if (60 <=? s)%Z then range "second" else
  let (ns, v13') := fraction v13 in
  match skip v13' " " with
  | inr v => cannot " " v
  | inl v14 =>
  match numTZ v14 with
  | None => cannot "-0700" v14
  | Some (sg, zhs, zms, v15) =>
  (* the minute is read when the hour is a number; of the range tests
     that fail the last one is reported, before a failure to read *)
  let hr := getnum zhs true in
  let mm := match hr with Some _ => getnum zms true | None => None end in
  let zh := number hr in
  let zm := number mm in
  if (60 <? zm)%Z then range "time zone offset minute" else
  if (24 <? zh)%Z then range "time zone offset hour" else
  match mm with
  | None => cannot "-0700" v14
  | Some _ =>
  if negb (Ascii.eqb sg "+" || Ascii.eqb sg "-") then cannot "-0700" v14 else
  match v15 with
  | String _ _ => inr (refused value (": extra text: " ++ quote v15))
  | EmptyString =>
  let m := Z.of_nat (S mi) in
  if ((d <? 1) || (daysIn m y <? d))%Z then inr (refused value ": day out of range")
  else inl {| year := y; month := m; day := d;
              hour := h; minute := mi'; second := s;
              nanosecond := ns;
              zone := ((if Ascii.eqb sg "-" then -1 else 1) * ((zh * 60 + zm) * 60))%Z |}
  end end end end end end end end end end end end end end end end end.

(** Days from 1970-01-01 to the date, and the weekday (Sunday is 0). *)
Definition daysFromCivil (y m d : Z) : Z :=
  (let y' := if m <=? 2 then y - 1 else y in
   let era := y' / 400 in
   let yoe := y' - era * 400 in
   let doy := (153 * (if 2 <? m then m - 3 else m + 9) + 2) / 5 + d - 1 in
   let doe := yoe * 365 + yoe / 4 - yoe / 100 + doy in
   era * 146097 + doe - 719468)%Z.

Definition weekday (t : Time) : nat :=
  Z.to_nat ((daysFromCivil (year t) (month t) (day t) + 4) mod 7).

Fixpoint zeros (n : nat) : string :=
  match n with
  | O => EmptyString
  | S n' => String "0" (zeros n')
  end.

(** [appendInt(b, x, width)]: a minus sign when [x] is negative, and the
    decimal digits of its absolute value after the zeros that fill them up
    to [width]. *)
Definition appendInt (x : Z) (width : nat) : string :=
  let ds := NilZero.string_of_uint (N.to_uint (Z.to_N (Z.abs x))) in
  (if (x <? 0)%Z then "-" else "") ++ zeros (width - String.length ds) ++ ds.

Definition two (n : Z) : string := appendInt n 2.

Definition four (n : Z) : string := appendInt n 4.

(** The offset is written in minutes (the seconds are cut off, towards
    zero), with its sign. *)
Definition Format (t : Time) : string :=
  let minutes := Z.quot (zone t) 60 in
  nth (weekday t) shortDayNames "" ++ ", " ++ two (day t) ++ " "
    ++ nth (Z.to_nat (month t - 1)) shortMonthNames "" ++ " " ++ four (year t)
    ++ " " ++ two (hour t) ++ ":" ++ two (minute t) ++ ":" ++ two (second t)
    ++ " " ++ (if (minutes <? 0)%Z then "-" else "+")
    ++ two (Z.abs minutes / 60) ++ two (Z.abs minutes mod 60).

End GoTime.

#[export] Instance GoTimePkg : TimePkg := {
  time_Time := GoTime.Time;
  time_zero := GoTime.zero;
  time_Parse := fun layout value =>
    if String.eqb layout GoTime.layout then GoTime.Parse value
    else inr (errorString "layout outside the model");
  time_Format := fun t layout =>
    if String.eqb layout GoTime.layout then GoTime.Format t else ""
}.

(* ================================================================== *)
(** ** Vocabulary of the statements *)

Section Vocabulary.

Context {T : TimePkg}.

(** What the filter keeps of a change: the details with a matching line. *)
Definition keptDetails (re : Regexp) (c : Change) : list Detail :=
  filter (fun d => Detail_Matches d re) (Details c).

(** A change survives when its summary matches or one of its details does. *)
Definition survives (re : Regexp) (c : Change) : bool :=
  MatchString re (Summary c) || existsb (fun d => Detail_Matches d re) (Details c).

Definition keptChange (re : Regexp) (c : Change) : Change :=
  {| Summary := Summary c; Details := keptDetails re c |}.

Definition keptChanges (re : Regexp) (e : Entry) : list Change :=
  map (keptChange re) (filter (survives re) (Changes e)).

(** What the filter keeps of an entry: nothing, or the entry with its
    surviving changes. *)
Definition keptEntry (re : Regexp) (e : Entry) : list Entry :=
  match keptChanges re e with
  | [] => []
  | cs => [setChanges e cs]
  end.

(** The entry has a change. *)
Definition hasChanges (e : Entry) : bool :=
  match Changes e with [] => false | _ => true end.

(** Neither a summary nor a line of the entry matches. *)
Definition unmatched (re : Regexp) (e : Entry) : Prop :=
  forall c, In c (Changes e) ->
    MatchString re (Summary c) = false /\
    forall d l, In d (Details c) -> In l (Lines d) -> MatchString re l = false.

(** The header and trailer fields of two entries are the same. *)
Definition sameFields (a b : Entry) : Prop :=
  Package a = Package b /\ Version a = Version b /\
  Distributions a = Distributions b /\ Metadata a = Metadata b /\
  MaintainerName a = MaintainerName b /\ EmailAddress a = EmailAddress b /\
  Date a = Date b.

(** The text has no unterminated last line. *)
Definition complete (s : string) : Prop :=
  s = "" \/ exists t, s = t ++ nl.

(** The line is one the parser refuses with [err] when its variables are
    [p]: where a header is awaited it is not one, or it has the prefix of
    a trailer and [parseMaintainerLine] refuses it. *)
Definition malformed (p : locals) (line : string) (err : error) : Prop :=
  (state p = parseStateInitial /\ parseEntryLine line = inr err) \/
  (state p <> parseStateInitial /\
   strings.HasPrefix line maintainerLinePrefix = true /\
   exists e, entry p = Some e /\ snd (parseMaintainerLine e line) = Some err).

(** The pointers of the parser that the state lets it use are not nil, and
    point to the last change of the entry and to the last detail of that
    change. *)
Definition valid (p : locals) : Prop :=
  match state p with
  | parseStateInitial => True
  | parseStateInEntry => exists e, entry p = Some e
  | parseStateInChange =>
      exists e cs c,
        entry p = Some e /\ Changes e = (cs ++ [c])%list /\
        change p = Some (List.length cs)
  | parseStateInDetail =>
      exists e cs c ds d,
        entry p = Some e /\ Changes e = (cs ++ [c])%list /\
        change p = Some (List.length cs) /\
        Details c = (ds ++ [d])%list /\
        detail p = Some (List.length cs, List.length ds)
  end.

(** What a turn may do from valid variables: go on with valid variables,
    or return no entry and an error.  It does not panic. *)
Definition sound (t : turn) : Prop :=
  match t with
  | Continue p' => valid p'
  | Stop (Returns es (Some _)) => es = []
  | Stop _ => False
  end.

(** [n] empty lines. *)
Fixpoint newlines (n : nat) : string :=
  match n with
  | O => ""
  | S n' => nl ++ newlines n'
  end.

(** The text made of the given lines, each followed by a newline. *)
Definition lines (ls : list string) : string :=
  String.concat "" (map (fun l => l ++ nl) ls).

(** The attempt after the bytes of [u] are consumed. *)
Fixpoint eat (u : string) (a : regexp.attempt) : regexp.attempt :=
  match u with
  | EmptyString => a
  | String c u' => eat u' (regexp.consume c a)
  end.

(** A greedy run of the class stops before [v]. *)
Definition stops (cl : regexp.class) (v : string) : Prop :=
  match v with
  | EmptyString => True
  | String c _ => regexp.accepts cl c = false
  end.

(** No byte of [s] is [stop] or a newline. *)
Definition plain (stop : ascii) (s : string) : bool :=
  strings.all (fun c => negb (Ascii.eqb c stop) && negb (Ascii.eqb c strings.LF)) s.

(** The lines [Entry.String] writes. *)
Definition headerLine (e : Entry) : string :=
  Package e ++ " (" ++ Version e ++ ") " ++ Distributions e ++ "; " ++ Metadata e.

Definition trailerOf (e : Entry) : string :=
  maintainerLinePrefix ++ MaintainerName e ++ " <" ++ EmailAddress e ++ "> "
    ++ time_Format (Date e) entryDateFormat.

Definition detailLines (d : Detail) : list string :=
  match Lines d with
  | [] => []
  | l :: ls => (detailHeadPrefix ++ l) :: map (fun l => detailTailPrefix ++ l) ls
  end.

Definition changeLines (c : Change) : list string :=
  (changePrefix ++ Summary c) :: flat_map detailLines (Details c).

Definition entryLines (e : Entry) : list string :=
  (headerLine e :: flat_map changeLines (Changes e) ++ [trailerOf e])%list.

(** The lines [run] writes for the entries from the [i]-th on. *)
Fixpoint docLines (i : nat) (es : list Entry) : list string :=
  match es with
  | [] => []
  | e :: es' =>
      ((if Nat.ltb 0 i then [""] else []) ++ entryLines e ++ docLines (S i) es')%list
  end.

(** The text of a date is one [time.Parse] reads back to a date with the
    same text, on one line, with no space in front. *)
Definition canonicalDate (f : string) : Prop :=
  strings.no_LF f = true /\ strings.HasPrefix f " " = false /\
  exists d, time_Parse entryDateFormat f = inl d /\
            time_Format d entryDateFormat = f.

Definition canonicalDetail (d : Detail) : Prop :=
  Lines d <> [] /\ Forall (fun l => strings.no_LF l = true) (Lines d).

Definition canonicalChange (c : Change) : Prop :=
  strings.no_LF (Summary c) = true /\ Forall canonicalDetail (Details c).

(** The fields of the entry fit the patterns of the lines they are written
    on, so that the parser reads each of them back whole. *)
Definition canonical (e : Entry) : Prop :=
  (Package e <> "" /\ plain " " (Package e) = true) /\
  (Version e <> "" /\ plain ")" (Version e) = true) /\
  (Distributions e <> "" /\ plain ";" (Distributions e) = true /\
   strings.HasPrefix (Distributions e) " " = false) /\
  (strings.no_LF (Metadata e) = true /\
   strings.HasPrefix (Metadata e) " " = false) /\
  (MaintainerName e <> "" /\ plain "<" (MaintainerName e) = true) /\
  (EmailAddress e <> "" /\ plain ">" (EmailAddress e) = true) /\
  canonicalDate (time_Format (Date e) entryDateFormat) /\
  Forall canonicalChange (Changes e).

(** The entries differ at most by their dates, which are written the same. *)
Definition sameButDate (e e' : Entry) : Prop :=
  e' = setDate e (Date e') /\
  time_Format (Date e') entryDateFormat = time_Format (Date e) entryDateFormat.

(** The loop over lines given without their newlines: an empty line is
    passed over, any other goes to [dispatch]. *)
Fixpoint feed (p : locals) (ls : list string) : turn :=
  match ls with
  | [] => Continue p
  | l :: ls' =>
      match (if Nat.eqb (String.length l) 0 then Continue p else dispatch p l) with
      | Continue p' => feed p' ls'
      | Stop r => Stop r
      end
  end.

(** The parser is between the header and the trailer of an entry: its
    entry in progress is [e], the entries returned so far are [done]. *)
Definition building (p : locals) (done : list Entry) (e : Entry) : Prop :=
  valid p /\ state p <> parseStateInitial /\ entries p = done /\ entry p = Some e.

(** The list of what an option holds. *)
Definition olist {A : Type} (o : option A) : list A :=
  match o with Some x => [x] | None => [] end.

(** The filter's variables between two changes: the finished entries
    [done], and the matched entry of the current entry, if there is one, to
    which [matchedEntry] points. *)
Definition between (m : matched) (done : list Entry) (cur : option Entry) : Prop :=
  matchedEntries m = (done ++ olist cur)%list /\
  matchedEntry m = match cur with Some _ => Some (List.length done) | None => None end.

(** The filter's variables while [matchedChange] points to the last change
    [c] of the matched entry. *)
Definition pointing (m : matched) (done : list Entry) (e : Entry)
    (cs : list Change) (c : Change) : Prop :=
  matchedEntries m = (done ++ [setChanges e (cs ++ [c])])%list /\
  matchedEntry m = Some (List.length done) /\
  matchedChange m = Some (List.length done, List.length cs).

(** The matched entry after the changes [kept] are added to it. *)
Definition grown (cur : option Entry) (entry : Entry) (kept : list Change)
    : option Entry :=
  match kept with
  | [] => cur
  | _ =>
      let base := match cur with Some e => e | None => setChanges entry [] end in
      Some (setChanges base (Changes base ++ kept)%list)
  end.

End Vocabulary.

(* ================================================================== *)
(** ** Tactics *)

(** A line that starts with a literal prefix is not empty. *)
Ltac nonempty := let E := fresh in intro E; simpl in E; discriminate E.

(** The goals of an agreement between the variables of two runs of the
    parser. *)
Ltac agreed :=
  repeat split; simpl; auto; try discriminate; try contradiction;
  try (intros [?|?]; discriminate).

(** The conjuncts of a boolean conjunction that holds. *)
Ltac conjuncts H :=
  repeat match type of H with
         | (_ && _)%bool = true =>
             let H1 := fresh "Hn" in
             apply andb_true_iff in H; destruct H as [H1 H]
         end.

(* ================================================================== *)
(** ** Sample inputs *)

(** The input of the specification's scenario. *)
Definition scenarioText : string :=
  lines ["linux (5.15.0-25.25) jammy; urgency=medium";
         "";
         "  * Change A";
         "    - detail line 1";
         "      continuation";
         "";
         "  * Change B";
         "";
         " -- Ubuntu Kernel Team <kernel-team@lists.ubuntu.com>  Thu, 05 May 2022 10:00:00 +0000"].

Definition scenarioDate : GoTime.Time :=
  {| GoTime.year := 2022; GoTime.month := 5; GoTime.day := 5;
     GoTime.hour := 10; GoTime.minute := 0; GoTime.second := 0;
     GoTime.nanosecond := 0; GoTime.zone := 0 |}.

Definition changeA : Change :=
  {| Summary := "Change A";
     Details := [{| Lines := ["detail line 1"; "continuation"] |}] |}.

Definition changeB : Change := {| Summary := "Change B"; Details := [] |}.

(** The entry the scenario parses to. *)
Definition scenarioEntry : @Entry GoTimePkg :=
  {| Package := "linux"; Version := "5.15.0-25.25";
     Distributions := "jammy"; Metadata := "urgency=medium";
     MaintainerName := "Ubuntu Kernel Team";
     EmailAddress := "kernel-team@lists.ubuntu.com";
     Date := scenarioDate;
     Changes := [changeA; changeB] |}.

(** The scenario without its empty lines: the layout of a Debian
    changelog, with two spaces before the date. *)
Definition compactText : string :=
  lines ["linux (5.15.0-25.25) jammy; urgency=medium";
         "  * Change A";
         "    - detail line 1";
         "      continuation";
         "  * Change B";
         " -- Ubuntu Kernel Team <kernel-team@lists.ubuntu.com>  Thu, 05 May 2022 10:00:00 +0000"].

(** The same with a line the parser passes over. *)
Definition decoratedText : string :=
  lines ["linux (5.15.0-25.25) jammy; urgency=medium";
         "  * Change A";
         "    - detail line 1";
         "      continuation";
         "  [ Ubuntu: 5.15.0-25.25 ]";
         "  * Change B";
         " -- Ubuntu Kernel Team <kernel-team@lists.ubuntu.com>  Thu, 05 May 2022 10:00:00 +0000"].

(** An entry with a header and a trailer and no change. *)
Definition bareText : string :=
  lines ["linux (5.15.0-25.25) jammy; urgency=medium";
         " -- Ubuntu Kernel Team <kernel-team@lists.ubuntu.com>  Thu, 05 May 2022 10:00:00 +0000"].

Definition bareEntry : @Entry GoTimePkg := setChanges scenarioEntry [].

(** The pattern [detail]. *)
Definition detailRE : Regexp := regexp.MustCompile "detail".

(** The pattern [x^], which matches nothing. *)
Definition neverRE : Regexp := regexp.MustCompile "x^".

(** The variables of the parser after the header of the scenario. *)
Definition afterHeader : @locals GoTimePkg :=
  {| entries := []; entry := Some (setChanges scenarioEntry []);
     change := None; detail := None; state := parseStateInEntry |}.

(** The trailer of the scenario, and the variables after it. *)
Definition trailerLine : string :=
  " -- Ubuntu Kernel Team <kernel-team@lists.ubuntu.com>  Thu, 05 May 2022 10:00:00 +0000".

Definition afterTrailer : @locals GoTimePkg :=
  {| entries := [bareEntry]; entry := Some bareEntry;
     change := None; detail := None; state := parseStateInitial |}.

(** An older entry, complete, and the header of the scenario's entry. *)
Definition olderText : string :=
  lines ["linux (5.15.0-24.24) jammy; urgency=medium";
         "  * Change B";
         " -- Ubuntu Kernel Team <kernel-team@lists.ubuntu.com>  Thu, 05 May 2022 10:00:00 +0000";
         "";
         "linux (5.15.0-25.25) jammy; urgency=medium"].

Definition olderEntry : @Entry GoTimePkg :=
  {| Package := "linux"; Version := "5.15.0-24.24";
     Distributions := "jammy"; Metadata := "urgency=medium";
     MaintainerName := "Ubuntu Kernel Team";
     EmailAddress := "kernel-team@lists.ubuntu.com";
     Date := scenarioDate;
     Changes := [changeB] |}.

(** A complete entry followed by an entry whose trailer has no date. *)
Definition badDateBefore : string :=
  scenarioText ++ "linux (5.15.0-26.26) jammy; urgency=medium" ++ nl.

Definition badDateLine : string := " -- A B <a@b.com>  not-a-date".

(** The variables of the parser before that trailer ([change] and
    [detail] still point into the entry before), the error of [time.Parse]
    on its date and the error of the parser. *)
Definition beforeBadDate : @locals GoTimePkg :=
  {| entries := [scenarioEntry];
     entry := Some {| Package := "linux"; Version := "5.15.0-26.26";
                      Distributions := "jammy"; Metadata := "urgency=medium";
                      MaintainerName := ""; EmailAddress := "";
                      Date := GoTime.zero; Changes := [] |};
     change := Some 1; detail := Some (0, 0); state := parseStateInEntry |}.

Definition badDateCause : error := GoTime.bad "not-a-date" "Mon" "not-a-date".

Definition badDateError : error :=
  errorString ("parse date: not-a-date, " ++ Error badDateCause).

(** A trailer with no address, and the error of the parser on it. *)
Definition noEmailLine : string := " -- no email here".

Definition noEmailError : error :=
  errorString ("invalid format maintainer line: " ++ noEmailLine).

(* ================================================================== *)
(** ** The driver (main.go 87-128) *)

Section Driver.

Context {T : TimePkg}.

(** What [run] takes from outside the program: [regexp.Compile], the
    bytes of [os.Stdin], and [os.Open] with the bytes of the file it
    opens. *)
Record World : Type := {
  regexp_Compile : string -> Regexp + error;
  os_Stdin : Reader;
  os_Open : string -> Reader + error
}.

(** [parseChangelogFile(filename)] *)
Definition parseChangelogFile (w : World) (filename : string) : result :=
  match os_Open w filename with
  | inr err => Returns [] (Some err)
  | inl file => parseChangelog file
  end.

(** What a call of [run] leaves: the text written to the standard output
    and the error returned, or a panic. *)
Inductive exit : Type :=
| Exits (stdout : string) (err : option error)
| Crashes.

(** [run(filename, filter)].  [filterEntries] returns no error. *)
Definition run (w : World) (filename filter : string) : exit :=
  match regexp_Compile w filter with
  | inr err => Exits "" (Some err)
  | inl filterRE =>
      match (if String.eqb filename "-" then parseChangelog (os_Stdin w)
             else parseChangelogFile w filename) with
      | Panics => Crashes
      | Returns _ (Some err) => Exits "" (Some err)
      | Returns entries None =>
          Exits (printEntries 0 (filterEntries entries filterRE)) None
      end
  end.

(** The world with other bytes on the standard input. *)
Definition withStdin (w : World) (text : string) : World :=
  {| regexp_Compile := regexp_Compile w;
     os_Stdin := {| unread := text; failure := io_EOF |};
     os_Open := os_Open w |}.

End Driver.

(* ================================================================== *)
(** ** More vocabulary *)

Section MoreVocabulary.

Context {T : TimePkg}.

(** The result of a parse with the entries [es] put before its own. *)
Definition after (es : list Entry) (r : result) : result :=
  match r with
  | Returns es' None => Returns (es ++ es')%list None
  | other => other
  end.

(** The text ends with a line end, is parsed to the entries [es] and
    stops after a trailer: the loop is through it in the state where a
    header is awaited. *)
Definition wholeEntries (text : string) (es : list Entry) : Prop :=
  complete text /\
  exists p, loop initial (fst (readLines text)) = Continue p /\
            state p = parseStateInitial /\ entries p = es.

(** The variables [p] are those of [q] with the entries [pre] returned
    before, as far as the state lets the parser read them. *)
Definition agree (pre : list Entry) (p q : locals) : Prop :=
  state p = state q /\
  entries p = (pre ++ entries q)%list /\
  (state q <> parseStateInitial -> entry p = entry q) /\
  (state q = parseStateInChange \/ state q = parseStateInDetail ->
   change p = change q) /\
  (state q = parseStateInDetail -> detail p = detail q).

(** Two turns agree. *)
Definition agreeing (pre : list Entry) (t u : turn) : Prop :=
  match t, u with
  | Continue p, Continue q => agree pre p q
  | Stop r, Stop r' => r = r' /\ forall es, r <> Returns es None
  | _, _ => False
  end.

(** One space or more. *)
Definition spaces (s : string) : Prop :=
  s <> "" /\ strings.all (fun c => Ascii.eqb c " ") s = true.

(** The fields a header line gives: none is cut short or holds a byte
    its pattern excludes.  The distributions start with a space only when
    they are one space, which the pattern takes from the spaces
    before them when the semicolon comes next. *)
Definition headerFields (e : Entry) : Prop :=
  (Package e <> "" /\ plain " " (Package e) = true) /\
  (Version e <> "" /\ plain ")" (Version e) = true) /\
  (Distributions e <> "" /\ plain ";" (Distributions e) = true /\
   (strings.HasPrefix (Distributions e) " " = false \/ Distributions e = " ")) /\
  (strings.no_LF (Metadata e) = true /\
   strings.HasPrefix (Metadata e) " " = false).

(** The fields a trailer line gives, the date apart. *)
Definition trailerFields (e : Entry) : Prop :=
  (MaintainerName e <> "" /\ plain "<" (MaintainerName e) = true) /\
  (EmailAddress e <> "" /\ plain ">" (EmailAddress e) = true).

(** An entry as the parser builds it. *)
Definition wellFormed (e : Entry) : Prop :=
  headerFields e /\ trailerFields e /\ Forall canonicalChange (Changes e).

(** The date of the entry is written as a text that is read back. *)
Definition dated (e : Entry) : Prop :=
  canonicalDate (time_Format (Date e) entryDateFormat).

(** What the parser has built when its variables are [p]: the entries
    returned so far are well formed, and so are the header fields and the
    changes of the entry in progress. *)
Definition built (p : locals) : Prop :=
  Forall wellFormed (entries p) /\
  (state p <> parseStateInitial ->
   exists e, entry p = Some e /\ headerFields e /\
             Forall canonicalChange (Changes e)).

(** What [run] parses: the standard input for the name [-], the file of
    that name otherwise. *)
Definition parsed (w : World) (filename : string) : result :=
  if String.eqb filename "-" then parseChangelog (os_Stdin w)
  else parseChangelogFile w filename.

(** Two outputs one after the other, with an empty line between them when
    neither is empty. *)
Definition joined (out1 out2 : string) : string :=
  match out1, out2 with
  | EmptyString, _ => out2
  | _, EmptyString => out1
  | _, _ => out1 ++ nl ++ out2
  end.

(** The line starts as none of the lines the parser looks for inside an
    entry. *)
Definition unmarked (line : string) : bool :=
  negb (strings.HasPrefix line changePrefix) &&
  negb (strings.HasPrefix line detailHeadPrefix) &&
  negb (strings.HasPrefix line detailTailPrefix) &&
  negb (strings.HasPrefix line maintainerLinePrefix).

(** No node of the pattern is [^]. *)
Fixpoint unanchored (r : list regexp.node) : bool :=
  match r with
  | [] => true
  | regexp.Bol :: _ => false
  | _ :: r' => unanchored r'
  end.

End MoreVocabulary.

(* ================================================================== *)
(** ** More sample inputs *)

(** An entry written with more spaces than the renderer writes, and with
    nothing but spaces where the distributions stand. *)
Definition spacedHeader : string := "linux   (5.15.0-25.25)  ; urgency=medium".

Definition spacedTrailer : string :=
  " -- Ubuntu Kernel Team  <kernel-team@lists.ubuntu.com>   Thu, 05 May 2022 10:00:00 +0000".

Definition spacedText : string :=
  lines [spacedHeader; "  * Change B"; spacedTrailer].

(** The entry after its header, and the entry it is parsed to. *)
Definition spacedStart : @Entry GoTimePkg :=
  {| Package := "linux"; Version := "5.15.0-25.25";
     Distributions := " "; Metadata := "urgency=medium";
     MaintainerName := ""; EmailAddress := "";
     Date := GoTime.zero; Changes := [] |}.

Definition spacedEntry : @Entry GoTimePkg :=
  {| Package := "linux"; Version := "5.15.0-25.25";
     Distributions := " "; Metadata := "urgency=medium";
     MaintainerName := "Ubuntu Kernel Team ";
     EmailAddress := "kernel-team@lists.ubuntu.com";
     Date := scenarioDate;
     Changes := [changeB] |}.

(** The variables of the parser after the scenario. *)
Definition afterScenario : @locals GoTimePkg :=
  {| entries := [scenarioEntry]; entry := Some scenarioEntry;
     change := Some 1; detail := Some (0, 0); state := parseStateInitial |}.

(** The first lines of the scenario, up to its detail, the variables of
    the parser after them, a line of the kind Ubuntu's changelogs hold
    between changes, and the lines that follow. *)
Definition detailPart : string :=
  lines ["linux (5.15.0-25.25) jammy; urgency=medium";
         "  * Change A";
         "    - detail line 1";
         "      continuation"].

Definition insideDetail : @locals GoTimePkg :=
  {| entries := [];
     entry := Some {| Package := "linux"; Version := "5.15.0-25.25";
                      Distributions := "jammy"; Metadata := "urgency=medium";
                      MaintainerName := ""; EmailAddress := "";
                      Date := GoTime.zero; Changes := [changeA] |};
     change := Some 0; detail := Some (0, 0); state := parseStateInDetail |}.

Definition sectionLine : string := "  [ Ubuntu: 5.15.0-25.25 ]".

Definition afterDetailPart : string := lines ["  * Change B"; trailerLine].

(** An entry that is never closed. *)
Definition unfinishedHeader : string :=
  "linux (5.15.0-26.26) jammy; urgency=medium".

Definition unfinishedStart : @Entry GoTimePkg :=
  {| Package := "linux"; Version := "5.15.0-26.26";
     Distributions := "jammy"; Metadata := "urgency=medium";
     MaintainerName := ""; EmailAddress := "";
     Date := GoTime.zero; Changes := [] |}.

Definition unfinishedLines : list string :=
  ["  * Change C"; "    - a detail of it"].

(** A reader that fails after the scenario. *)
Definition failingReader : Reader :=
  {| unread := scenarioText;
     failure := errorString "read /dev/stdin: input/output error" |}.

(** A world: the patterns of the fragment compile, the standard input
    holds the spaced entry and the scenario, and there is no file. *)
Definition sampleWorld : World :=
  {| regexp_Compile := fun pattern => inl (regexp.MustCompile pattern);
     os_Stdin := {| unread := spacedText ++ scenarioText; failure := io_EOF |};
     os_Open := fun name =>
       inr (errorString ("open " ++ name ++ ": no such file or directory")) |}.

(** What the program writes in that world for the pattern [Change]. *)
Definition sampleOutput : string :=
  lines ["linux (5.15.0-25.25)  ; urgency=medium";
         "  * Change B";
         " -- Ubuntu Kernel Team  <kernel-team@lists.ubuntu.com> Thu, 05 May 2022 10:00:00 +0000";
         "";
         "linux (5.15.0-25.25) jammy; urgency=medium";
         "  * Change A";
         "  * Change B";
         " -- Ubuntu Kernel Team <kernel-team@lists.ubuntu.com> Thu, 05 May 2022 10:00:00 +0000"].

(* ================================================================== *)
(** * Properties *)

Section FilterFacts.

Context {T : TimePkg}.

Lemma through_last {A : Type} (f : A -> A) (l : list A) (x : A) :
  through (List.length l) f (l ++ [x])%list = (l ++ [f x])%list.
Proof.
  induction l as [|y l IH]; simpl; [reflexivity|].
  now rewrite IH.
Qed.

Lemma nth_error_last {A : Type} (l : list A) (x : A) :
  nth_error (l ++ [x])%list (List.length l) = Some x.
Proof.
  induction l as [|y l IH]; simpl; auto.
Qed.

Lemma setChanges_setChanges (e : Entry) (cs cs' : list Change) :
  setChanges (setChanges e cs) cs' = setChanges e cs'.
Proof. reflexivity. Qed.

Lemma setChanges_same (e : Entry) : setChanges e (Changes e) = e.
Proof. now destruct e. Qed.

Lemma pointing_between m done e cs c :
  pointing m done e cs c ->
  between m done (Some (setChanges e (cs ++ [c])%list)).
Proof.
  intros (H1 & H2 & _). split; simpl; assumption.
Qed.

(** [appendChange] creates the matched entry when there is none, adds the
    change with no detail, and leaves [matchedChange] on it. *)
Lemma appendChange_pointing m done cur entry change :
  between m done cur ->
  let base := match cur with Some e => e | None => setChanges entry [] end in
  pointing (appendChange m entry change) done base (Changes base)
    {| Summary := Summary change; Details := [] |}.
Proof.
  intros [Hes He]. unfold appendChange.
  destruct cur as [e|]; simpl in *; rewrite He, Hes; cbn zeta.
  - rewrite through_last. cbn [matchedEntries matchedEntry matchedChange].
    rewrite nth_error_last. simpl.
    rewrite length_app, Nat.add_sub. simpl.
    repeat split; reflexivity.
  - rewrite app_nil_r. rewrite through_last.
    cbn [matchedEntries matchedEntry matchedChange].
    rewrite nth_error_last. simpl.
    repeat split; reflexivity.
Qed.

Lemma appendDetail_pointing m done e cs c entry change d :
  pointing m done e cs c ->
  pointing (appendDetail m entry change d) done e cs
    (setDetails c (Details c ++ [d])%list).
Proof.
  intros (Hes & He & Hc). unfold appendDetail. rewrite Hc. rewrite Hc.
  unfold pointing. cbn [matchedEntries matchedEntry matchedChange].
  rewrite Hes, through_last. cbn [Changes setChanges].
  rewrite through_last. auto.
Qed.

Lemma appendChange_sets m entry change :
  exists p, matchedChange (appendChange m entry change) = Some p.
Proof.
  unfold appendChange. destruct (matchedEntry m); simpl; eauto.
Qed.

(** With [matchedChange] nil, [appendDetail] first appends the change. *)
Lemma appendDetail_cleared m entry change d :
  matchedChange m = None ->
  appendDetail m entry change d
  = appendDetail (appendChange m entry change) entry change d.
Proof.
  intros Hc. unfold appendDetail. rewrite Hc.
  destruct (appendChange_sets m entry change) as [p Hp]. now rewrite !Hp.
Qed.

Lemma overDetails_pointing re entry change ds : forall m done e cs c,
  pointing m done e cs c ->
  pointing
    (fold_left
       (fun m detail =>
          if Detail_Matches detail re then appendDetail m entry change detail
          else m) ds m)
    done e cs
    (setDetails c (Details c ++ filter (fun d => Detail_Matches d re) ds)%list).
Proof.
  induction ds as [|d ds IH]; intros m done e cs c H; simpl.
  - rewrite app_nil_r. now destruct c.
  - destruct (Detail_Matches d re).
    + apply (appendDetail_pointing _ _ _ _ _ entry change d) in H.
      apply IH in H. simpl in H. now rewrite <- app_assoc in H.
    + now apply IH.
Qed.

Lemma overDetails_cleared re entry change ds : forall m done cur,
  between m done cur ->
  matchedChange m = None ->
  between
    (fold_left
       (fun m detail =>
          if Detail_Matches detail re then appendDetail m entry change detail
          else m) ds m)
    done
    (grown cur entry
       (match filter (fun d => Detail_Matches d re) ds with
        | [] => []
        | kept => [{| Summary := Summary change; Details := kept |}]
        end)).
Proof.
  induction ds as [|d ds IH]; intros m done cur H Hc; simpl.
  - exact H.
  - destruct (Detail_Matches d re) eqn:Hd.
    + pose proof (appendChange_pointing m done cur entry change H) as Hp.
      cbn zeta in Hp.
      apply (appendDetail_pointing _ _ _ _ _ entry change d) in Hp.
      rewrite <- (appendDetail_cleared m entry change d Hc) in Hp.
      apply (overDetails_pointing re entry change ds) in Hp.
      apply pointing_between in Hp. exact Hp.
    + now apply IH.
Qed.

(** One turn of the loop over the changes. *)
Lemma overChanges_turn re entry change m done cur :
  between m done cur ->
  between
    (overDetails re entry change
       (if MatchString re (Summary change) then appendChange m entry change
        else clearChange m))
    done
    (grown cur entry
       (if survives re change then [keptChange re change] else [])).
Proof.
  intros H. unfold overDetails, survives, keptChange, keptDetails.
  destruct (MatchString re (Summary change)) eqn:Hs; simpl.
  - pose proof (appendChange_pointing m done cur entry change H) as Hp.
    cbn zeta in Hp.
    apply (overDetails_pointing re entry change (Details change)) in Hp.
    apply pointing_between in Hp. exact Hp.
  - assert (Hb : between (clearChange m) done cur) by exact H.
    pose proof (overDetails_cleared re entry change (Details change)
                  (clearChange m) done cur Hb eq_refl) as Hr.
    destruct (filter (fun d => Detail_Matches d re) (Details change)) eqn:Hf.
    + assert (He : existsb (fun d => Detail_Matches d re) (Details change) = false).
      { destruct (existsb _ _) eqn:E; [|reflexivity].
        apply existsb_exists in E. destruct E as (d & Hin & Hd).
        assert (Hin' : In d (filter (fun d => Detail_Matches d re) (Details change)))
          by (apply filter_In; auto).
        rewrite Hf in Hin'. destruct Hin'. }
      rewrite He. exact Hr.
    + assert (He : existsb (fun d => Detail_Matches d re) (Details change) = true).
      { apply existsb_exists. exists d.
        assert (Hin' : In d (filter (fun d => Detail_Matches d re) (Details change)))
          by (rewrite Hf; left; reflexivity).
        apply filter_In in Hin'. exact Hin'. }
      rewrite He. exact Hr.
Qed.

Lemma grown_grown cur entry k1 k2 :
  grown (grown cur entry k1) entry k2 = grown cur entry (k1 ++ k2)%list.
Proof.
  destruct k1 as [|c1 k1]; [reflexivity|].
  destruct k2 as [|c2 k2]; [now rewrite app_nil_r|].
  unfold grown. simpl. f_equal. unfold setChanges. simpl.
  now rewrite <- app_assoc.
Qed.

Lemma overChanges_between re entry cs : forall m done cur,
  between m done cur ->
  between
    (fold_left
       (fun m change =>
          overDetails re entry change
            (if MatchString re (Summary change) then appendChange m entry change
             else clearChange m)) cs m)
    done
    (grown cur entry (map (keptChange re) (filter (survives re) cs))).
Proof.
  induction cs as [|c cs IH]; intros m done cur H; simpl.
  - exact H.
  - apply (overChanges_turn re entry c) in H. apply IH in H.
    rewrite grown_grown in H.
    destruct (survives re c); exact H.
Qed.

Lemma grown_keptEntry re e :
  olist (grown None e (keptChanges re e)) = keptEntry re e.
Proof.
  unfold keptEntry, grown. destruct (keptChanges re e); reflexivity.
Qed.

Lemma overEntries_spec re es : forall m done cur,
  between m done cur ->
  matchedEntries (overEntries re es m)
  = (matchedEntries m ++ flat_map (keptEntry re) es)%list.
Proof.
  induction es as [|e es IH]; intros m done cur H; simpl.
  - now rewrite app_nil_r.
  - assert (Hc : between (clearEntry m) (matchedEntries m) None).
    { split; simpl; [now rewrite app_nil_r | reflexivity]. }
    apply (overChanges_between re e (Changes e)) in Hc.
    fold (overChanges re e (clearEntry m)) in Hc.
    fold (keptChanges re e) in Hc.
    unfold overEntries in *. simpl.
    rewrite (IH _ _ _ Hc).
    destruct Hc as [Hc _]. rewrite Hc, grown_keptEntry.
    now rewrite <- app_assoc.
Qed.

(** The filter, entry by entry: each entry gives nothing, or itself with
    its surviving changes, each with its matching details. *)
Lemma filterEntries_spec (es : list Entry) (re : Regexp) :
  filterEntries es re = flat_map (keptEntry re) es.
Proof.
  unfold filterEntries.
  rewrite (overEntries_spec re es _ [] None); [reflexivity|].
  split; reflexivity.
Qed.

End FilterFacts.

(* ------------------------------------------------------------------ *)
(** *** The default pattern [.] *)

(** [.] matches the strings that hold a byte other than a newline. *)
Lemma dot_MatchString (s : string) :
  MatchString regexp.dot s
  = negb (strings.all (fun c => Ascii.eqb c strings.LF) s).
Proof.
  unfold regexp.dot, regexp.MustCompile.
  change (regexp.nodes (regexp.tokens ".")) with [regexp.One regexp.Dot].
  cbn [MatchString regexp.program].
  generalize 0. induction s as [|c s IH]; intros i; simpl; [reflexivity|].
  destruct (Ascii.eqb c strings.LF) eqn:E; simpl; [apply IH | reflexivity].
Qed.

(** On a string with no newline, as every line the parser reads, [.]
    matches unless the string is empty. *)
Lemma dot_matches_line (s : string) :
  strings.no_LF s = true -> (MatchString regexp.dot s = true <-> s <> "").
Proof.
  intros H. rewrite dot_MatchString. destruct s as [|c s]; simpl in *.
  - split; [discriminate | contradiction].
  - apply andb_true_iff in H. destruct H as [Hc _].
    apply negb_true_iff in Hc. rewrite Hc. simpl. split; [discriminate | reflexivity].
Qed.

Section FilterClaims.

Context {T : TimePkg}.

Lemma keptChanges_all (re : Regexp) (e : Entry) :
  (forall c, In c (Changes e) ->
     MatchString re (Summary c) = true /\
     forall d, In d (Details c) -> Detail_Matches d re = true) ->
  keptChanges re e = Changes e.
Proof.
  unfold keptChanges. induction (Changes e) as [|c cs IH]; intros H; simpl.
  - reflexivity.
  - destruct (H c (or_introl eq_refl)) as [Hs Hd].
    unfold survives at 1. rewrite Hs. simpl.
    rewrite IH by (intros c' Hc'; apply H; now right). f_equal.
    unfold keptChange, keptDetails. destruct c as [sm ds]. simpl in *. f_equal.
    clear -Hd. induction ds as [|d ds IHd]; simpl; [reflexivity|].
    rewrite (Hd d (or_introl eq_refl)). f_equal.
    apply IHd. intros d' Hd'. apply Hd. now right.
Qed.

(** A pattern that matches every summary and every detail keeps all but
    the entries with no change. *)
Lemma filterEntries_all_matching (re : Regexp) (es : list Entry) :
  (forall e c, In e es -> In c (Changes e) ->
     MatchString re (Summary c) = true /\
     forall d, In d (Details c) -> Detail_Matches d re = true) ->
  filterEntries es re = filter hasChanges es.
Proof.
  rewrite filterEntries_spec.
  induction es as [|e es IH]; intros H; simpl; [reflexivity|].
  rewrite IH by (intros e' c' He'; apply H; now right).
  unfold keptEntry, hasChanges.
  rewrite keptChanges_all by (intros c Hc; apply (H e c); [now left | exact Hc]).
  destruct (Changes e) eqn:E; simpl; [reflexivity|].
  rewrite <- E, setChanges_same. reflexivity.
Qed.

(** C2, as amended: filtering with the pattern [.] returns the input
    without the entries that have no change, provided [.] matches every
    summary and a line of every detail (each holds a byte other than a
    newline).  Every change and every detail of the entries that stay is
    kept unchanged. *)
Theorem filter_dot_keeps_all_but_changeless (es : list Entry) :
  (forall e c, In e es -> In c (Changes e) ->
     MatchString regexp.dot (Summary c) = true /\
     forall d, In d (Details c) -> Detail_Matches d regexp.dot = true) ->
  filterEntries es regexp.dot = filter hasChanges es.
Proof.
  apply filterEntries_all_matching.
Qed.

Lemma In_keptEntry (re : Regexp) (es : list Entry) (e' : Entry) :
  In e' (filterEntries es re) <->
  exists e, In e es /\ keptChanges re e <> [] /\ e' = setChanges e (keptChanges re e).
Proof.
  rewrite filterEntries_spec, in_flat_map. unfold keptEntry.
  split.
  - intros (e & He & Hin). exists e. split; [exact He|].
    destruct (keptChanges re e); [destruct Hin|].
    destruct Hin as [<-|[]]. split; [discriminate | reflexivity].
  - intros (e & He & Hne & ->). exists e. split; [exact He|].
    destruct (keptChanges re e); [contradiction | now left].
Qed.

Lemma sameFields_setChanges (e : Entry) (cs : list Change) :
  sameFields (setChanges e cs) e.
Proof. repeat split. Qed.

Lemma survives_iff (re : Regexp) (c : Change) :
  survives re c = true <->
  MatchString re (Summary c) = true \/
  exists d, In d (Details c) /\ Detail_Matches d re = true.
Proof.
  unfold survives. rewrite orb_true_iff, existsb_exists. reflexivity.
Qed.

(** C3: a change whose summary matches, or one of whose details has a
    matching line (whether or not the summary matches), is in the
    filtered result, under an entry with the fields of its own entry, with
    its summary and exactly its matching details; the details with no
    matching line are dropped. *)
Theorem matching_detail_keeps_its_change (re : Regexp) (es : list Entry)
    (e : Entry) (c : Change) :
  In e es -> In c (Changes e) ->
  (MatchString re (Summary c) = true \/
   exists d, In d (Details c) /\ Detail_Matches d re = true) ->
  exists e',
    In e' (filterEntries es re) /\ sameFields e' e /\
    Changes e' = keptChanges re e /\
    In {| Summary := Summary c;
          Details := filter (fun d => Detail_Matches d re) (Details c) |}
       (Changes e').
Proof.
  intros He Hc Hm. apply survives_iff in Hm.
  assert (Hin : In (keptChange re c) (keptChanges re e)).
  { unfold keptChanges. apply in_map. apply filter_In. auto. }
  exists (setChanges e (keptChanges re e)). repeat split.
  - apply In_keptEntry. exists e. split; [exact He|]. split; [|reflexivity].
    intros E. rewrite E in Hin. destruct Hin.
  - exact Hin.
Qed.

Lemma unmatched_keptEntry (re : Regexp) (e : Entry) :
  unmatched re e -> keptEntry re e = [].
Proof.
  intros H. unfold keptEntry, keptChanges.
  assert (Hf : filter (survives re) (Changes e) = []).
  { revert H. unfold unmatched.
    induction (Changes e) as [|c cs IH]; intros H; simpl; [reflexivity|].
    destruct (H c (or_introl eq_refl)) as [Hs Hl].
    assert (Hsv : survives re c = false).
    { unfold survives. rewrite Hs. simpl.
      destruct (existsb _ _) eqn:E; [|reflexivity].
      apply existsb_exists in E. destruct E as (d & Hd & Hm).
      unfold Detail_Matches in Hm. apply existsb_exists in Hm.
      destruct Hm as (l & Hin & Hm). rewrite (Hl d l Hd Hin) in Hm.
      discriminate Hm. }
    rewrite Hsv. apply IH. intros c' Hc'. apply H. now right. }
  rewrite Hf. reflexivity.
Qed.

(** C4: an entry none of whose summaries and lines match leaves nothing in
    the filtered result (the result is that of the sequence without it);
    no entry of a filtered result is without a change; and a pattern that
    matches nothing gives the empty sequence. *)
Theorem unmatched_entry_is_omitted (re : Regexp) :
  (forall es1 e es2, unmatched re e ->
     filterEntries (es1 ++ e :: es2)%list re = filterEntries (es1 ++ es2)%list re) /\
  (forall es e', In e' (filterEntries es re) -> Changes e' <> []) /\
  (forall es, (forall s, MatchString re s = false) -> filterEntries es re = []).
Proof.
  split; [|split].
  - intros es1 e es2 H. rewrite !filterEntries_spec, !flat_map_app. simpl.
    now rewrite (unmatched_keptEntry re e H).
  - intros es e' Hin. apply In_keptEntry in Hin.
    destruct Hin as (e & _ & Hne & ->). exact Hne.
  - intros es H. rewrite filterEntries_spec.
    induction es as [|e es IH]; simpl; [reflexivity|].
    rewrite IH, unmatched_keptEntry; [reflexivity|].
    intros c _. split; [apply H | intros; apply H].
Qed.

(** C8: every change of a filtered result comes from a change of an entry
    of the input whose package, version, distributions, metadata,
    maintainer name, email address and date are those of the entry it is
    under; it has that change's summary, and each of its details is a
    detail of that change. *)
Theorem survivors_keep_their_entry_fields (re : Regexp) (es : list Entry)
    (e' : Entry) (c' : Change) :
  In e' (filterEntries es re) -> In c' (Changes e') ->
  exists e c,
    In e es /\ In c (Changes e) /\ sameFields e' e /\
    Summary c' = Summary c /\
    forall d, In d (Details c') -> In d (Details c) /\ Detail_Matches d re = true.
Proof.
  intros He' Hc'. apply In_keptEntry in He'.
  destruct He' as (e & He & _ & ->). simpl in Hc'.
  unfold keptChanges in Hc'. apply in_map_iff in Hc'.
  destruct Hc' as (c & <- & Hc). apply filter_In in Hc. destruct Hc as [Hc _].
  exists e, c. split; [exact He|]. split; [exact Hc|].
  split; [apply sameFields_setChanges|]. split; [reflexivity|].
  intros d Hd. simpl in Hd. unfold keptDetails in Hd.
  apply filter_In in Hd. exact Hd.
Qed.

End FilterClaims.

(* ------------------------------------------------------------------ *)
(** *** Strings, lines and reads *)

Lemma HasPrefix_app (p s : string) : strings.HasPrefix (p ++ s) p = true.
Proof.
  induction p as [|c p IH]; simpl; [reflexivity|].
  now rewrite Ascii.eqb_refl, IH.
Qed.

Lemma HasPrefix_inv (p : string) : forall s,
  strings.HasPrefix s p = true -> exists r, s = p ++ r.
Proof.
  induction p as [|c p IH]; intros s H; simpl in *.
  - now exists s.
  - destruct s as [|c' s]; [discriminate|].
    apply andb_true_iff in H. destruct H as [Hc Hp].
    apply Ascii.eqb_eq in Hc. subst c'.
    destruct (IH s Hp) as [r ->]. now exists r.
Qed.

Lemma from_app (p s : string) : strings.from (String.length p) (p ++ s) = s.
Proof.
  induction p as [|c p IH]; simpl; [reflexivity | exact IH].
Qed.

Lemma append_assoc (a b c : string) : (a ++ b) ++ c = a ++ (b ++ c).
Proof.
  induction a as [|x a IH]; simpl; [reflexivity | now rewrite IH].
Qed.

Lemma append_nil_r (a : string) : a ++ "" = a.
Proof.
  induction a as [|x a IH]; simpl; [reflexivity | now rewrite IH].
Qed.

Lemma no_LF_app (a b : string) :
  strings.no_LF (a ++ b) = strings.no_LF a && strings.no_LF b.
Proof.
  induction a as [|x a IH]; simpl; [reflexivity|].
  now rewrite IH, andb_assoc.
Qed.

Lemma TrimRight_line (l : string) :
  strings.no_LF l = true -> strings.TrimRight_LF (l ++ nl) = l.
Proof.
  induction l as [|c l IH]; intros H; simpl in *; [reflexivity|].
  apply andb_true_iff in H. destruct H as [Hc Hl].
  rewrite (IH Hl). destruct l as [|c' l]; [|reflexivity].
  apply negb_true_iff in Hc. now rewrite Hc.
Qed.

(** A read that ends a line without a newline in it. *)
Lemma readLines_line (l rest : string) :
  strings.no_LF l = true ->
  readLines (l ++ nl ++ rest)
  = ((l ++ nl) :: fst (readLines rest), snd (readLines rest)).
Proof.
  induction l as [|c l IH]; intros H; simpl in *.
  - destruct (readLines rest). reflexivity.
  - apply andb_true_iff in H. destruct H as [Hc Hl].
    rewrite (IH Hl). apply negb_true_iff in Hc. rewrite Hc. reflexivity.
Qed.

(** The bytes after the last newline give no read. *)
Lemma readLines_tail (tail : string) :
  strings.no_LF tail = true -> readLines tail = ([], tail).
Proof.
  induction tail as [|c l IH]; intros H; simpl in *; [reflexivity|].
  apply andb_true_iff in H. destruct H as [Hc Hl].
  rewrite (IH Hl). apply negb_true_iff in Hc. now rewrite Hc.
Qed.

Lemma readLines_app (a b : string) :
  snd (readLines a) = "" ->
  readLines (a ++ b)
  = ((fst (readLines a) ++ fst (readLines b))%list, snd (readLines b)).
Proof.
  induction a as [|c a IH]; simpl.
  - intros _. now destruct (readLines b).
  - destruct (readLines a) as [ls rest] eqn:Ea. simpl in IH.
    destruct (Ascii.eqb c strings.LF).
    + simpl. intros H. rewrite (IH H). reflexivity.
    + destruct ls as [|l ls]; simpl.
      * discriminate.
      * intros H. rewrite (IH H). reflexivity.
Qed.

Lemma readLines_ends_with_nl (t : string) :
  exists l ls, readLines (t ++ nl) = (l :: ls, "").
Proof.
  induction t as [|c t (l & ls & IH)]; simpl.
  - now exists nl, [].
  - rewrite IH. destruct (Ascii.eqb c strings.LF); eauto.
Qed.

Lemma readLines_complete (s : string) :
  complete s -> snd (readLines s) = "".
Proof.
  intros [->|[t ->]]; [reflexivity|].
  destruct (readLines_ends_with_nl t) as (l & ls & ->). reflexivity.
Qed.

(* ------------------------------------------------------------------ *)
(** *** The parser's pointers and the turns of its loop *)

Section ParserFacts.

Context {T : TimePkg}.

(** A detail-head line has neither the prefix of a change nor that of a
    trailer. *)
Lemma detailHead_excludes (line : string) :
  strings.HasPrefix line detailHeadPrefix = true ->
  strings.HasPrefix line changePrefix = false /\
  strings.HasPrefix line maintainerLinePrefix = false.
Proof.
  intros H. apply HasPrefix_inv in H. destruct H as [r ->].
  split; reflexivity.
Qed.

(** A trailer line has none of the other prefixes. *)
Lemma maintainer_excludes (line : string) :
  strings.HasPrefix line maintainerLinePrefix = true ->
  strings.HasPrefix line changePrefix = false /\
  strings.HasPrefix line detailHeadPrefix = false /\
  strings.HasPrefix line detailTailPrefix = false.
Proof.
  intros H. apply HasPrefix_inv in H. destruct H as [r ->].
  repeat split; reflexivity.
Qed.

Lemma processChangeLine_spec (p : locals) (e : Entry) (line : string) :
  entry p = Some e ->
  processChangeLine p line
  = Continue
      {| entries := entries p;
         entry := Some (setChanges e
                    (Changes e ++
                     [{| Summary := strings.from (String.length changePrefix) line;
                         Details := [] |}])%list);
         change := Some (List.length (Changes e));
         detail := detail p;
         state := parseStateInChange |}.
Proof.
  intros He. unfold processChangeLine. rewrite He.
  rewrite length_app. simpl. now rewrite Nat.add_sub.
Qed.

Lemma processDetailHeadLine_spec (p : locals) (e : Entry) (cs : list Change)
    (c : Change) (line : string) :
  entry p = Some e -> Changes e = (cs ++ [c])%list ->
  change p = Some (List.length cs) ->
  processDetailHeadLine p line
  = Continue
      {| entries := entries p;
         entry := Some (setChanges e
                    (cs ++
                     [setDetails c
                        (Details c ++
                         [{| Lines := [strings.from (String.length detailHeadPrefix) line] |}])])%list);
         change := Some (List.length cs);
         detail := Some (List.length cs, List.length (Details c));
         state := parseStateInDetail |}.
Proof.
  intros He Hcs Hc. unfold processDetailHeadLine. rewrite He, Hc, Hcs.
  rewrite nth_error_last, through_last, length_app. simpl.
  now rewrite Nat.add_sub.
Qed.

Lemma processDetailTailLine_spec (p : locals) (e : Entry) (cs : list Change)
    (c : Change) (ds : list Detail) (d : Detail) (line : string) :
  entry p = Some e -> Changes e = (cs ++ [c])%list ->
  Details c = (ds ++ [d])%list ->
  detail p = Some (List.length cs, List.length ds) ->
  processDetailTailLine p line
  = Continue
      {| entries := entries p;
         entry := Some (setChanges e
                    (cs ++
                     [setDetails c
                        (ds ++
                         [setLines d
                            (Lines d ++
                             [strings.from (String.length detailTailPrefix) line])])])%list);
         change := change p;
         detail := detail p;
         state := state p |}.
Proof.
  intros He Hcs Hds Hd. unfold processDetailTailLine. rewrite He, Hd, Hcs.
  rewrite nth_error_last, Hds, nth_error_last, through_last.
  rewrite Hds, through_last. reflexivity.
Qed.

Lemma valid_entry (p : locals) :
  valid p -> state p <> parseStateInitial -> exists e, entry p = Some e.
Proof.
  unfold valid. destruct (state p); intros H Hs.
  - contradiction.
  - exact H.
  - destruct H as (e & _ & _ & H & _). eauto.
  - destruct H as (e & _ & _ & _ & _ & H & _). eauto.
Qed.

Lemma sound_processChangeLine (p : locals) (line : string) :
  valid p -> state p <> parseStateInitial -> sound (processChangeLine p line).
Proof.
  intros Hv Hs. destruct (valid_entry p Hv Hs) as [e He].
  rewrite (processChangeLine_spec p e line He). simpl. unfold valid. simpl.
  do 3 eexists. repeat split; reflexivity.
Qed.

Lemma sound_processMaintainerLine (p : locals) (line : string) :
  valid p -> state p <> parseStateInitial -> sound (processMaintainerLine p line).
Proof.
  intros Hv Hs. destruct (valid_entry p Hv Hs) as [e He].
  unfold processMaintainerLine. rewrite He.
  destruct (parseMaintainerLine e line) as [e' [err|]]; simpl; [reflexivity|].
  exact I.
Qed.

Lemma sound_processDetailHeadLine (p : locals) (line : string) :
  valid p -> state p = parseStateInChange \/ state p = parseStateInDetail ->
  sound (processDetailHeadLine p line).
Proof.
  unfold valid. intros Hv [Hs|Hs]; rewrite Hs in Hv.
  - destruct Hv as (e & cs & c & He & Hcs & Hc).
    rewrite (processDetailHeadLine_spec p e cs c line He Hcs Hc).
    simpl. unfold valid. simpl. do 5 eexists. repeat split; reflexivity.
  - destruct Hv as (e & cs & c & ds & d & He & Hcs & Hc & _).
    rewrite (processDetailHeadLine_spec p e cs c line He Hcs Hc).
    simpl. unfold valid. simpl. do 5 eexists. repeat split; reflexivity.
Qed.

Lemma sound_processDetailTailLine (p : locals) (line : string) :
  valid p -> state p = parseStateInDetail ->
  sound (processDetailTailLine p line).
Proof.
  unfold valid. intros Hv Hs. rewrite Hs in Hv.
  destruct Hv as (e & cs & c & ds & d & He & Hcs & Hc & Hds & Hd).
  rewrite (processDetailTailLine_spec p e cs c ds d line He Hcs Hds Hd).
  simpl. unfold valid. simpl. rewrite Hs.
  do 5 eexists. split; [reflexivity|]. split; [reflexivity|].
  split; [exact Hc|]. split; [reflexivity | exact Hd].
Qed.

Lemma valid_dispatch (p : locals) (line : string) :
  valid p -> sound (dispatch p line).
Proof.
  intros Hv. unfold dispatch. destruct (state p) eqn:Hs.
  - destruct (parseEntryLine line) as [e|err]; simpl; [|reflexivity].
    unfold valid. simpl. eauto.
  - destruct (strings.HasPrefix line changePrefix).
    { apply sound_processChangeLine; [exact Hv | congruence]. }
    destruct (strings.HasPrefix line maintainerLinePrefix).
    { apply sound_processMaintainerLine; [exact Hv | congruence]. }
    exact Hv.
  - destruct (strings.HasPrefix line changePrefix).
    { apply sound_processChangeLine; [exact Hv | congruence]. }
    destruct (strings.HasPrefix line detailHeadPrefix).
    { apply sound_processDetailHeadLine; auto. }
    destruct (strings.HasPrefix line maintainerLinePrefix).
    { apply sound_processMaintainerLine; [exact Hv | congruence]. }
    exact Hv.
  - destruct (strings.HasPrefix line changePrefix).
    { apply sound_processChangeLine; [exact Hv | congruence]. }
    destruct (strings.HasPrefix line detailHeadPrefix).
    { apply sound_processDetailHeadLine; auto. }
    destruct (strings.HasPrefix line detailTailPrefix).
    { apply sound_processDetailTailLine; auto. }
    destruct (strings.HasPrefix line maintainerLinePrefix).
    { apply sound_processMaintainerLine; [exact Hv | congruence]. }
    exact Hv.
Qed.

Lemma valid_body (p : locals) (read : string) :
  valid p -> sound (body p read).
Proof.
  intros Hv. unfold body.
  destruct (Nat.eqb _ 0); [exact Hv | now apply valid_dispatch].
Qed.

Lemma valid_loop (reads : list string) : forall p,
  valid p -> sound (loop p reads).
Proof.
  induction reads as [|read reads IH]; intros p Hv; simpl; [exact Hv|].
  pose proof (valid_body p read Hv) as Hb.
  destruct (body p read) as [p'|r]; [now apply IH | exact Hb].
Qed.

(** A turn that stops the loop stops the function with its result. *)
Lemma loop_app (reads1 reads2 : list string) : forall p,
  loop p (reads1 ++ reads2)
  = match loop p reads1 with
    | Continue p' => loop p' reads2
    | Stop r => Stop r
    end.
Proof.
  induction reads1 as [|read reads1 IH]; intros p; simpl; [reflexivity|].
  destruct (body p read); [apply IH | reflexivity].
Qed.

(** The parser returns entries and no error, or no entry and an error; it
    does not panic. *)
Lemma parseChangelog_total (r : Reader) :
  (exists es, parseChangelog r = Returns es None) \/
  (exists err, parseChangelog r = Returns [] (Some err)).
Proof.
  unfold parseChangelog.
  pose proof (valid_loop (fst (readLines (unread r))) initial I) as H.
  destruct (loop initial _) as [p|[es [err|]|]]; simpl in H.
  - destruct (failure r); eauto.
  - subst es. eauto.
  - contradiction.
  - contradiction.
Qed.

End ParserFacts.

(* ------------------------------------------------------------------ *)
(** *** Refused lines, the trailer, and the last line *)

Section ParserClaims.

Context {T : TimePkg}.

(** The turn for a line read with its newline. *)
Lemma body_line (p : locals) (line : string) :
  strings.no_LF line = true -> line <> "" ->
  body p (line ++ nl) = dispatch p line.
Proof.
  intros Hl Hne. unfold body. rewrite (TrimRight_line line Hl).
  destruct line; [contradiction | reflexivity].
Qed.

(** A line with the prefix of a trailer goes to [processMaintainerLine] in
    every state but the initial one. *)
Lemma dispatch_trailer (p : locals) (line : string) :
  state p <> parseStateInitial ->
  strings.HasPrefix line maintainerLinePrefix = true ->
  dispatch p line = processMaintainerLine p line.
Proof.
  intros Hs Hp. destruct (maintainer_excludes line Hp) as (H1 & H2 & H3).
  unfold dispatch. rewrite H1, H2, H3, Hp.
  destruct (state p); [contradiction | reflexivity..].
Qed.

Lemma dispatch_malformed (p : locals) (line : string) (err : error) :
  malformed p line err -> dispatch p line = Stop (Returns [] (Some err)).
Proof.
  intros [[Hs He]|(Hs & Hp & e & He & Hm)].
  - unfold dispatch. now rewrite Hs, He.
  - rewrite (dispatch_trailer p line Hs Hp). unfold processMaintainerLine.
    rewrite He. destruct (parseMaintainerLine e line) as [e' o]. simpl in Hm.
    now subst o.
Qed.

(** The reads of a text cut after a complete part and one more line. *)
Lemma reads_split (before line after : string) :
  complete before -> strings.no_LF line = true ->
  fst (readLines (before ++ line ++ nl ++ after))
  = (fst (readLines before) ++ (line ++ nl)%string :: fst (readLines after))%list.
Proof.
  intros Hc Hl. rewrite (readLines_app _ _ (readLines_complete _ Hc)).
  rewrite (readLines_line line after Hl). reflexivity.
Qed.

(** A refused line stops the parse, whatever was read before it and
    whatever follows it. *)
Lemma malformed_line_aborts (r : Reader) (before line after : string)
    (p : locals) (err : error) :
  unread r = before ++ line ++ nl ++ after ->
  complete before -> strings.no_LF line = true -> line <> "" ->
  loop initial (fst (readLines before)) = Continue p ->
  malformed p line err ->
  parseChangelog r = Returns [] (Some err).
Proof.
  intros Hu Hc Hl Hne Hp Hm. unfold parseChangelog.
  rewrite Hu, (reads_split before line after Hc Hl), loop_app, Hp.
  simpl. rewrite (body_line p line Hl Hne), (dispatch_malformed p line err Hm).
  reflexivity.
Qed.

(** The entries returned so far change only when a trailer is accepted:
    then the entry in progress, with the maintainer, the address and the
    date of the trailer, is added at the end. *)
Lemma dispatch_entries (p p' : locals) (line : string) :
  dispatch p line = Continue p' ->
  entries p' = entries p \/
  (state p <> parseStateInitial /\
   strings.HasPrefix line maintainerLinePrefix = true /\
   exists e e',
     entry p = Some e /\ parseMaintainerLine e line = (e', None) /\
     entries p' = (entries p ++ [e'])%list /\ state p' = parseStateInitial).
Proof.
  assert (Hc : forall q, processChangeLine p line = Continue q ->
                         entries q = entries p).
  { unfold processChangeLine. intros q. destruct (entry p); [|discriminate].
    intros [= <-]. reflexivity. }
  assert (Hh : forall q, processDetailHeadLine p line = Continue q ->
                         entries q = entries p).
  { unfold processDetailHeadLine. intros q.
    destruct (entry p) as [e|]; [|discriminate].
    destruct (change p) as [i|]; [|discriminate].
    destruct (nth_error (Changes e) i); [|discriminate].
    intros [= <-]. reflexivity. }
  assert (Ht : forall q, processDetailTailLine p line = Continue q ->
                         entries q = entries p).
  { unfold processDetailTailLine. intros q.
    destruct (entry p) as [e|]; [|discriminate].
    destruct (detail p) as [[i j]|]; [|discriminate].
    destruct (nth_error (Changes e) i) as [c|]; [|discriminate].
    destruct (nth_error (Details c) j); [|discriminate].
    intros [= <-]. reflexivity. }
  assert (Hm : forall q, state p <> parseStateInitial ->
                 strings.HasPrefix line maintainerLinePrefix = true ->
                 processMaintainerLine p line = Continue q ->
                 exists e e',
                   entry p = Some e /\ parseMaintainerLine e line = (e', None) /\
                   entries q = (entries p ++ [e'])%list /\
                   state q = parseStateInitial).
  { unfold processMaintainerLine. intros q Hs Hp.
    destruct (entry p) as [e|]; [|discriminate].
    destruct (parseMaintainerLine e line) as [e' [err|]] eqn:E; [discriminate|].
    intros [= <-]. exists e, e'. auto. }
  unfold dispatch. destruct (state p) eqn:Hs.
  - destruct (parseEntryLine line); [|discriminate]. intros [= <-]. now left.
  - destruct (strings.HasPrefix line changePrefix); [left; auto|].
    destruct (strings.HasPrefix line maintainerLinePrefix) eqn:Hp.
    + intros H. right. repeat split; [discriminate|]. apply Hm; [discriminate|auto..].
    + intros [= <-]. now left.
  - destruct (strings.HasPrefix line changePrefix); [left; auto|].
    destruct (strings.HasPrefix line detailHeadPrefix); [left; auto|].
    destruct (strings.HasPrefix line maintainerLinePrefix) eqn:Hp.
    + intros H. right. repeat split; [discriminate|]. apply Hm; [discriminate|auto..].
    + intros [= <-]. now left.
  - destruct (strings.HasPrefix line changePrefix); [left; auto|].
    destruct (strings.HasPrefix line detailHeadPrefix); [left; auto|].
    destruct (strings.HasPrefix line detailTailPrefix); [left; auto|].
    destruct (strings.HasPrefix line maintainerLinePrefix) eqn:Hp.
    + intros H. right. repeat split; [discriminate|]. apply Hm; [discriminate|auto..].
    + intros [= <-]. now left.
Qed.

(** X24: the parser returns entries and no error, or no entry and an
    error, and never both; a line it refuses (a line that is not a header
    where one is awaited, or a trailer line that [parseMaintainerLine]
    refuses), when it ends with a newline, ends the parse with the error
    and no entry, whatever was parsed before; and the entries returned so
    far grow only when a trailer is accepted, by the whole entry in
    progress. *)
Theorem parse_returns_entries_or_error :
  (forall r : Reader,
     (exists es, parseChangelog r = Returns es None) \/
     (exists err, parseChangelog r = Returns [] (Some err))) /\
  (forall (r : Reader) (before line after : string) (p : locals) (err : error),
     unread r = before ++ line ++ nl ++ after ->
     complete before -> strings.no_LF line = true -> line <> "" ->
     loop initial (fst (readLines before)) = Continue p ->
     malformed p line err ->
     parseChangelog r = Returns [] (Some err)) /\
  (forall (p p' : locals) (line : string),
     dispatch p line = Continue p' ->
     entries p' = entries p \/
     (state p <> parseStateInitial /\
      strings.HasPrefix line maintainerLinePrefix = true /\
      exists e e',
        entry p = Some e /\ parseMaintainerLine e line = (e', None) /\
        entries p' = (entries p ++ [e'])%list /\ state p' = parseStateInitial)).
Proof.
  split; [exact parseChangelog_total|].
  split; [exact malformed_line_aborts | exact dispatch_entries].
Qed.

(** C9: in state [parseStateInEntry] a detail-head line changes nothing:
    the turn goes on with the same variables (state, entry in progress,
    entries returned so far) and no error. *)
Theorem detail_head_in_entry_is_ignored (p : locals) (read : string) :
  state p = parseStateInEntry ->
  strings.HasPrefix (strings.TrimRight_LF read) detailHeadPrefix = true ->
  body p read = Continue p.
Proof.
  intros Hs Hp. unfold body.
  destruct (detailHead_excludes _ Hp) as [H1 H2].
  destruct (strings.TrimRight_LF read) as [|c line] eqn:E; [discriminate|].
  simpl. unfold dispatch. now rewrite Hs, H1, H2.
Qed.

End ParserClaims.

(* ------------------------------------------------------------------ *)
(** *** The date of the trailer *)

(** The nodes of the two patterns of the parser. *)
Lemma entryLineRegex_nodes :
  entryLineRegex
  = regexp.program
      [regexp.Bol;
       regexp.Open; regexp.Plus (regexp.Not " "); regexp.Close;
       regexp.Plus (regexp.Byte " ");
       regexp.One (regexp.Byte "(");
       regexp.Open; regexp.Plus (regexp.Not ")"); regexp.Close;
       regexp.One (regexp.Byte ")");
       regexp.Plus (regexp.Byte " ");
       regexp.Open; regexp.Plus (regexp.Not ";"); regexp.Close;
       regexp.One (regexp.Byte ";");
       regexp.Plus (regexp.Byte " ");
       regexp.Open; regexp.Star regexp.Dot; regexp.Close].
Proof. reflexivity. Qed.

Lemma maintainerLineRegex_nodes :
  maintainerLineRegex
  = regexp.program
      [regexp.Bol;
       regexp.One (regexp.Byte " "); regexp.One (regexp.Byte "-");
       regexp.One (regexp.Byte "-"); regexp.One (regexp.Byte " ");
       regexp.Open; regexp.Plus (regexp.Not "<"); regexp.Close;
       regexp.Plus (regexp.Byte " ");
       regexp.One (regexp.Byte "<");
       regexp.Open; regexp.Plus (regexp.Not ">"); regexp.Close;
       regexp.One (regexp.Byte ">");
       regexp.Plus (regexp.Byte " ");
       regexp.Open; regexp.Star regexp.Dot; regexp.Close].
Proof. reflexivity. Qed.

Lemma search_bol (r : list regexp.node) (s : string) : forall i,
  regexp.search (regexp.Bol :: r) (S i) s = None.
Proof.
  induction s as [|c s IH]; intros i; simpl; [reflexivity | apply IH].
Qed.

(** A pattern that starts with [^] matches at the first byte or nowhere. *)
Lemma search_anchored (r : list regexp.node) (s : string) :
  regexp.search (regexp.Bol :: r) 0 s = regexp.exec r s (regexp.begin 0).
Proof.
  destruct s as [|c s]; simpl.
  - now destruct (regexp.exec r "" (regexp.begin 0)).
  - destruct (regexp.exec r (String c s) (regexp.begin 0)); [reflexivity|].
    apply search_bol.
Qed.

(** The lines that [maintainerLineRegex] matches have the prefix of a
    trailer. *)
Lemma maintainerLineRegex_prefix (line : string) (m : list string) :
  FindStringSubmatch maintainerLineRegex line = Some m ->
  strings.HasPrefix line maintainerLinePrefix = true.
Proof.
  rewrite maintainerLineRegex_nodes. cbn [FindStringSubmatch regexp.program].
  rewrite search_anchored.
  destruct line as [|c1 [|c2 [|c3 [|c4 line]]]]; cbn [regexp.exec regexp.accepts];
    try discriminate;
    repeat match goal with
           | |- context [if Ascii.eqb ?c ?x then _ else _] =>
               destruct (Ascii.eqb_spec c x); [subst c | discriminate]
           end;
    try discriminate.
  intros _. reflexivity.
Qed.

Lemma Contains_prefix (needle s : string) :
  strings.Contains (needle ++ s) needle = true.
Proof.
  destruct needle as [|c needle]; simpl.
  - destruct s; reflexivity.
  - now rewrite Ascii.eqb_refl, HasPrefix_app.
Qed.

Lemma Contains_app_r (a s needle : string) :
  strings.Contains s needle = true -> strings.Contains (a ++ s) needle = true.
Proof.
  intros H. induction a as [|c a IH]; simpl; [exact H|].
  rewrite IH. apply orb_true_r.
Qed.

Section DateClaims.

Context {T : TimePkg}.

(** C7: when a line matches the pattern of a trailer and [time.Parse]
    refuses the date that follows the address, [parseMaintainerLine]
    returns the error "parse date: DATE, CAUSE", in which the date stands;
    and [parseChangelog] stops on such a line, in every state where a
    trailer is read, with that error and no entry. *)
Theorem unparseable_date_is_reported (e : Entry) (line : string)
    (m : list string) (cause : error) :
  FindStringSubmatch maintainerLineRegex line = Some m ->
  time_Parse entryDateFormat (regexp.sub m 3) = inr cause ->
  let msg := "parse date: " ++ regexp.sub m 3 ++ ", " ++ Error cause in
  snd (parseMaintainerLine e line) = Some (errorString msg) /\
  strings.Contains msg (regexp.sub m 3) = true /\
  forall p, state p <> parseStateInitial -> entry p = Some e ->
    dispatch p line = Stop (Returns [] (Some (errorString msg))).
Proof.
  intros Hm Hd msg.
  assert (Hp : snd (parseMaintainerLine e line) = Some (errorString msg)).
  { unfold parseMaintainerLine. now rewrite Hm, Hd. }
  split; [exact Hp|]. split.
  - unfold msg. apply (Contains_app_r "parse date: "). apply Contains_prefix.
  - intros p Hs He. apply dispatch_malformed. right.
    split; [exact Hs|]. split; [exact (maintainerLineRegex_prefix line m Hm)|].
    exists e. auto.
Qed.

(** The bytes after the last newline are not parsed. *)
Lemma unterminated_tail_dropped (text tail : string) (f : error) :
  complete text -> strings.no_LF tail = true ->
  parseChangelog {| unread := text ++ tail; failure := f |}
  = parseChangelog {| unread := text; failure := f |}.
Proof.
  intros Hc Ht. unfold parseChangelog. simpl.
  rewrite (readLines_app _ _ (readLines_complete _ Hc)).
  rewrite (readLines_tail tail Ht). simpl. now rewrite app_nil_r.
Qed.

(** Every text is a complete part followed by the bytes after its last
    newline. *)
Lemma last_line_split (s : string) :
  exists text tail,
    s = text ++ tail /\ complete text /\ strings.no_LF tail = true.
Proof.
  induction s as [|c s (text & tail & Hs & Hc & Ht)].
  - exists "", "". repeat split. now left.
  - destruct Hc as [->|[t ->]].
    + simpl in Hs. subst s. destruct (Ascii.eqb_spec c strings.LF) as [->|Hn].
      * exists nl, tail. repeat split; [|exact Ht]. right. now exists "".
      * exists "", (String c tail). repeat split; [now left|].
        simpl. apply Ascii.eqb_neq in Hn. now rewrite Hn, Ht.
    + exists (String c t ++ nl), tail. subst s. repeat split; [|exact Ht].
      right. now exists (String c t).
Qed.

Lemma complete_newlines (n : nat) : complete (newlines n).
Proof.
  induction n as [|n [IH|[t IH]]]; simpl.
  - now left.
  - right. exists "". now rewrite IH.
  - right. exists (nl ++ t). rewrite IH. now rewrite append_assoc.
Qed.

Lemma loop_newlines (n : nat) (p : locals) :
  loop p (fst (readLines (newlines n))) = Continue p.
Proof.
  induction n as [|n IH]; simpl; [reflexivity|].
  destruct (readLines (newlines n)) as [ls rest]. simpl in *. exact IH.
Qed.

(** A first line that is not a header and ends with a newline is
    refused, after any number of empty lines. *)
Lemma malformed_first_line_rejected (n : nat) (line rest : string) (f : error) :
  strings.no_LF line = true -> line <> "" ->
  FindStringSubmatch entryLineRegex line = None ->
  parseChangelog {| unread := newlines n ++ line ++ nl ++ rest; failure := f |}
  = Returns [] (Some (errorString ("invalid format entry line: " ++ line))).
Proof.
  intros Hl Hne Hm.
  apply (malformed_line_aborts _ (newlines n) line rest initial); auto.
  - apply complete_newlines.
  - apply loop_newlines.
  - left. split; [reflexivity|]. unfold parseEntryLine. now rewrite Hm.
Qed.

End DateClaims.

(** C6, on the input that breaks it: the bytes of the line
    [not a valid header] with no newline after them.  [ReadString] returns
    them together with [io.EOF]; the loop is left before the line is
    looked at, and the parser returns no entry and no error. *)
Theorem unterminated_malformed_header_is_skipped :
  forall T : TimePkg,
    @parseChangelog T {| unread := "not a valid header"; failure := io_EOF |}
    = Returns [] None.
Proof.
  intros T. reflexivity.
Qed.

(** C5: the claim fails on a refused line that ends the input with no
    newline after it.  After a complete entry and the header of a second
    one, a trailer with no address is not looked at when the input ends
    right after it: the parser returns the first entry and no error,
    where the claim has the whole parse aborted.  With a newline after it
    the same line ends the parse with its error and no entry. *)
Theorem unterminated_malformed_trailer_is_skipped :
  @parseChangelog GoTimePkg
    {| unread := badDateBefore ++ noEmailLine; failure := io_EOF |}
  = Returns [scenarioEntry] None /\
  @parseChangelog GoTimePkg
    {| unread := badDateBefore ++ noEmailLine ++ nl; failure := io_EOF |}
  = Returns [] (Some noEmailError).
Proof.
  split; reflexivity.
Qed.

(** C10: the bytes after the last newline of the input are dropped: the
    parser returns what it returns without them.  On an input whose last
    line is a trailer with no newline after it, the entry of that trailer
    is not returned; it is when the newline is there. *)
Theorem unterminated_final_line_is_dropped :
  (forall (T : TimePkg) (text tail : string) (f : error),
     complete text -> strings.no_LF tail = true ->
     @parseChangelog T {| unread := text ++ tail; failure := f |}
     = @parseChangelog T {| unread := text; failure := f |}) /\
  parseChangelog {| unread := olderText ++ trailerLine; failure := io_EOF |}
  = Returns [olderEntry] None /\
  parseChangelog {| unread := olderText ++ trailerLine ++ nl; failure := io_EOF |}
  = Returns [olderEntry; bareEntry] None.
Proof.
  split; [|split].
  - intros T text tail f. apply unterminated_tail_dropped.
  - reflexivity.
  - reflexivity.
Qed.

(* ------------------------------------------------------------------ *)
(** *** Matching the lines the renderer writes *)

Lemma eat_record (u : string) : forall i w g c,
  eat u {| regexp.start := i; regexp.whole := w; regexp.group := g;
           regexp.closed := c |}
  = {| regexp.start := i; regexp.whole := w ++ u;
       regexp.group := option_map (fun x => x ++ u) g; regexp.closed := c |}.
Proof.
  induction u as [|x u IH]; intros i w g c; simpl.
  - rewrite append_nil_r. destruct g; simpl; [now rewrite append_nil_r | reflexivity].
  - unfold regexp.consume. simpl. rewrite IH. unfold regexp.snoc.
    rewrite append_assoc. simpl. destruct g; simpl; [|reflexivity].
    rewrite append_assoc. reflexivity.
Qed.

(** A greedy run over [u] that stops before [v] hands [v] to the rest of
    the pattern; when the rest matches, that is the match. *)
Lemma greedy_take (cl : regexp.class) k (u v : string) r : forall a,
  strings.all (regexp.accepts cl) u = true -> stops cl v ->
  k v (eat u a) = Some r ->
  regexp.greedy cl k (u ++ v) a = Some r.
Proof.
  induction u as [|x u IH]; intros a Hu Hv Hk; simpl in *.
  - destruct v as [|c v]; simpl in *; [exact Hk|]. now rewrite Hv.
  - apply andb_true_iff in Hu. destruct Hu as [Hx Hu]. rewrite Hx.
    now rewrite (IH _ Hu Hv Hk).
Qed.

(** When the rest of the pattern fails after the longest run and matches
    once the last byte is given back, that is the match. *)
Lemma greedy_give_back (cl : regexp.class) k (u v : string) (c : ascii) r :
  forall a,
  strings.all (regexp.accepts cl) u = true -> regexp.accepts cl c = true ->
  stops cl v ->
  k v (eat (u ++ String c "") a) = None ->
  k (String c v) (eat u a) = Some r ->
  regexp.greedy cl k (u ++ String c v) a = Some r.
Proof.
  induction u as [|x u IH]; intros a Hu Hc Hv Hn Hk; simpl in *.
  - rewrite Hc.
    assert (Hg : regexp.greedy cl k v (regexp.consume c a) = None).
    { destruct v as [|y v]; simpl in *; [exact Hn|]. now rewrite Hv. }
    now rewrite Hg.
  - apply andb_true_iff in Hu. destruct Hu as [Hx Hu]. rewrite Hx.
    now rewrite (IH _ Hu Hc Hv Hn Hk).
Qed.

Lemma exec_plus_take (cl : regexp.class) rest (u v : string) r a :
  u <> "" -> strings.all (regexp.accepts cl) u = true -> stops cl v ->
  regexp.exec rest v (eat u a) = Some r ->
  regexp.exec (regexp.Plus cl :: rest) (u ++ v) a = Some r.
Proof.
  intros Hne Hu Hv Hk. destruct u as [|x u]; [contradiction|]. simpl in *.
  apply andb_true_iff in Hu. destruct Hu as [Hx Hu]. rewrite Hx.
  now apply greedy_take.
Qed.

Lemma exec_plus_give_back (cl : regexp.class) rest (u v : string) (c : ascii) r a :
  u <> "" -> strings.all (regexp.accepts cl) u = true ->
  regexp.accepts cl c = true -> stops cl v ->
  regexp.exec rest v (eat (u ++ String c "") a) = None ->
  regexp.exec rest (String c v) (eat u a) = Some r ->
  regexp.exec (regexp.Plus cl :: rest) (u ++ String c v) a = Some r.
Proof.
  intros Hne Hu Hc Hv Hn Hk. destruct u as [|x u]; [contradiction|]. simpl in *.
  apply andb_true_iff in Hu. destruct Hu as [Hx Hu]. rewrite Hx.
  now apply greedy_give_back.
Qed.

Lemma exec_star_take (cl : regexp.class) rest (u v : string) r a :
  strings.all (regexp.accepts cl) u = true -> stops cl v ->
  regexp.exec rest v (eat u a) = Some r ->
  regexp.exec (regexp.Star cl :: rest) (u ++ v) a = Some r.
Proof.
  intros Hu Hv Hk. simpl. now apply greedy_take.
Qed.

Lemma plain_all (stop : ascii) (s : string) :
  plain stop s = true ->
  strings.all (regexp.accepts (regexp.Not stop)) s = true /\
  strings.no_LF s = true.
Proof.
  unfold plain. induction s as [|c s IH]; simpl; [auto|].
  intros H. apply andb_true_iff in H. destruct H as [Hc Hs].
  apply andb_true_iff in Hc. destruct Hc as [H1 H2].
  destruct (IH Hs) as [IH1 IH2]. now rewrite H1, H2, IH1, IH2.
Qed.

Lemma no_LF_dot (s : string) :
  strings.no_LF s = true -> strings.all (regexp.accepts regexp.Dot) s = true.
Proof.
  induction s as [|c s IH]; simpl; [reflexivity|].
  intros H. apply andb_true_iff in H. destruct H as [Hc Hs].
  now rewrite Hc, (IH Hs).
Qed.

Lemma no_space_stops (s : string) :
  strings.HasPrefix s " " = false -> stops (regexp.Byte " ") s.
Proof.
  destruct s as [|c s]; simpl; [auto|]. now rewrite andb_true_r.
Qed.

Lemma exec_star_all (cl : regexp.class) rest (u : string) r a :
  strings.all (regexp.accepts cl) u = true ->
  regexp.exec rest "" (eat u a) = Some r ->
  regexp.exec (regexp.Star cl :: rest) u a = Some r.
Proof.
  intros Hu Hk. rewrite <- (append_nil_r u). now apply exec_star_take.
Qed.

Lemma exec_open_take rest (s : string) r a :
  regexp.exec rest s (regexp.open_group a) = Some r ->
  regexp.exec (regexp.Open :: rest) s a = Some r.
Proof. intros H. exact H. Qed.

Lemma exec_close_take rest (s : string) r a :
  regexp.exec rest s (regexp.close_group a) = Some r ->
  regexp.exec (regexp.Close :: rest) s a = Some r.
Proof. intros H. exact H. Qed.

Lemma exec_byte_take (c : ascii) rest (v : string) r a :
  regexp.exec rest v (eat (String c "") a) = Some r ->
  regexp.exec (regexp.One (regexp.Byte c) :: rest) (String c v) a = Some r.
Proof. intros H. simpl. now rewrite Ascii.eqb_refl. Qed.

Lemma stops_app (cl : regexp.class) (u v : string) :
  u <> "" -> stops cl u -> stops cl (u ++ v).
Proof. destruct u; [contradiction | auto]. Qed.

Lemma whole_eat (u : string) : forall a,
  regexp.whole (eat u a) = regexp.whole a ++ u.
Proof.
  induction u as [|c u IH]; intros a; simpl; [now rewrite append_nil_r|].
  rewrite IH. simpl. unfold regexp.snoc. now rewrite append_assoc.
Qed.

Lemma closed_eat (u : string) : forall a,
  regexp.closed (eat u a) = regexp.closed a.
Proof.
  induction u as [|c u IH]; intros a; simpl; [reflexivity | now rewrite IH].
Qed.

Lemma group_eat (u : string) : forall a,
  regexp.group (eat u a) = option_map (fun g => g ++ u) (regexp.group a).
Proof.
  induction u as [|c u IH]; intros a; simpl.
  - destruct (regexp.group a); simpl; [now rewrite append_nil_r | reflexivity].
  - rewrite IH. simpl. destruct (regexp.group a); simpl; [|reflexivity].
    unfold regexp.snoc. now rewrite append_assoc.
Qed.

Lemma whole_open a : regexp.whole (regexp.open_group a) = regexp.whole a.
Proof. reflexivity. Qed.

Lemma whole_close a : regexp.whole (regexp.close_group a) = regexp.whole a.
Proof. reflexivity. Qed.

Lemma closed_open a : regexp.closed (regexp.open_group a) = regexp.closed a.
Proof. reflexivity. Qed.

Lemma group_open a : regexp.group (regexp.open_group a) = Some "".
Proof. reflexivity. Qed.

Lemma closed_close a :
  regexp.closed (regexp.close_group a)
  = match regexp.group a with
    | Some g => g :: regexp.closed a
    | None => regexp.closed a
    end.
Proof. reflexivity. Qed.

Lemma group_close a : regexp.group (regexp.close_group a) = None.
Proof. reflexivity. Qed.

Create Rewrite HintDb attempt.

#[local] Hint Rewrite whole_eat closed_eat group_eat whole_open whole_close
  closed_open group_open closed_close group_close : attempt.

Section RenderedLines.

Context {T : TimePkg}.

(** [entryLineRegex] reads back the four fields of a header line. *)
Lemma entryLineRegex_header (pk vs ds md : string) :
  pk <> "" -> plain " " pk = true ->
  vs <> "" -> plain ")" vs = true ->
  ds <> "" -> plain ";" ds = true -> strings.HasPrefix ds " " = false ->
  strings.no_LF md = true -> strings.HasPrefix md " " = false ->
  let line := pk ++ " (" ++ vs ++ ") " ++ ds ++ "; " ++ md in
  FindStringSubmatch entryLineRegex line = Some [line; pk; vs; ds; md].
Proof.
  intros Hp1 Hp2 Hv1 Hv2 Hd1 Hd2 Hd3 Hm1 Hm2 line.
  destruct (plain_all _ _ Hp2) as [Hp _].
  destruct (plain_all _ _ Hv2) as [Hv _].
  destruct (plain_all _ _ Hd2) as [Hd _].
  pose proof (no_LF_dot _ Hm1) as Hm.
  rewrite entryLineRegex_nodes. cbn [FindStringSubmatch regexp.program].
  rewrite search_anchored.
  assert (H : exists a,
             regexp.exec
               [regexp.Open; regexp.Plus (regexp.Not " "); regexp.Close;
                regexp.Plus (regexp.Byte " "); regexp.One (regexp.Byte "(");
                regexp.Open; regexp.Plus (regexp.Not ")"); regexp.Close;
                regexp.One (regexp.Byte ")"); regexp.Plus (regexp.Byte " ");
                regexp.Open; regexp.Plus (regexp.Not ";"); regexp.Close;
                regexp.One (regexp.Byte ";"); regexp.Plus (regexp.Byte " ");
                regexp.Open; regexp.Star regexp.Dot; regexp.Close]
               line (regexp.begin 0) = Some a /\
             regexp.whole a = line /\ regexp.closed a = [md; ds; vs; pk]).
  { eexists. split.
    - unfold line.
      apply exec_open_take.
      apply exec_plus_take; [exact Hp1 | exact Hp | reflexivity |].
      apply exec_close_take.
      apply (exec_plus_take _ _ " " ("(" ++ vs ++ ") " ++ ds ++ "; " ++ md));
        [discriminate | reflexivity | reflexivity |].
      apply (exec_byte_take "(").
      apply exec_open_take.
      apply exec_plus_take; [exact Hv1 | exact Hv | reflexivity |].
      apply exec_close_take.
      apply (exec_byte_take ")").
      apply (exec_plus_take _ _ " " (ds ++ "; " ++ md));
        [discriminate | reflexivity | |].
      { apply stops_app; [exact Hd1 | now apply no_space_stops]. }
      apply exec_open_take.
      apply exec_plus_take; [exact Hd1 | exact Hd | reflexivity |].
      apply exec_close_take.
      apply (exec_byte_take ";").
      apply (exec_plus_take _ _ " " md);
        [discriminate | reflexivity | now apply no_space_stops |].
      apply exec_open_take.
      apply exec_star_all; [exact Hm|].
      apply exec_close_take.
      reflexivity.
    - autorewrite with attempt. cbn [option_map regexp.begin regexp.whole
        regexp.closed regexp.group].
      split.
      + unfold line. rewrite !append_assoc. reflexivity.
      + reflexivity. }
  destruct H as (a & -> & Hw & Hc). now rewrite Hw, Hc.
Qed.

(** [maintainerLineRegex] reads back the name, the address and the date
    of a trailer line. *)
Lemma maintainerLineRegex_trailer (nm em f : string) :
  nm <> "" -> plain "<" nm = true ->
  em <> "" -> plain ">" em = true ->
  strings.no_LF f = true -> strings.HasPrefix f " " = false ->
  let line := maintainerLinePrefix ++ nm ++ " <" ++ em ++ "> " ++ f in
  FindStringSubmatch maintainerLineRegex line = Some [line; nm; em; f].
Proof.
  intros Hn1 Hn2 He1 He2 Hf1 Hf2 line.
  destruct (plain_all _ _ Hn2) as [Hn _].
  destruct (plain_all _ _ He2) as [He _].
  pose proof (no_LF_dot _ Hf1) as Hf.
  rewrite maintainerLineRegex_nodes. cbn [FindStringSubmatch regexp.program].
  rewrite search_anchored.
  match goal with
  | |- match regexp.exec ?r _ _ with _ => _ end = _ =>
      assert (H : exists a,
                 regexp.exec r line (regexp.begin 0) = Some a /\
                 regexp.whole a = line /\ regexp.closed a = [f; em; nm])
  end.
  { eexists. split.
    - unfold line, maintainerLinePrefix.
      apply (exec_byte_take " "). apply (exec_byte_take "-").
      apply (exec_byte_take "-"). apply (exec_byte_take " ").
      apply exec_open_take.
      apply (exec_plus_give_back _ _ nm ("<" ++ em ++ "> " ++ f) " ");
        [exact Hn1 | exact Hn | reflexivity | reflexivity | reflexivity |].
      apply exec_close_take.
      apply (exec_plus_take _ _ " " ("<" ++ em ++ "> " ++ f));
        [discriminate | reflexivity | reflexivity |].
      apply (exec_byte_take "<").
      apply exec_open_take.
      apply exec_plus_take; [exact He1 | exact He | reflexivity |].
      apply exec_close_take.
      apply (exec_byte_take ">").
      apply (exec_plus_take _ _ " " f);
        [discriminate | reflexivity | now apply no_space_stops |].
      apply exec_open_take.
      apply exec_star_all; [exact Hf|].
      apply exec_close_take.
      reflexivity.
    - autorewrite with attempt. cbn [option_map regexp.begin regexp.whole
        regexp.closed regexp.group eat regexp.consume regexp.snoc].
      split.
      + unfold line, maintainerLinePrefix. rewrite !append_assoc. reflexivity.
      + reflexivity. }
  destruct H as (a & -> & Hw & Hc). now rewrite Hw, Hc.
Qed.

(** The header the renderer writes for a canonical entry is parsed to the
    entry's four header fields. *)
Lemma parseEntryLine_headerLine (e : Entry) :
  canonical e ->
  parseEntryLine (headerLine e)
  = inl {| Package := Package e; Version := Version e;
           Distributions := Distributions e; Metadata := Metadata e;
           MaintainerName := ""; EmailAddress := "";
           Date := time_zero; Changes := [] |}.
Proof.
  intros ((Hp1 & Hp2) & (Hv1 & Hv2) & (Hd1 & Hd2 & Hd3) & (Hm1 & Hm2) & _).
  unfold parseEntryLine, headerLine.
  now rewrite (entryLineRegex_header _ _ _ _ Hp1 Hp2 Hv1 Hv2 Hd1 Hd2 Hd3 Hm1 Hm2).
Qed.

(** The trailer the renderer writes for a canonical entry is accepted, and
    sets the name, the address and a date written the same. *)
Lemma parseMaintainerLine_trailerOf (e0 e : Entry) :
  canonical e ->
  exists d,
    parseMaintainerLine e0 (trailerOf e)
    = (setDate (setMaintainer e0 (MaintainerName e) (EmailAddress e)) d, None) /\
    time_Format d entryDateFormat = time_Format (Date e) entryDateFormat.
Proof.
  intros (_ & _ & _ & _ & (Hn1 & Hn2) & (He1 & He2) & (Hf1 & Hf2 & d & Hd & Hfd) & _).
  exists d. split; [|exact Hfd].
  unfold parseMaintainerLine, trailerOf.
  rewrite (maintainerLineRegex_trailer _ _ _ Hn1 Hn2 He1 He2 Hf1 Hf2).
  cbn [regexp.sub nth]. now rewrite Hd.
Qed.

End RenderedLines.

(* ------------------------------------------------------------------ *)
(** *** Parsing what the renderer writes *)

Lemma concat_cons (a : string) (l : list string) :
  String.concat "" (a :: l) = a ++ String.concat "" l.
Proof.
  destruct l; simpl; [now rewrite append_nil_r | reflexivity].
Qed.

Lemma lines_cons (l : string) (ls : list string) :
  lines (l :: ls) = l ++ nl ++ lines ls.
Proof.
  unfold lines. simpl map. rewrite concat_cons. now rewrite append_assoc.
Qed.

Lemma lines_app (a b : list string) : lines (a ++ b) = lines a ++ lines b.
Proof.
  induction a as [|l a IH]; [reflexivity|].
  simpl app. rewrite !lines_cons, IH. now rewrite !append_assoc.
Qed.

Lemma readLines_lines (ls : list string) :
  Forall (fun l => strings.no_LF l = true) ls ->
  readLines (lines ls) = (map (fun l => l ++ nl) ls, "").
Proof.
  induction 1 as [|l ls Hl _ IH]; [reflexivity|].
  rewrite lines_cons, (readLines_line l _ Hl), IH. reflexivity.
Qed.

Section RoundTrip.

Context {T : TimePkg}.

Lemma loop_feed (ls : list string) : forall p,
  Forall (fun l => strings.no_LF l = true) ls ->
  loop p (map (fun l => l ++ nl) ls) = feed p ls.
Proof.
  induction ls as [|l ls IH]; intros p H; [reflexivity|].
  inversion H as [|? ? Hl Hls]; subst. simpl. unfold body.
  rewrite (TrimRight_line l Hl).
  destruct (if Nat.eqb (String.length l) 0 then Continue p else dispatch p l);
    [now apply IH | reflexivity].
Qed.

Lemma feed_app (ls1 ls2 : list string) : forall p,
  feed p (ls1 ++ ls2)
  = match feed p ls1 with
    | Continue p' => feed p' ls2
    | Stop r => Stop r
    end.
Proof.
  induction ls1 as [|l ls1 IH]; intros p; simpl; [reflexivity|].
  destruct (if Nat.eqb (String.length l) 0 then Continue p else dispatch p l);
    [apply IH | reflexivity].
Qed.

Lemma feed_cons (p : locals) (l : string) (ls : list string) :
  l <> "" ->
  feed p (l :: ls)
  = match dispatch p l with
    | Continue p' => feed p' ls
    | Stop r => Stop r
    end.
Proof.
  intros H. destruct l as [|c l]; [contradiction | reflexivity].
Qed.

Lemma building_state (p : locals) (done : list Entry) (e : Entry) :
  building p done e ->
  state p = parseStateInEntry \/ state p = parseStateInChange \/
  state p = parseStateInDetail.
Proof.
  intros (_ & Hs & _). destruct (state p); auto. contradiction.
Qed.

(** The valid variables in state [parseStateInChange] or
    [parseStateInDetail] point to the last change. *)
Lemma building_change (p : locals) (done : list Entry) (e : Entry)
    (cs : list Change) (c : Change) :
  building p done e -> Changes e = (cs ++ [c])%list ->
  state p = parseStateInChange \/ state p = parseStateInDetail ->
  change p = Some (List.length cs).
Proof.
  intros (Hv & _ & _ & He) Hcs [Hs|Hs]; unfold valid in Hv; rewrite Hs in Hv.
  - destruct Hv as (e1 & cs1 & c1 & He1 & Hcs1 & Hc).
    rewrite He in He1. injection He1 as <-. rewrite Hcs in Hcs1.
    apply app_inj_tail in Hcs1. destruct Hcs1 as [<- _]. exact Hc.
  - destruct Hv as (e1 & cs1 & c1 & ds1 & d1 & He1 & Hcs1 & Hc & _).
    rewrite He in He1. injection He1 as <-. rewrite Hcs in Hcs1.
    apply app_inj_tail in Hcs1. destruct Hcs1 as [<- _]. exact Hc.
Qed.

Lemma building_detail (p : locals) (done : list Entry) (e : Entry)
    (cs : list Change) (c : Change) (ds : list Detail) (d : Detail) :
  building p done e -> Changes e = (cs ++ [c])%list ->
  Details c = (ds ++ [d])%list -> state p = parseStateInDetail ->
  detail p = Some (List.length cs, List.length ds).
Proof.
  intros (Hv & _ & _ & He) Hcs Hds Hs. unfold valid in Hv. rewrite Hs in Hv.
  destruct Hv as (e1 & cs1 & c1 & ds1 & d1 & He1 & Hcs1 & _ & Hds1 & Hd).
  rewrite He in He1. injection He1 as <-. rewrite Hcs in Hcs1.
  apply app_inj_tail in Hcs1. destruct Hcs1 as [<- <-].
  rewrite Hds in Hds1. apply app_inj_tail in Hds1. destruct Hds1 as [<- _].
  exact Hd.
Qed.

Lemma dispatch_changeLine (p : locals) (line : string) :
  state p <> parseStateInitial ->
  strings.HasPrefix line changePrefix = true ->
  dispatch p line = processChangeLine p line.
Proof.
  intros Hs Hp. unfold dispatch. rewrite Hp.
  destruct (state p); [contradiction | reflexivity..].
Qed.

Lemma dispatch_detailHeadLine (p : locals) (line : string) :
  state p = parseStateInChange \/ state p = parseStateInDetail ->
  strings.HasPrefix line changePrefix = false ->
  strings.HasPrefix line detailHeadPrefix = true ->
  dispatch p line = processDetailHeadLine p line.
Proof.
  intros Hs H1 H2. unfold dispatch. rewrite H1, H2.
  destruct Hs as [Hs|Hs]; rewrite Hs; reflexivity.
Qed.

Lemma dispatch_detailTailLine (p : locals) (line : string) :
  state p = parseStateInDetail ->
  strings.HasPrefix line changePrefix = false ->
  strings.HasPrefix line detailHeadPrefix = false ->
  strings.HasPrefix line detailTailPrefix = true ->
  dispatch p line = processDetailTailLine p line.
Proof.
  intros Hs H1 H2 H3. unfold dispatch. now rewrite H1, H2, H3, Hs.
Qed.

Lemma dispatch_change (p : locals) (done : list Entry) (e : Entry) (s : string) :
  building p done e ->
  exists p',
    dispatch p (changePrefix ++ s) = Continue p' /\
    building p' done
      (setChanges e (Changes e ++ [{| Summary := s; Details := [] |}])%list) /\
    state p' = parseStateInChange.
Proof.
  intros (Hv & Hn & Hd & He).
  rewrite (dispatch_changeLine p _ Hn (HasPrefix_app changePrefix s)).
  rewrite (processChangeLine_spec p e _ He), from_app.
  eexists. split; [reflexivity|]. split; [|reflexivity].
  repeat split; try (simpl; congruence).
  unfold valid. simpl. do 3 eexists. repeat split; reflexivity.
Qed.

Lemma dispatch_detailHead (p : locals) (done : list Entry) (e : Entry)
    (cs : list Change) (c : Change) (l : string) :
  building p done e -> Changes e = (cs ++ [c])%list ->
  state p = parseStateInChange \/ state p = parseStateInDetail ->
  exists p',
    dispatch p (detailHeadPrefix ++ l) = Continue p' /\
    building p' done
      (setChanges e
         (cs ++ [setDetails c (Details c ++ [{| Lines := [l] |}])])%list) /\
    state p' = parseStateInDetail.
Proof.
  intros H Hcs Hs. pose proof (building_change p done e cs c H Hcs Hs) as Hc.
  destruct H as (Hv & Hn & Hd & He).
  rewrite (dispatch_detailHeadLine p (detailHeadPrefix ++ l) Hs eq_refl
             (HasPrefix_app detailHeadPrefix l)).
  rewrite (processDetailHeadLine_spec p e cs c _ He Hcs Hc), from_app.
  eexists. split; [reflexivity|]. split; [|reflexivity].
  repeat split; try (simpl; congruence).
  unfold valid. simpl. do 5 eexists. repeat split; reflexivity.
Qed.

Lemma dispatch_detailTail (p : locals) (done : list Entry) (e : Entry)
    (cs : list Change) (c : Change) (ds : list Detail) (d : Detail) (l : string) :
  building p done e -> Changes e = (cs ++ [c])%list ->
  Details c = (ds ++ [d])%list -> state p = parseStateInDetail ->
  exists p',
    dispatch p (detailTailPrefix ++ l) = Continue p' /\
    building p' done
      (setChanges e
         (cs ++ [setDetails c
                   (ds ++ [setLines d (Lines d ++ [l])])])%list) /\
    state p' = parseStateInDetail.
Proof.
  intros H Hcs Hds Hs.
  pose proof (building_change p done e cs c H Hcs (or_intror Hs)) as Hc.
  pose proof (building_detail p done e cs c ds d H Hcs Hds Hs) as Hdt.
  destruct H as (Hv & Hn & Hd & He).
  rewrite (dispatch_detailTailLine p (detailTailPrefix ++ l) Hs eq_refl eq_refl
             (HasPrefix_app detailTailPrefix l)).
  rewrite (processDetailTailLine_spec p e cs c ds d _ He Hcs Hds Hdt), from_app.
  eexists. split; [reflexivity|]. split; [|exact Hs].
  repeat split; try (simpl; congruence).
  unfold valid. simpl. rewrite Hs. do 5 eexists.
  split; [reflexivity|]. split; [reflexivity|]. split; [exact Hc|].
  split; [reflexivity | exact Hdt].
Qed.

End RoundTrip.

Section RoundTripLoops.

Context {T : TimePkg}.

Lemma setLines_same (d : Detail) : setLines d (Lines d) = d.
Proof. now destruct d. Qed.

Lemma setDetails_same (c : Change) : setDetails c (Details c) = c.
Proof. now destruct c. Qed.

(** The continuation lines of a detail. *)
Lemma feed_tails (done : list Entry) (ls : list string) :
  forall p e cs c ds d,
  building p done e -> Changes e = (cs ++ [c])%list ->
  Details c = (ds ++ [d])%list -> state p = parseStateInDetail ->
  exists p',
    feed p (map (fun l => detailTailPrefix ++ l) ls) = Continue p' /\
    building p' done
      (setChanges e
         (cs ++ [setDetails c (ds ++ [setLines d (Lines d ++ ls)])])%list) /\
    state p' = parseStateInDetail.
Proof.
  induction ls as [|l ls IH]; intros p e cs c ds d H Hcs Hds Hs.
  - exists p. split; [reflexivity|]. split; [|exact Hs].
    rewrite app_nil_r, setLines_same, <- Hds, setDetails_same, <- Hcs,
      setChanges_same. exact H.
  - destruct (dispatch_detailTail p done e cs c ds d l H Hcs Hds Hs)
      as (p1 & Hd1 & Hb1 & Hs1).
    cbn [map]. rewrite feed_cons by nonempty. rewrite Hd1.
    destruct (IH p1 _ cs _ ds _ Hb1 eq_refl eq_refl Hs1) as (p2 & Hf & Hb2 & Hs2).
    exists p2. split; [exact Hf|]. split; [|exact Hs2].
    simpl in Hb2. rewrite <- app_assoc in Hb2. exact Hb2.
Qed.

(** The lines of one detail. *)
Lemma feed_detail (done : list Entry) (d : Detail) p e cs c :
  canonicalDetail d ->
  building p done e -> Changes e = (cs ++ [c])%list ->
  state p = parseStateInChange \/ state p = parseStateInDetail ->
  exists p',
    feed p (detailLines d) = Continue p' /\
    building p' done
      (setChanges e (cs ++ [setDetails c (Details c ++ [d])])%list) /\
    state p' = parseStateInDetail.
Proof.
  intros [Hne _] H Hcs Hs. unfold detailLines.
  destruct d as [[|l ls]]; [contradiction|]. simpl Lines.
  destruct (dispatch_detailHead p done e cs c l H Hcs Hs) as (p1 & Hd1 & Hb1 & Hs1).
  rewrite feed_cons by nonempty. rewrite Hd1.
  destruct (feed_tails done ls p1 _ cs _ (Details c) _ Hb1 eq_refl eq_refl Hs1)
    as (p2 & Hf & Hb2 & Hs2).
  exists p2. split; [exact Hf|]. split; [|exact Hs2]. exact Hb2.
Qed.

(** The lines of the details of a change. *)
Lemma feed_details (done : list Entry) (ds : list Detail) :
  forall p e cs c,
  Forall canonicalDetail ds ->
  building p done e -> Changes e = (cs ++ [c])%list ->
  state p = parseStateInChange \/ state p = parseStateInDetail ->
  exists p',
    feed p (flat_map detailLines ds) = Continue p' /\
    building p' done
      (setChanges e (cs ++ [setDetails c (Details c ++ ds)])%list) /\
    (state p' = parseStateInChange \/ state p' = parseStateInDetail).
Proof.
  induction ds as [|d ds IH]; intros p e cs c Hds H Hcs Hs.
  - exists p. split; [reflexivity|]. split; [|exact Hs].
    rewrite app_nil_r, setDetails_same, <- Hcs, setChanges_same. exact H.
  - inversion Hds as [|? ? Hd Hds']; subst.
    destruct (feed_detail done d p e cs c Hd H Hcs Hs) as (p1 & Hf1 & Hb1 & Hs1).
    cbn [flat_map]. rewrite feed_app, Hf1.
    destruct (IH p1 _ cs _ Hds' Hb1 eq_refl (or_intror Hs1))
      as (p2 & Hf2 & Hb2 & Hs2).
    exists p2. split; [exact Hf2|]. split; [|exact Hs2].
    simpl in Hb2. rewrite <- app_assoc in Hb2. exact Hb2.
Qed.

(** The lines of one change. *)
Lemma feed_change (done : list Entry) (c : Change) p e :
  canonicalChange c -> building p done e ->
  exists p',
    feed p (changeLines c) = Continue p' /\
    building p' done (setChanges e (Changes e ++ [c])%list).
Proof.
  intros [_ Hds] H. unfold changeLines.
  destruct (dispatch_change p done e (Summary c) H) as (p1 & Hd1 & Hb1 & Hs1).
  rewrite feed_cons by nonempty. rewrite Hd1.
  destruct (feed_details done (Details c) p1 _ (Changes e) _ Hds Hb1 eq_refl
              (or_introl Hs1)) as (p2 & Hf2 & Hb2 & _).
  exists p2. split; [exact Hf2|].
  simpl in Hb2. destruct c as [sm ds]. exact Hb2.
Qed.

(** The lines of the changes of an entry. *)
Lemma feed_changes (done : list Entry) (cs : list Change) :
  forall p e,
  Forall canonicalChange cs -> building p done e ->
  exists p',
    feed p (flat_map changeLines cs) = Continue p' /\
    building p' done (setChanges e (Changes e ++ cs)%list).
Proof.
  induction cs as [|c cs IH]; intros p e Hcs H.
  - exists p. split; [reflexivity|].
    rewrite app_nil_r, setChanges_same. exact H.
  - inversion Hcs as [|? ? Hc Hcs']; subst.
    destruct (feed_change done c p e Hc H) as (p1 & Hf1 & Hb1).
    cbn [flat_map]. rewrite feed_app, Hf1.
    destruct (IH p1 _ Hcs' Hb1) as (p2 & Hf2 & Hb2).
    exists p2. split; [exact Hf2|].
    simpl in Hb2. rewrite <- app_assoc in Hb2. exact Hb2.
Qed.

Lemma headerLine_nonempty (e : Entry) :
  canonical e -> Nat.eqb (String.length (headerLine e)) 0 = false.
Proof.
  intros ((Hp & _) & _). unfold headerLine.
  destruct (Package e); [contradiction | reflexivity].
Qed.

(** The lines of one entry, from the state where a header is awaited. *)
Lemma feed_entry (e : Entry) (p : locals) :
  canonical e -> state p = parseStateInitial ->
  exists p' e',
    feed p (entryLines e) = Continue p' /\
    state p' = parseStateInitial /\
    entries p' = (entries p ++ [e'])%list /\
    sameButDate e e'.
Proof.
  intros Hc Hs. unfold entryLines.
  simpl feed. rewrite (headerLine_nonempty e Hc).
  unfold dispatch at 1. rewrite Hs, (parseEntryLine_headerLine e Hc).
  match goal with
  | |- context [feed ?q _] =>
      assert (Hb : building q (entries p)
                {| Package := Package e; Version := Version e;
                   Distributions := Distributions e; Metadata := Metadata e;
                   MaintainerName := ""; EmailAddress := "";
                   Date := time_zero; Changes := [] |})
  end.
  { repeat split; try (simpl; congruence). unfold valid. simpl. eauto. }
  rewrite feed_app.
  destruct Hc as (H1 & H2 & H3 & H4 & H5 & H6 & H7 & Hcs).
  destruct (feed_changes (entries p) (Changes e) _ _ Hcs Hb) as (p1 & Hf1 & Hb1).
  rewrite Hf1. simpl app in Hb1.
  destruct (parseMaintainerLine_trailerOf
              (setChanges
                 {| Package := Package e; Version := Version e;
                    Distributions := Distributions e; Metadata := Metadata e;
                    MaintainerName := ""; EmailAddress := "";
                    Date := time_zero; Changes := [] |} (Changes e))
              e (conj H1 (conj H2 (conj H3 (conj H4 (conj H5 (conj H6 (conj H7 Hcs))))))))
    as (d & Hm & Hfd).
  destruct Hb1 as (Hv1 & Hn1 & Hd1 & He1).
  rewrite feed_cons by (unfold trailerOf; nonempty).
  rewrite (dispatch_trailer p1 (trailerOf e) Hn1
             (HasPrefix_app maintainerLinePrefix _)).
  unfold processMaintainerLine. rewrite He1, Hm.
  eexists. exists (setDate e d). split; [reflexivity|].
  split; [reflexivity|]. split.
  - simpl. rewrite Hd1. reflexivity.
  - split; [reflexivity | exact Hfd].
Qed.

End RoundTripLoops.

Section RoundTripText.

Context {T : TimePkg}.

(** The entries of the document, one after the other. *)
Lemma feed_doc (es : list Entry) : forall i p,
  Forall canonical es -> state p = parseStateInitial ->
  exists p' es',
    feed p (docLines i es) = Continue p' /\
    state p' = parseStateInitial /\
    entries p' = (entries p ++ es')%list /\
    Forall2 sameButDate es es'.
Proof.
  induction es as [|e es IH]; intros i p Hes Hs.
  - exists p, []. rewrite app_nil_r. repeat split; auto.
  - inversion Hes as [|? ? He Hes']; subst.
    cbn [docLines]. rewrite feed_app.
    assert (Hb : feed p (if Nat.ltb 0 i then [""] else []) = Continue p)
      by (destruct (Nat.ltb 0 i); reflexivity).
    rewrite Hb, feed_app.
    destruct (feed_entry e p He Hs) as (p1 & e' & Hf1 & Hs1 & He1 & Hd1).
    rewrite Hf1.
    destruct (IH (S i) p1 Hes' Hs1) as (p2 & es' & Hf2 & Hs2 & He2 & Hd2).
    exists p2, (e' :: es'). split; [exact Hf2|]. split; [exact Hs2|].
    split; [|now constructor].
    rewrite He2, He1, <- app_assoc. reflexivity.
Qed.

Lemma no_LF_plain (stop : ascii) (s : string) :
  plain stop s = true -> strings.no_LF s = true.
Proof. intros H. now destruct (plain_all stop s H). Qed.

Lemma no_LF_entryLines (e : Entry) :
  canonical e -> Forall (fun l => strings.no_LF l = true) (entryLines e).
Proof.
  intros ((_ & Hp) & (_ & Hv) & (_ & Hd & _) & (Hm & _) & (_ & Hn) & (_ & Hm')
          & (Hf & _) & Hcs).
  unfold entryLines. constructor.
  - unfold headerLine. rewrite !no_LF_app.
    now rewrite (no_LF_plain _ _ Hp), (no_LF_plain _ _ Hv), (no_LF_plain _ _ Hd), Hm.
  - apply Forall_app. split.
    + apply Forall_flat_map. eapply Forall_impl; [|exact Hcs].
      intros c [Hs Hds]. unfold changeLines. constructor.
      * rewrite no_LF_app. now rewrite Hs.
      * apply Forall_flat_map. eapply Forall_impl; [|exact Hds].
        intros d [_ Hls]. unfold detailLines.
        destruct (Lines d) as [|l ls]; [constructor|].
        inversion Hls as [|? ? Hl Hls']; subst. constructor.
        -- rewrite no_LF_app. now rewrite Hl.
        -- apply Forall_map. eapply Forall_impl; [|exact Hls'].
           intros l' Hl'. rewrite no_LF_app. now rewrite Hl'.
    + constructor; [|constructor]. unfold trailerOf. rewrite !no_LF_app.
      now rewrite (no_LF_plain _ _ Hn), (no_LF_plain _ _ Hm'), Hf.
Qed.

Lemma no_LF_docLines (es : list Entry) : forall i,
  Forall canonical es -> Forall (fun l => strings.no_LF l = true) (docLines i es).
Proof.
  induction es as [|e es IH]; intros i Hes; [constructor|].
  inversion Hes as [|? ? He Hes']; subst. cbn [docLines].
  apply Forall_app. split.
  - destruct (Nat.ltb 0 i); repeat constructor.
  - apply Forall_app. split; [now apply no_LF_entryLines | now apply IH].
Qed.

(** What [Entry.String] and [run] write, line by line. *)
Lemma detailText_tails (ls : list string) : forall i,
  detailText (S i) ls = lines (map (fun l => detailTailPrefix ++ l) ls).
Proof.
  induction ls as [|l ls IH]; intros i; [reflexivity|].
  cbn [detailText map]. rewrite lines_cons, IH.
  replace (Nat.ltb 0 (S i)) with true by reflexivity.
  now rewrite !append_assoc.
Qed.

Lemma detailText_detailLines (d : Detail) :
  detailText 0 (Lines d) = lines (detailLines d).
Proof.
  unfold detailLines. destruct (Lines d) as [|l ls]; [reflexivity|].
  cbn [detailText]. rewrite lines_cons, detailText_tails.
  replace (Nat.ltb 0 0) with false by reflexivity.
  now rewrite !append_assoc.
Qed.

Lemma lines_flat_map {A : Type} (f : A -> list string) (g : A -> string)
    (l : list A) :
  (forall x, lines (f x) = g x) ->
  lines (flat_map f l) = String.concat "" (map g l).
Proof.
  intros H. induction l as [|x l IH]; [reflexivity|].
  cbn [flat_map map]. now rewrite lines_app, concat_cons, H, IH.
Qed.

Lemma changeText_changeLines (c : Change) :
  lines (changeLines c) = changeText c.
Proof.
  unfold changeLines, changeText. rewrite lines_cons.
  rewrite (lines_flat_map detailLines (fun d => detailText 0 (Lines d)))
    by (intros d; symmetry; apply detailText_detailLines).
  now rewrite !append_assoc.
Qed.

Lemma Entry_String_entryLines (e : Entry) :
  lines (entryLines e) = Entry_String e ++ nl.
Proof.
  unfold entryLines, Entry_String.
  rewrite lines_cons, lines_app, (lines_flat_map changeLines changeText)
    by apply changeText_changeLines.
  rewrite lines_cons. unfold headerLine, trailerOf, lines. simpl map.
  cbn [String.concat]. rewrite !append_assoc. reflexivity.
Qed.

Lemma printEntries_docLines (es : list Entry) : forall i,
  printEntries i es = lines (docLines i es).
Proof.
  induction es as [|e es IH]; intros i; [reflexivity|].
  cbn [printEntries docLines]. rewrite !lines_app, Entry_String_entryLines, IH.
  destruct (Nat.ltb 0 i); simpl; now rewrite !append_assoc.
Qed.

Lemma Entry_String_sameButDate (e e' : Entry) :
  sameButDate e e' -> Entry_String e' = Entry_String e.
Proof.
  intros [He Hf]. unfold Entry_String. rewrite Hf. rewrite He. reflexivity.
Qed.

Lemma printEntries_sameButDate (es es' : list Entry) :
  Forall2 sameButDate es es' -> forall i, printEntries i es' = printEntries i es.
Proof.
  induction 1 as [|e e' es es' He _ IH]; intros i; [reflexivity|].
  cbn [printEntries]. now rewrite (Entry_String_sameButDate e e' He), IH.
Qed.

(** C1, as amended: when the text is what the renderer writes for entries
    whose fields fit the patterns of their lines ([Entry.String] of each
    entry followed by a newline, an empty line between two entries), the
    parser accepts it, the entries it returns are the rendered ones up to
    dates that are written the same, and rendering them gives the text
    back, byte for byte. *)
Theorem rendered_text_round_trips (es : list Entry) :
  Forall canonical es ->
  exists es',
    parseChangelog {| unread := printEntries 0 es; failure := io_EOF |}
    = Returns es' None /\
    Forall2 sameButDate es es' /\
    printEntries 0 es' = printEntries 0 es.
Proof.
  intros Hes.
  destruct (feed_doc es 0 initial Hes eq_refl) as (p & es' & Hf & _ & He & Hd).
  exists es'. split; [|split; [exact Hd | now apply printEntries_sameButDate]].
  unfold parseChangelog. cbn [unread failure].
  rewrite printEntries_docLines, (readLines_lines _ (no_LF_docLines es 0 Hes)).
  cbn [fst]. rewrite (loop_feed _ _ (no_LF_docLines es 0 Hes)), Hf.
  now rewrite He.
Qed.

End RoundTripText.

(* ================================================================== *)
(** * The properties on concrete inputs *)

(** The scenario of the specification: one entry with two changes, the
    first with one detail of two lines. *)
Example scenario_parses :
  parseChangelog {| unread := scenarioText; failure := io_EOF |}
  = Returns [scenarioEntry] None.
Proof. reflexivity. Qed.

(** Filtering the scenario with [detail] keeps "Change A" and its detail. *)
Example scenario_filtered :
  filterEntries [scenarioEntry] detailRE = [setChanges scenarioEntry [changeA]].
Proof. reflexivity. Qed.

(** C2 fails on a parsed sequence: an entry with no change is dropped by
    the pattern [.]. *)
Lemma filter_dot_drops_changeless_entry :
  parseChangelog {| unread := bareText; failure := io_EOF |}
  = Returns [bareEntry] None /\
  filterEntries [bareEntry] regexp.dot = [] /\
  filterEntries [bareEntry] regexp.dot <> [bareEntry].
Proof.
  split; [reflexivity|]. split; [reflexivity|].
  discriminate.
Qed.

Lemma filter_dot_keeps_all_but_changeless_witness :
  filterEntries [scenarioEntry; bareEntry] regexp.dot
  = filter hasChanges [scenarioEntry; bareEntry].
Proof.
  apply (filter_dot_keeps_all_but_changeless [scenarioEntry; bareEntry]).
  intros e c [<-|[<-|[]]] Hc.
  - destruct Hc as [<-|[<-|[]]]; (split; [reflexivity|]).
    + intros d [<-|[]]. reflexivity.
    + intros d [].
  - destruct Hc.
Defined.

Lemma matching_detail_keeps_its_change_witness :
  exists e',
    In e' (filterEntries [scenarioEntry] detailRE) /\
    sameFields e' scenarioEntry /\
    Changes e' = keptChanges detailRE scenarioEntry /\
    In {| Summary := Summary changeA;
          Details := filter (fun d => Detail_Matches d detailRE) (Details changeA) |}
       (Changes e').
Proof.
  apply (matching_detail_keeps_its_change detailRE [scenarioEntry]
           scenarioEntry changeA).
  - left. reflexivity.
  - left. reflexivity.
  - right. exists {| Lines := ["detail line 1"; "continuation"] |}.
    split; [left; reflexivity | reflexivity].
Defined.

Lemma neverRE_matches_nothing (s : string) : MatchString neverRE s = false.
Proof.
  unfold neverRE, regexp.MustCompile.
  change (regexp.nodes (regexp.tokens "x^"))
    with [regexp.One (regexp.Byte "x"); regexp.Bol].
  cbn [MatchString regexp.program].
  assert (H : forall i, regexp.search
                [regexp.One (regexp.Byte "x"); regexp.Bol] i s = None).
  { induction s as [|c s IH]; intros i; simpl; [reflexivity|].
    destruct (Ascii.eqb c "x"); [|apply IH].
    unfold regexp.at_bol. simpl. rewrite Nat.add_comm. simpl. apply IH. }
  now rewrite H.
Qed.

Lemma unmatched_entry_is_omitted_witness :
  filterEntries ([bareEntry] ++ scenarioEntry :: [bareEntry])%list
    (regexp.MustCompile "zzz")
  = filterEntries ([bareEntry] ++ [bareEntry])%list
      (regexp.MustCompile "zzz") /\
  filterEntries [scenarioEntry] neverRE = [].
Proof.
  destruct (unmatched_entry_is_omitted (T := GoTimePkg)
              (regexp.MustCompile "zzz")) as (H1 & _ & _).
  destruct (unmatched_entry_is_omitted (T := GoTimePkg) neverRE) as (_ & _ & H3).
  split.
  - apply H1. intros c [<-|[<-|[]]]; (split; [reflexivity|]).
    + intros d l [<-|[]] [<-|[<-|[]]]; reflexivity.
    + intros d l [].
  - apply H3. exact neverRE_matches_nothing.
Defined.

Lemma survivors_keep_their_entry_fields_witness :
  exists e c,
    In e [scenarioEntry] /\ In c (Changes e) /\
    sameFields (setChanges scenarioEntry [changeA]) e /\
    Summary changeA = Summary c /\
    forall d, In d (Details changeA) ->
      In d (Details c) /\ Detail_Matches d detailRE = true.
Proof.
  apply (survivors_keep_their_entry_fields detailRE [scenarioEntry]
           (setChanges scenarioEntry [changeA]) changeA).
  - left. reflexivity.
  - left. reflexivity.
Defined.

Lemma parse_returns_entries_or_error_witness :
  parseChangelog
    {| unread := badDateBefore ++ badDateLine ++ nl ++ scenarioText;
       failure := io_EOF |}
  = Returns [] (Some badDateError) /\
  (entries afterTrailer = entries afterHeader \/
   (state afterHeader <> parseStateInitial /\
    strings.HasPrefix trailerLine maintainerLinePrefix = true /\
    exists e e',
      entry afterHeader = Some e /\
      parseMaintainerLine e trailerLine = (e', None) /\
      entries afterTrailer = (entries afterHeader ++ [e'])%list /\
      state afterTrailer = parseStateInitial)).
Proof.
  destruct (parse_returns_entries_or_error (T := GoTimePkg)) as (_ & H2 & H3).
  split.
  - apply (H2 _ badDateBefore badDateLine scenarioText beforeBadDate badDateError).
    + reflexivity.
    + right.
      exists (scenarioText ++ "linux (5.15.0-26.26) jammy; urgency=medium").
      reflexivity.
    + reflexivity.
    + discriminate.
    + reflexivity.
    + right. split; [discriminate|]. split; [reflexivity|].
      eexists. split; reflexivity.
  - apply (H3 afterHeader afterTrailer trailerLine). reflexivity.
Defined.

Lemma unparseable_date_is_reported_witness :
  snd (parseMaintainerLine bareEntry badDateLine) = Some badDateError /\
  strings.Contains (Error badDateError) "not-a-date" = true.
Proof.
  destruct (unparseable_date_is_reported (T := GoTimePkg) bareEntry badDateLine
              [badDateLine; "A B"; "a@b.com"; "not-a-date"] badDateCause
              eq_refl eq_refl) as (HA & HB & _).
  split; [exact HA | exact HB].
Defined.

Lemma detail_head_in_entry_is_ignored_witness :
  body afterHeader ("    - a detail with no change" ++ nl) = Continue afterHeader.
Proof.
  apply (detail_head_in_entry_is_ignored afterHeader
           ("    - a detail with no change" ++ nl)); reflexivity.
Defined.

Lemma unterminated_final_line_is_dropped_witness :
  parseChangelog (T := GoTimePkg)
    {| unread := scenarioText ++ "linux (5.15.0-26.26) jammy; urgency=medium";
       failure := io_EOF |}
  = parseChangelog (T := GoTimePkg)
      {| unread := scenarioText; failure := io_EOF |}.
Proof.
  apply (proj1 unterminated_final_line_is_dropped GoTimePkg).
  - right.
    exists (lines ["linux (5.15.0-25.25) jammy; urgency=medium";
                   "";
                   "  * Change A";
                   "    - detail line 1";
                   "      continuation";
                   "";
                   "  * Change B";
                   ""] ++ trailerLine).
    reflexivity.
  - reflexivity.
Defined.

(** C1 fails on the scenario of the specification, on the same text
    without its empty lines (the two spaces before the date are written
    back as one), and on a text with a line the parser passes over (the
    line is lost): each is accepted, and the rendering of what is parsed
    is another text. *)
Lemma parse_then_render_differs :
  (parseChangelog {| unread := scenarioText; failure := io_EOF |}
   = Returns [scenarioEntry] None /\
   printEntries 0 [scenarioEntry] <> scenarioText) /\
  (parseChangelog {| unread := compactText; failure := io_EOF |}
   = Returns [scenarioEntry] None /\
   printEntries 0 [scenarioEntry] <> compactText) /\
  (parseChangelog {| unread := decoratedText; failure := io_EOF |}
   = Returns [scenarioEntry] None /\
   printEntries 0 [scenarioEntry] <> decoratedText).
Proof.
  repeat split; try reflexivity.
  - intros E. apply (f_equal (String.eqb scenarioText)) in E.
    vm_compute in E. discriminate E.
  - intros E. apply (f_equal (String.eqb compactText)) in E.
    vm_compute in E. discriminate E.
  - intros E. apply (f_equal (String.eqb decoratedText)) in E.
    vm_compute in E. discriminate E.
Qed.

Lemma canonical_scenarioEntry : canonical scenarioEntry.
Proof.
  repeat split; try discriminate; try reflexivity.
  - exists scenarioDate. split; reflexivity.
  - repeat constructor; discriminate.
Qed.

Lemma canonical_olderEntry : canonical olderEntry.
Proof.
  repeat split; try discriminate; try reflexivity.
  - exists scenarioDate. split; reflexivity.
  - repeat constructor.
Qed.

Lemma rendered_text_round_trips_witness :
  exists es',
    parseChangelog
      {| unread := printEntries 0 [scenarioEntry; olderEntry];
         failure := io_EOF |}
    = Returns es' None /\
    Forall2 sameButDate [scenarioEntry; olderEntry] es' /\
    printEntries 0 es' = printEntries 0 [scenarioEntry; olderEntry].
Proof.
  apply (rendered_text_round_trips [scenarioEntry; olderEntry]).
  constructor; [exact canonical_scenarioEntry|].
  constructor; [exact canonical_olderEntry | constructor].
Defined.

(* ================================================================== *)
(** * Further properties *)

(** *** The filter *)

Lemma filter_twice {A : Type} (f : A -> bool) (l : list A) :
  filter f (filter f l) = filter f l.
Proof.
  induction l as [|x l IH]; simpl; [reflexivity|].
  destruct (f x) eqn:E; simpl; [now rewrite E, IH | exact IH].
Qed.

Lemma existsb_filter {A : Type} (f : A -> bool) (l : list A) :
  existsb f (filter f l) = existsb f l.
Proof.
  induction l as [|x l IH]; simpl; [reflexivity|].
  destruct (f x) eqn:E; simpl; [now rewrite E | exact IH].
Qed.

Section FilterAlgebra.

Context {T : TimePkg}.

(** X1: the filter works entry by entry, in order: each entry gives
    nothing when none of its changes survives, and otherwise itself with
    its surviving changes, each with its summary and its matching
    details. *)
Theorem filter_is_entrywise (es : list Entry) (re : Regexp) :
  filterEntries es re = flat_map (keptEntry re) es.
Proof.
  apply filterEntries_spec.
Qed.

(** X2: filtering a sequence made of two parts gives the filtered first
    part followed by the filtered second part. *)
Theorem filter_of_append (a b : list Entry) (re : Regexp) :
  filterEntries (a ++ b)%list re
  = (filterEntries a re ++ filterEntries b re)%list.
Proof.
  rewrite !filterEntries_spec. apply flat_map_app.
Qed.

Lemma survives_keptChange (re : Regexp) (c : Change) :
  survives re (keptChange re c) = survives re c.
Proof.
  unfold survives, keptChange, keptDetails. simpl.
  now rewrite existsb_filter.
Qed.

Lemma keptChange_twice (re : Regexp) (c : Change) :
  keptChange re (keptChange re c) = keptChange re c.
Proof.
  unfold keptChange, keptDetails. simpl. now rewrite filter_twice.
Qed.

Lemma keptChanges_twice (re : Regexp) (e : Entry) :
  keptChanges re (setChanges e (keptChanges re e)) = keptChanges re e.
Proof.
  unfold keptChanges.
  replace (Changes (setChanges e (map (keptChange re) (filter (survives re) (Changes e)))))
    with (map (keptChange re) (filter (survives re) (Changes e))) by reflexivity.
  induction (Changes e) as [|c cs IH]; [reflexivity|].
  cbn [filter]. destruct (survives re c) eqn:E; [|exact IH].
  cbn [map filter]. rewrite survives_keptChange, E. cbn [map].
  now rewrite keptChange_twice, IH.
Qed.

Lemma filterEntries_twice (es : list Entry) (re : Regexp) :
  filterEntries (filterEntries es re) re = filterEntries es re.
Proof.
  rewrite !filterEntries_spec.
  induction es as [|e es IH]; simpl; [reflexivity|].
  rewrite flat_map_app, IH. f_equal.
  unfold keptEntry at 2 3.
  destruct (keptChanges re e) as [|c cs] eqn:E; [reflexivity|].
  rewrite <- E. cbn [flat_map]. rewrite app_nil_r. unfold keptEntry.
  rewrite keptChanges_twice, E. reflexivity.
Qed.

(** X3: filtering a filtered sequence with the same pattern changes
    nothing. *)
Theorem filter_twice_is_filter_once (es : list Entry) (re : Regexp) :
  filterEntries (filterEntries es re) re = filterEntries es re.
Proof.
  apply filterEntries_twice.
Qed.

(** X4: nothing is kept without a match: every change of a filtered
    result has a matching summary or a detail, every detail of the result
    has a matching line, and no entry of the result is without a
    change. *)
Theorem kept_parts_all_match (es : list Entry) (re : Regexp) (e' : Entry) :
  In e' (filterEntries es re) ->
  Changes e' <> [] /\
  forall c', In c' (Changes e') ->
    (MatchString re (Summary c') = true \/ Details c' <> []) /\
    forall d, In d (Details c') ->
      exists l, In l (Lines d) /\ MatchString re l = true.
Proof.
  intros H. apply In_keptEntry in H. destruct H as (e & _ & Hne & ->).
  split; [exact Hne|]. intros c' Hc'. simpl in Hc'. unfold keptChanges in Hc'.
  apply in_map_iff in Hc'. destruct Hc' as (c & <- & Hc).
  apply filter_In in Hc. destruct Hc as [_ Hs]. split.
  - unfold survives in Hs. apply orb_true_iff in Hs. destruct Hs as [Hs|Hs].
    + now left.
    + right. simpl. unfold keptDetails. apply existsb_exists in Hs.
      destruct Hs as (d & Hd & Hm). intros E.
      assert (Hin : In d (filter (fun d => Detail_Matches d re) (Details c)))
        by (apply filter_In; auto).
      rewrite E in Hin. destruct Hin.
  - intros d Hd. simpl in Hd. unfold keptDetails in Hd.
    apply filter_In in Hd. destruct Hd as [_ Hm].
    unfold Detail_Matches in Hm. apply existsb_exists in Hm. exact Hm.
Qed.

End FilterAlgebra.

(* ------------------------------------------------------------------ *)
(** *** The parser over a text in parts *)

Section ParserParts.

Context {T : TimePkg}.

Lemma reads_app (a b : string) :
  complete a ->
  fst (readLines (a ++ b)) = (fst (readLines a) ++ fst (readLines b))%list.
Proof.
  intros Hc. now rewrite (readLines_app _ _ (readLines_complete _ Hc)).
Qed.

(** The parser with the variables [p] and with the variables [q] does the
    same at every line when the variables agree. *)
Lemma agree_dispatch (pre : list Entry) (p q : locals) (line : string) :
  agree pre p q -> agreeing pre (dispatch p line) (dispatch q line).
Proof.
  intros (Hs & He & Hen & Hch & Hde).
  assert (Hc : state q <> parseStateInitial ->
               agreeing pre (processChangeLine p line) (processChangeLine q line)).
  { intros Hn. unfold processChangeLine. rewrite (Hen Hn).
    destruct (entry q) as [e|]; agreed. }
  assert (Hm : state q <> parseStateInitial ->
               agreeing pre (processMaintainerLine p line)
                 (processMaintainerLine q line)).
  { intros Hn. unfold processMaintainerLine. rewrite (Hen Hn).
    destruct (entry q) as [e|]; [|agreed].
    destruct (parseMaintainerLine e line) as [e' [err|]]; agreed.
    rewrite He. now rewrite app_assoc. }
  assert (Hh : state q = parseStateInChange \/ state q = parseStateInDetail ->
               agreeing pre (processDetailHeadLine p line)
                 (processDetailHeadLine q line)).
  { intros Hn. unfold processDetailHeadLine.
    rewrite (Hen ltac:(destruct Hn as [E|E]; rewrite E; discriminate)), (Hch Hn).
    destruct (entry q) as [e|]; [|agreed].
    destruct (change q) as [i|]; [|agreed].
    destruct (nth_error (Changes e) i); agreed. }
  assert (Ht : state q = parseStateInDetail ->
               agreeing pre (processDetailTailLine p line)
                 (processDetailTailLine q line)).
  { intros Hn. unfold processDetailTailLine.
    rewrite (Hen ltac:(rewrite Hn; discriminate)), (Hde Hn).
    destruct (entry q) as [e|]; [|agreed].
    destruct (detail q) as [[i j]|]; [|agreed].
    destruct (nth_error (Changes e) i) as [c|]; [|agreed].
    destruct (nth_error (Details c) j); agreed. }
  assert (Hi : agreeing pre (Continue p) (Continue q)) by agreed.
  unfold dispatch. rewrite Hs. destruct (state q) eqn:E.
  - destruct (parseEntryLine line) as [e|err]; agreed.
  - destruct (strings.HasPrefix line changePrefix); [apply Hc; discriminate|].
    destruct (strings.HasPrefix line maintainerLinePrefix);
      [apply Hm; discriminate | exact Hi].
  - destruct (strings.HasPrefix line changePrefix); [apply Hc; discriminate|].
    destruct (strings.HasPrefix line detailHeadPrefix); [apply Hh; auto|].
    destruct (strings.HasPrefix line maintainerLinePrefix);
      [apply Hm; discriminate | exact Hi].
  - destruct (strings.HasPrefix line changePrefix); [apply Hc; discriminate|].
    destruct (strings.HasPrefix line detailHeadPrefix); [apply Hh; auto|].
    destruct (strings.HasPrefix line detailTailPrefix); [apply Ht; auto|].
    destruct (strings.HasPrefix line maintainerLinePrefix);
      [apply Hm; discriminate | exact Hi].
Qed.

Lemma agree_loop (pre : list Entry) (reads : list string) : forall p q,
  agree pre p q -> agreeing pre (loop p reads) (loop q reads).
Proof.
  induction reads as [|read reads IH]; intros p q H; simpl; [exact H|].
  assert (Hb : agreeing pre (body p read) (body q read)).
  { unfold body. destruct (Nat.eqb _ 0); [exact H | now apply agree_dispatch]. }
  destruct (body p read) as [p'|r], (body q read) as [q'|r'];
    unfold agreeing in Hb; try contradiction; [now apply IH | exact Hb].
Qed.

Lemma parse_concat (t1 t2 : string) (f : error) (es1 : list Entry) :
  wholeEntries t1 es1 ->
  parseChangelog {| unread := t1 ++ t2; failure := f |}
  = after es1 (parseChangelog {| unread := t2; failure := f |}).
Proof.
  intros (Hc & p1 & Hl & Hs & He). unfold parseChangelog. cbn [unread failure].
  rewrite (reads_app t1 t2 Hc), loop_app, Hl.
  assert (Ha : agree es1 p1 initial).
  { agreed. now rewrite app_nil_r. }
  pose proof (agree_loop es1 (fst (readLines t2)) p1 initial Ha) as H.
  destruct (loop p1 (fst (readLines t2))) as [p|r],
    (loop initial (fst (readLines t2))) as [q|r'];
    unfold agreeing, agree in H; try contradiction.
  - destruct H as (_ & E & _). destruct f; simpl; [now rewrite E | reflexivity].
  - destruct H as [<- Hn]. destruct r as [es [err|]|]; simpl; auto.
    now destruct (Hn es).
Qed.

(** X5: a text that ends with complete entries followed by more text is
    parsed to the entries of the first part followed by those of the
    second; an error of the second part is the error of the whole. *)
Theorem parse_of_concatenation (t1 t2 : string) (f : error) (es1 : list Entry) :
  wholeEntries t1 es1 ->
  parseChangelog {| unread := t1 ++ t2; failure := f |}
  = after es1 (parseChangelog {| unread := t2; failure := f |}).
Proof.
  apply parse_concat.
Qed.

Lemma body_entries (p p' : locals) (read : string) :
  body p read = Continue p' ->
  exists more, entries p' = (entries p ++ more)%list.
Proof.
  unfold body. destruct (Nat.eqb _ 0).
  - intros [= <-]. exists []. now rewrite app_nil_r.
  - intros H. destruct (dispatch_entries _ _ _ H) as [E|(_ & _ & e & e' & _ & _ & E & _)].
    + exists []. now rewrite app_nil_r.
    + now exists [e'].
Qed.

Lemma loop_entries (reads : list string) : forall p p',
  loop p reads = Continue p' ->
  exists more, entries p' = (entries p ++ more)%list.
Proof.
  induction reads as [|read reads IH]; intros p p'; simpl.
  - intros [= <-]. exists []. now rewrite app_nil_r.
  - destruct (body p read) as [p1|r] eqn:E; [|discriminate].
    intros H. destruct (body_entries _ _ _ E) as [m1 E1].
    destruct (IH _ _ H) as [m2 E2]. exists (m1 ++ m2)%list.
    now rewrite E2, E1, app_assoc.
Qed.

(** X6: the entries of the first lines of a text are the first entries of
    the whole text: when the whole text is parsed with no error, so is
    every part of it that ends at a line end, to the entries of the whole
    text but some of the last. *)
Theorem entries_of_a_prefix (t1 t2 : string) (f : error) (es : list Entry) :
  complete t1 ->
  parseChangelog {| unread := t1 ++ t2; failure := f |} = Returns es None ->
  exists es1 more,
    parseChangelog {| unread := t1; failure := io_EOF |} = Returns es1 None /\
    es = (es1 ++ more)%list.
Proof.
  intros Hc. unfold parseChangelog. cbn [unread failure].
  rewrite (reads_app t1 t2 Hc), loop_app.
  destruct (loop initial (fst (readLines t1))) as [p1|r] eqn:E1.
  - destruct (loop p1 _) as [p2|r] eqn:E2.
    + destruct f; [|discriminate]. intros [= <-].
      destruct (loop_entries _ _ _ E2) as [more E]. now exists (entries p1), more.
    + intros ->. pose proof (valid_loop (fst (readLines t1)) initial I) as Hv.
      rewrite E1 in Hv. pose proof (valid_loop (fst (readLines t2)) p1 Hv) as Hv2.
      rewrite E2 in Hv2. contradiction.
  - intros ->. pose proof (valid_loop (fst (readLines t1)) initial I) as Hv.
    rewrite E1 in Hv. contradiction.
Qed.

(** X7: an empty line changes nothing, wherever it stands. *)
Theorem empty_line_is_ignored (before rest : string) (f : error) :
  complete before ->
  parseChangelog {| unread := before ++ nl ++ rest; failure := f |}
  = parseChangelog {| unread := before ++ rest; failure := f |}.
Proof.
  intros Hc. unfold parseChangelog. cbn [unread failure].
  rewrite !(reads_app before _ Hc), !loop_app.
  replace (nl ++ rest) with ("" ++ nl ++ rest) by reflexivity.
  rewrite (readLines_line "" rest eq_refl). cbn [fst].
  destruct (loop initial (fst (readLines before))); reflexivity.
Qed.

(** A line that is not a trailer leaves the parser inside the entry, with
    the entries it had. *)
Lemma dispatch_inside (p : locals) (line : string) :
  valid p -> state p <> parseStateInitial ->
  strings.HasPrefix line maintainerLinePrefix = false ->
  exists p', dispatch p line = Continue p' /\ valid p' /\
             state p' <> parseStateInitial /\ entries p' = entries p.
Proof.
  intros Hv Hs Hp. pose proof (valid_dispatch p line Hv) as Hd.
  assert (Hc : forall q, processChangeLine p line = Continue q ->
                 state q <> parseStateInitial /\ entries q = entries p).
  { unfold processChangeLine. intros q. destruct (entry p); [|discriminate].
    intros [= <-]. split; [discriminate | reflexivity]. }
  assert (Hh : forall q, processDetailHeadLine p line = Continue q ->
                 state q <> parseStateInitial /\ entries q = entries p).
  { unfold processDetailHeadLine. intros q.
    destruct (entry p) as [e|]; [|discriminate].
    destruct (change p) as [i|]; [|discriminate].
    destruct (nth_error (Changes e) i); [|discriminate].
    intros [= <-]. split; [discriminate | reflexivity]. }
  assert (Ht : forall q, processDetailTailLine p line = Continue q ->
                 state q <> parseStateInitial /\ entries q = entries p).
  { unfold processDetailTailLine. intros q.
    destruct (entry p) as [e|]; [|discriminate].
    destruct (detail p) as [[i j]|]; [|discriminate].
    destruct (nth_error (Changes e) i) as [c|]; [|discriminate].
    destruct (nth_error (Details c) j); [|discriminate].
    intros [= <-]. split; [exact Hs | reflexivity]. }
  assert (Hi : forall q, Continue p = Continue q ->
                 state q <> parseStateInitial /\ entries q = entries p).
  { intros q [= <-]. auto. }
  destruct (dispatch p line) as [p'|r] eqn:E.
  - exists p'. split; [reflexivity|]. split; [exact Hd|].
    revert E. unfold dispatch. rewrite Hp. destruct (state p).
    + contradiction.
    + destruct (strings.HasPrefix line changePrefix); [apply Hc | apply Hi].
    + destruct (strings.HasPrefix line changePrefix); [apply Hc|].
      destruct (strings.HasPrefix line detailHeadPrefix); [apply Hh | apply Hi].
    + destruct (strings.HasPrefix line changePrefix); [apply Hc|].
      destruct (strings.HasPrefix line detailHeadPrefix); [apply Hh|].
      destruct (strings.HasPrefix line detailTailPrefix); [apply Ht | apply Hi].
  - exfalso. revert E. unfold dispatch. rewrite Hp.
    unfold processChangeLine, processDetailHeadLine, processDetailTailLine.
    simpl in Hd. destruct r as [es [err|]|]; try contradiction. subst es.
    destruct (state p) eqn:Es; [contradiction|..]; unfold valid in Hv;
      rewrite Es in Hv.
    + destruct Hv as (e & ->).
      destruct (strings.HasPrefix line changePrefix); discriminate.
    + destruct Hv as (e & cs & c & -> & Hcs & ->).
      destruct (strings.HasPrefix line changePrefix); [discriminate|].
      destruct (strings.HasPrefix line detailHeadPrefix); [|discriminate].
      destruct (nth_error (Changes e) _); discriminate.
    + destruct Hv as (e & cs & c & ds & d & -> & Hcs & -> & Hds & ->).
      destruct (strings.HasPrefix line changePrefix); [discriminate|].
      destruct (strings.HasPrefix line detailHeadPrefix).
      { destruct (nth_error (Changes e) _); discriminate. }
      destruct (strings.HasPrefix line detailTailPrefix); [|discriminate].
      destruct (nth_error (Changes e) _) as [c'|]; [|discriminate].
      destruct (nth_error (Details c') _); discriminate.
Qed.

Lemma feed_inside (ls : list string) : forall p,
  valid p -> state p <> parseStateInitial ->
  Forall (fun l => strings.HasPrefix l maintainerLinePrefix = false) ls ->
  exists p', feed p ls = Continue p' /\ entries p' = entries p.
Proof.
  induction ls as [|l ls IH]; intros p Hv Hs Hls; [now exists p|].
  inversion Hls as [|? ? Hl Hls']; subst. cbn [feed].
  destruct (Nat.eqb (String.length l) 0); [now apply IH|].
  destruct (dispatch_inside p l Hv Hs Hl) as (p1 & -> & Hv1 & Hs1 & He1).
  destruct (IH p1 Hv1 Hs1 Hls') as (p2 & Hf & He2).
  exists p2. split; [exact Hf | congruence].
Qed.

(** X8: an entry that has no trailer is lost without an error: when the
    text ends with a header line and lines of which none starts as a
    trailer, the parser returns the entries before that header and no
    error. *)
Theorem entry_without_trailer_is_dropped (t1 header : string)
    (ls : list string) (es : list Entry) (e : Entry) :
  wholeEntries t1 es ->
  parseEntryLine header = inl e ->
  Forall (fun l => strings.no_LF l = true) (header :: ls) ->
  Forall (fun l => strings.HasPrefix l maintainerLinePrefix = false) ls ->
  parseChangelog {| unread := t1 ++ lines (header :: ls); failure := io_EOF |}
  = Returns es None.
Proof.
  intros (Hc & p1 & Hl & Hs & He) Hh Hn Hls. unfold parseChangelog.
  cbn [unread failure]. rewrite (reads_app t1 _ Hc), loop_app, Hl.
  rewrite (readLines_lines _ Hn). cbn [fst]. rewrite (loop_feed _ _ Hn).
  assert (Hne : header <> "").
  { intros ->. vm_compute in Hh. discriminate Hh. }
  rewrite (feed_cons _ _ _ Hne). unfold dispatch at 1. rewrite Hs, Hh.
  match goal with
  | |- context [feed ?q ls] =>
      destruct (feed_inside ls q) as (p2 & -> & E)
  end.
  - unfold valid. simpl. eauto.
  - simpl. discriminate.
  - exact Hls.
  - simpl in E. now rewrite E, He.
Qed.

(** X9: when the reader fails with an error that is not the end of the
    file, the parser returns an error and no entry, whatever it has read:
    the entries of the lines before the failure are not returned. *)
Theorem read_error_discards_entries (r : Reader) :
  failure r <> io_EOF ->
  exists err, parseChangelog r = Returns [] (Some err).
Proof.
  intros Hf. unfold parseChangelog.
  pose proof (valid_loop (fst (readLines (unread r))) initial I) as H.
  destruct (loop initial _) as [p|[es [err|]|]]; simpl in H.
  - destruct (failure r); [contradiction | eauto].
  - subst es. eauto.
  - contradiction.
  - contradiction.
Qed.

End ParserParts.

(* ------------------------------------------------------------------ *)
(** *** What a line that matches is made of *)

(** The first match of a greedy run: the bytes it keeps, the rest, and
    the failure of every longer run. *)
Lemma greedy_first (cl : regexp.class) k : forall (s : string) a r,
  regexp.greedy cl k s a = Some r ->
  exists u v,
    s = u ++ v /\ strings.all (regexp.accepts cl) u = true /\
    k v (eat u a) = Some r /\
    forall c v', v = String c v' -> regexp.accepts cl c = true ->
      regexp.greedy cl k v' (eat (u ++ String c "") a) = None.
Proof.
  induction s as [|c s IH]; intros a r H; simpl in H.
  - exists "", "". repeat split; [exact H | discriminate].
  - destruct (regexp.accepts cl c) eqn:Hc.
    + destruct (regexp.greedy cl k s (regexp.consume c a)) as [r0|] eqn:Hg.
      * injection H as ->. destruct (IH _ _ Hg) as (u & v & -> & Hu & Hk & Hm).
        exists (String c u), v. simpl. rewrite Hc, Hu. repeat split; auto.
      * exists "", (String c s). repeat split; [exact H|].
        intros c' v' [= <- <-] _. exact Hg.
    + exists "", (String c s). repeat split; [exact H|].
      intros c' v' [= <- <-] Hc'. congruence.
Qed.

Lemma greedy_none (cl : regexp.class) k (s : string) a :
  regexp.greedy cl k s a = None -> k s a = None.
Proof.
  destruct s as [|c s]; simpl; [auto|].
  destruct (regexp.accepts cl c); [|auto].
  destruct (regexp.greedy cl k s (regexp.consume c a)); [discriminate | auto].
Qed.

Lemma greedy_some (cl : regexp.class) k :
  (forall s a, k s a <> None) -> forall s a, regexp.greedy cl k s a <> None.
Proof.
  intros Hk. induction s as [|c s IH]; intros a; simpl; [apply Hk|].
  destruct (regexp.accepts cl c); [|apply Hk].
  destruct (regexp.greedy cl k s (regexp.consume c a)) eqn:E; [discriminate|].
  now destruct (IH (regexp.consume c a)).
Qed.

Lemma exec_plus_first (cl : regexp.class) rest (s : string) a r :
  regexp.exec (regexp.Plus cl :: rest) s a = Some r ->
  exists u v,
    s = u ++ v /\ u <> "" /\ strings.all (regexp.accepts cl) u = true /\
    regexp.exec rest v (eat u a) = Some r /\
    forall c v', v = String c v' -> regexp.accepts cl c = true ->
      regexp.exec rest v' (eat (u ++ String c "") a) = None.
Proof.
  destruct s as [|c s]; simpl; [discriminate|].
  destruct (regexp.accepts cl c) eqn:Hc; [|discriminate].
  intros H. destruct (greedy_first _ _ _ _ _ H) as (u & v & -> & Hu & Hk & Hm).
  exists (String c u), v. simpl. rewrite Hc, Hu.
  repeat split; [discriminate | exact Hk |].
  intros c' v' Hv Hc'. apply greedy_none with (cl := cl). now apply Hm.
Qed.

Lemma exec_star_first (cl : regexp.class) rest (s : string) a r :
  regexp.exec (regexp.Star cl :: rest) s a = Some r ->
  exists u v,
    s = u ++ v /\ strings.all (regexp.accepts cl) u = true /\
    regexp.exec rest v (eat u a) = Some r /\
    forall c v', v = String c v' -> regexp.accepts cl c = true ->
      regexp.exec rest v' (eat (u ++ String c "") a) = None.
Proof.
  simpl. intros H.
  destruct (greedy_first _ _ _ _ _ H) as (u & v & -> & Hu & Hk & Hm).
  exists u, v. repeat split; auto.
  intros c' v' Hv Hc'. apply greedy_none with (cl := cl). now apply Hm.
Qed.

Lemma exec_byte_inv (c : ascii) rest (s : string) a r :
  regexp.exec (regexp.One (regexp.Byte c) :: rest) s a = Some r ->
  exists v, s = String c v /\ regexp.exec rest v (eat (String c "") a) = Some r.
Proof.
  destruct s as [|x s]; simpl; [discriminate|].
  destruct (Ascii.eqb_spec x c) as [->|]; [|discriminate].
  intros H. now exists s.
Qed.

(** Whether a pattern without [^] matches does not depend on what was
    matched before. *)
Lemma greedy_any_attempt (cl : regexp.class) k :
  (forall s a a' x, k s a = Some x -> exists x', k s a' = Some x') ->
  forall (s : string) a a' x,
    regexp.greedy cl k s a = Some x -> exists x', regexp.greedy cl k s a' = Some x'.
Proof.
  intros Hk. induction s as [|c s IH]; intros a a' x; simpl; [apply Hk|].
  destruct (regexp.accepts cl c); [|apply Hk].
  destruct (regexp.greedy cl k s (regexp.consume c a)) as [r|] eqn:E.
  - intros _. destruct (IH _ (regexp.consume c a') _ E) as [x' ->]. eauto.
  - intros H. destruct (regexp.greedy cl k s (regexp.consume c a')); [eauto|].
    eapply Hk, H.
Qed.

Lemma exec_any_attempt (r : list regexp.node) :
  unanchored r = true ->
  forall (s : string) a a' x,
    regexp.exec r s a = Some x -> exists x', regexp.exec r s a' = Some x'.
Proof.
  induction r as [|n r IH]; intros Hr; [intros; simpl; eauto|].
  destruct n; cbn [unanchored] in Hr; try discriminate;
    specialize (IH Hr); intros s a a' x; cbn [regexp.exec].
  - destruct s as [|c s]; [discriminate|].
    destruct (regexp.accepts k c); [apply IH | discriminate].
  - destruct s as [|c s]; [discriminate|].
    destruct (regexp.accepts k c); [|discriminate].
    now apply greedy_any_attempt.
  - now apply greedy_any_attempt.
  - apply IH.
  - apply IH.
Qed.

(** The last group of the two patterns of the parser, any run of [.],
    matches any text. *)
Lemma exec_rest_total (s : string) a :
  regexp.exec [regexp.Open; regexp.Star regexp.Dot; regexp.Close] s a <> None.
Proof.
  cbn [regexp.exec]. apply greedy_some. intros s' a'. discriminate.
Qed.

Lemma all_plain (stop : ascii) (s : string) :
  strings.all (regexp.accepts (regexp.Not stop)) s = true ->
  strings.no_LF s = true -> plain stop s = true.
Proof.
  unfold plain. induction s as [|c s IH]; simpl; [auto|].
  intros H1 H2. apply andb_true_iff in H1. apply andb_true_iff in H2.
  destruct H1 as [Ha Hs], H2 as [Hb Hn]. now rewrite Ha, Hb, IH.
Qed.

Lemma all_dot (s : string) :
  strings.all (regexp.accepts regexp.Dot) s = true -> strings.no_LF s = true.
Proof.
  induction s as [|c s IH]; simpl; [auto|].
  intros H. apply andb_true_iff in H. destruct H as [Hc Hs]. now rewrite Hc, IH.
Qed.

Lemma all_spaces (s : string) :
  s <> "" -> strings.all (regexp.accepts (regexp.Byte " ")) s = true -> spaces s.
Proof. intros Hn Hs. split; [exact Hn | exact Hs]. Qed.

(** A text with no newline that a run of [.] stops before is empty. *)
Lemma stops_dot_end (u v : string) :
  strings.no_LF (u ++ v) = true ->
  (forall c v', v = String c v' -> regexp.accepts regexp.Dot c = true -> False) ->
  v = "".
Proof.
  intros Hn Hm. destruct v as [|c v]; [reflexivity|].
  rewrite no_LF_app in Hn. apply andb_true_iff in Hn. destruct Hn as [_ Hn].
  simpl in Hn. apply andb_true_iff in Hn. destruct Hn as [Hc _].
  destruct (Hm c v eq_refl Hc).
Qed.

(** A text before which a run of spaces stopped for good starts with no
    space. *)
Lemma no_space_first (u v : string) :
  (forall c v', u ++ v = String c v' ->
                regexp.accepts (regexp.Byte " ") c = true -> False) ->
  strings.HasPrefix u " " = false.
Proof.
  intros Hm. destruct u as [|c u]; [reflexivity|]. simpl.
  destruct (Ascii.eqb c " ") eqn:E; [|reflexivity].
  destruct (Hm c (u ++ v) eq_refl E).
Qed.

Lemma exec_open_inv rest (s : string) r a :
  regexp.exec (regexp.Open :: rest) s a = Some r ->
  regexp.exec rest s (regexp.open_group a) = Some r.
Proof. intros H. exact H. Qed.

Lemma exec_close_inv rest (s : string) r a :
  regexp.exec (regexp.Close :: rest) s a = Some r ->
  regexp.exec rest s (regexp.close_group a) = Some r.
Proof. intros H. exact H. Qed.

Lemma exec_end_inv (s : string) r a : regexp.exec [] s a = Some r -> r = a.
Proof. simpl. congruence. Qed.

Lemma HasPrefix_space (c : ascii) (s : string) :
  strings.HasPrefix (String c s) " " = Ascii.eqb c " ".
Proof. simpl. apply andb_true_r. Qed.

Section AcceptedLines.

Context {T : TimePkg}.

(** What a line that [entryLineRegex] matches is made of, and the
    submatches it gives. *)
Lemma entryLineRegex_inv (line : string) (m : list string) :
  FindStringSubmatch entryLineRegex line = Some m ->
  exists pk sp1 vs sp2 ds sp3 md rest,
    line = pk ++ sp1 ++ "(" ++ vs ++ ")" ++ sp2 ++ ds ++ ";" ++ sp3 ++ md ++ rest /\
    m = [pk ++ sp1 ++ "(" ++ vs ++ ")" ++ sp2 ++ ds ++ ";" ++ sp3 ++ md;
         pk; vs; ds; md] /\
    (pk <> "" /\ strings.all (regexp.accepts (regexp.Not " ")) pk = true) /\
    spaces sp1 /\
    (vs <> "" /\ strings.all (regexp.accepts (regexp.Not ")")) vs = true) /\
    spaces sp2 /\
    (ds <> "" /\ strings.all (regexp.accepts (regexp.Not ";")) ds = true /\
     (strings.HasPrefix ds " " = false \/ ds = " ")) /\
    spaces sp3 /\
    (strings.all (regexp.accepts regexp.Dot) md = true /\
     strings.HasPrefix md " " = false) /\
    (forall c v', rest = String c v' ->
                  regexp.accepts regexp.Dot c = true -> False).
Proof.
  rewrite entryLineRegex_nodes. cbn [FindStringSubmatch regexp.program].
  rewrite search_anchored.
  destruct (regexp.exec _ line (regexp.begin 0)) as [a|] eqn:E; [|discriminate].
  intros [= <-].
  apply exec_open_inv, exec_plus_first in E.
  destruct E as (pk & v & -> & Hp1 & Hp2 & E & _).
  apply exec_close_inv, exec_plus_first in E.
  destruct E as (sp1 & v' & -> & Ha1 & Ha2 & E & _).
  apply exec_byte_inv in E. destruct E as (v & -> & E).
  apply exec_open_inv, exec_plus_first in E.
  destruct E as (vs & v' & -> & Hv1 & Hv2 & E & _).
  apply exec_close_inv, exec_byte_inv in E. destruct E as (v & -> & E).
  apply exec_plus_first in E.
  destruct E as (sp2 & v' & -> & Hb1 & Hb2 & E & Mb).
  apply exec_open_inv, exec_plus_first in E.
  destruct E as (ds & w & -> & Hd1 & Hd2 & E & _).
  pose proof E as Ew.
  apply exec_close_inv, exec_byte_inv in E. destruct E as (v & -> & E).
  apply exec_plus_first in E.
  destruct E as (sp3 & v' & -> & Hc1 & Hc2 & E & Mc).
  apply exec_open_inv, exec_star_first in E.
  destruct E as (md & rest & -> & Hm & E & Mm).
  apply exec_close_inv, exec_end_inv in E.
  exists pk, sp1, vs, sp2, ds, sp3, md, rest.
  split; [reflexivity|]. split.
  { subst a. autorewrite with attempt.
    cbn [option_map regexp.begin regexp.whole regexp.closed regexp.group rev app].
    rewrite !append_assoc. reflexivity. }
  split; [auto|]. split; [now apply all_spaces|]. split; [auto|].
  split; [now apply all_spaces|]. split.
  { split; [exact Hd1|]. split; [exact Hd2|].
    destruct ds as [|c ds]; [contradiction|]. rewrite HasPrefix_space.
    destruct (Ascii.eqb_spec c " ") as [->|]; [|now left]. right.
    destruct ds as [|c ds]; [reflexivity|]. exfalso.
    specialize (Mb " "%char (String c ds ++ String ";" (sp3 ++ md ++ rest))
                  eq_refl eq_refl).
    cbn [strings.all] in Hd2. apply andb_true_iff in Hd2. destruct Hd2 as [_ Hd2].
    match type of Ew with
    | regexp.exec ?r ?w _ = _ =>
        match type of Mb with
        | regexp.exec _ _ ?b = None =>
            destruct (exec_any_attempt r eq_refl w _
                        (eat (String c ds) (regexp.open_group b)) _ Ew) as [x Hx]
        end
    end.
    assert (Hk : exists y, regexp.exec
               [regexp.Open; regexp.Plus (regexp.Not ";"); regexp.Close;
                regexp.One (regexp.Byte ";"); regexp.Plus (regexp.Byte " ");
                regexp.Open; regexp.Star regexp.Dot; regexp.Close]
               (String c ds ++ String ";" (sp3 ++ md ++ rest))
               (eat (sp2 ++ " ") (eat ")" (regexp.close_group
                  (eat vs (regexp.open_group (eat "(" (eat sp1
                     (regexp.close_group (eat pk (regexp.open_group
                        (regexp.begin 0)))))))))))
             = Some y).
    { exists x. apply exec_open_take.
      apply exec_plus_take; [discriminate | exact Hd2 | reflexivity | exact Hx]. }
    destruct Hk as [y Hy]. rewrite Hy in Mb. discriminate Mb. }
  split; [now apply all_spaces|]. split.
  { split; [exact Hm|]. apply (no_space_first md rest).
    intros c v' Hv Hc. apply (exec_rest_total v' _ (Mc c v' Hv Hc)). }
  intros c v' Hv Hc. specialize (Mm c v' Hv Hc). discriminate Mm.
Qed.

(** What a line that [maintainerLineRegex] matches is made of, and the
    submatches it gives. *)
Lemma maintainerLineRegex_inv (line : string) (m : list string) :
  FindStringSubmatch maintainerLineRegex line = Some m ->
  exists nm sp1 em sp2 f rest,
    line = maintainerLinePrefix ++ nm ++ sp1 ++ "<" ++ em ++ ">" ++ sp2 ++ f ++ rest /\
    m = [maintainerLinePrefix ++ nm ++ sp1 ++ "<" ++ em ++ ">" ++ sp2 ++ f;
         nm; em; f] /\
    (nm <> "" /\ strings.all (regexp.accepts (regexp.Not "<")) nm = true) /\
    spaces sp1 /\
    (em <> "" /\ strings.all (regexp.accepts (regexp.Not ">")) em = true) /\
    spaces sp2 /\
    (strings.all (regexp.accepts regexp.Dot) f = true /\
     strings.HasPrefix f " " = false) /\
    (forall c v', rest = String c v' ->
                  regexp.accepts regexp.Dot c = true -> False).
Proof.
  rewrite maintainerLineRegex_nodes. cbn [FindStringSubmatch regexp.program].
  rewrite search_anchored.
  destruct (regexp.exec _ line (regexp.begin 0)) as [a|] eqn:E; [|discriminate].
  intros [= <-].
  apply exec_byte_inv in E. destruct E as (v & -> & E).
  apply exec_byte_inv in E. destruct E as (v' & -> & E).
  apply exec_byte_inv in E. destruct E as (v & -> & E).
  apply exec_byte_inv in E. destruct E as (v' & -> & E).
  apply exec_open_inv, exec_plus_first in E.
  destruct E as (nm & v & -> & Hn1 & Hn2 & E & _).
  apply exec_close_inv, exec_plus_first in E.
  destruct E as (sp1 & v' & -> & Ha1 & Ha2 & E & _).
  apply exec_byte_inv in E. destruct E as (v & -> & E).
  apply exec_open_inv, exec_plus_first in E.
  destruct E as (em & v' & -> & He1 & He2 & E & _).
  apply exec_close_inv, exec_byte_inv in E. destruct E as (v & -> & E).
  apply exec_plus_first in E.
  destruct E as (sp2 & v' & -> & Hb1 & Hb2 & E & Mb).
  apply exec_open_inv, exec_star_first in E.
  destruct E as (f & rest & -> & Hf & E & Mf).
  apply exec_close_inv, exec_end_inv in E.
  exists nm, sp1, em, sp2, f, rest.
  split; [reflexivity|]. split.
  { subst a. autorewrite with attempt.
    cbn [option_map regexp.begin regexp.whole regexp.closed regexp.group rev app].
    unfold maintainerLinePrefix. rewrite !append_assoc. reflexivity. }
  split; [auto|]. split; [now apply all_spaces|]. split; [auto|].
  split; [now apply all_spaces|]. split.
  { split; [exact Hf|]. apply (no_space_first f rest).
    intros c v' Hv Hc. apply (exec_rest_total v' _ (Mb c v' Hv Hc)). }
  intros c v' Hv Hc. specialize (Mf c v' Hv Hc). discriminate Mf.
Qed.

(** The entry a header line gives, and the line. *)
Lemma parseEntryLine_shape (line : string) (e : Entry) :
  strings.no_LF line = true ->
  parseEntryLine line = inl e ->
  headerFields e /\
  (MaintainerName e = "" /\ EmailAddress e = "" /\ Date e = time_zero /\
   Changes e = []) /\
  exists sp1 sp2 sp3,
    spaces sp1 /\ spaces sp2 /\ spaces sp3 /\
    line = Package e ++ sp1 ++ "(" ++ Version e ++ ")" ++ sp2
             ++ Distributions e ++ ";" ++ sp3 ++ Metadata e.
Proof.
  intros Hl. unfold parseEntryLine.
  destruct (FindStringSubmatch entryLineRegex line) as [m|] eqn:E; [|discriminate].
  intros [= <-].
  destruct (entryLineRegex_inv line m E)
    as (pk & sp1 & vs & sp2 & ds & sp3 & md & rest & -> & -> & (Hp1 & Hp2) & Ha
        & (Hv1 & Hv2) & Hb & (Hd1 & Hd2 & Hd3) & Hc & (Hm1 & Hm2) & Hr).
  cbn [regexp.sub nth Package Version Distributions Metadata MaintainerName
       EmailAddress Date Changes].
  assert (rest = "") as ->.
  { apply (stops_dot_end
             (pk ++ sp1 ++ "(" ++ vs ++ ")" ++ sp2 ++ ds ++ ";" ++ sp3 ++ md) rest);
      [|exact Hr]. now rewrite !append_assoc. }
  rewrite append_nil_r in *.
  rewrite !no_LF_app in Hl. conjuncts Hl. split.
  { unfold headerFields. cbn [Package Version Distributions Metadata].
    repeat split; auto using all_plain. }
  split; [auto|]. exists sp1, sp2, sp3. auto.
Qed.

(** The entry an accepted trailer line leaves, and the line. *)
Lemma parseMaintainerLine_shape (e e' : Entry) (line : string) :
  strings.no_LF line = true ->
  parseMaintainerLine e line = (e', None) ->
  trailerFields e' /\
  e' = setDate (setMaintainer e (MaintainerName e') (EmailAddress e')) (Date e') /\
  exists sp1 sp2 f,
    spaces sp1 /\ spaces sp2 /\
    strings.no_LF f = true /\ strings.HasPrefix f " " = false /\
    time_Parse entryDateFormat f = inl (Date e') /\
    line = maintainerLinePrefix ++ MaintainerName e' ++ sp1 ++ "<"
             ++ EmailAddress e' ++ ">" ++ sp2 ++ f.
Proof.
  intros Hl. unfold parseMaintainerLine.
  destruct (FindStringSubmatch maintainerLineRegex line) as [m|] eqn:E;
    [|discriminate].
  destruct (maintainerLineRegex_inv line m E)
    as (nm & sp1 & em & sp2 & f & rest & -> & -> & (Hn1 & Hn2) & Ha
        & (He1 & He2) & Hb & (Hf1 & Hf2) & Hr).
  cbn [regexp.sub nth].
  destruct (time_Parse entryDateFormat f) as [d|err] eqn:Ed; [|discriminate].
  intros [= <-].
  assert (rest = "") as ->.
  { apply (stops_dot_end
             (maintainerLinePrefix ++ nm ++ sp1 ++ "<" ++ em ++ ">" ++ sp2 ++ f)
             rest); [|exact Hr]. now rewrite !append_assoc. }
  rewrite append_nil_r in *.
  rewrite !no_LF_app in Hl. conjuncts Hl. split.
  { unfold trailerFields. cbn [MaintainerName EmailAddress setDate setMaintainer].
    repeat split; auto using all_plain. }
  split; [reflexivity|]. exists sp1, sp2, f.
  cbn [MaintainerName EmailAddress Date setDate setMaintainer]. auto 10.
Qed.

(** X10: a header line the parser accepts is a package name without a
    space, spaces, a version in parentheses, spaces, the distributions,
    a semicolon, spaces and the metadata, and these parts are the fields
    of the entry; nothing of the line is left out, and the other fields
    of the entry are empty. *)
Theorem accepted_header_shape (line : string) (e : Entry) :
  strings.no_LF line = true ->
  parseEntryLine line = inl e ->
  headerFields e /\
  (MaintainerName e = "" /\ EmailAddress e = "" /\ Date e = time_zero /\
   Changes e = []) /\
  exists sp1 sp2 sp3,
    spaces sp1 /\ spaces sp2 /\ spaces sp3 /\
    line = Package e ++ sp1 ++ "(" ++ Version e ++ ")" ++ sp2
             ++ Distributions e ++ ";" ++ sp3 ++ Metadata e.
Proof.
  apply parseEntryLine_shape.
Qed.

(** X11: a trailer line the parser accepts is the prefix of a trailer,
    the name, spaces, the address in angle brackets, spaces and a text
    that [time.Parse] reads to the date; the name, the address and the
    date are those of the entry, and its other fields are left as they
    were. *)
Theorem accepted_trailer_shape (e e' : Entry) (line : string) :
  strings.no_LF line = true ->
  parseMaintainerLine e line = (e', None) ->
  trailerFields e' /\
  e' = setDate (setMaintainer e (MaintainerName e') (EmailAddress e')) (Date e') /\
  exists sp1 sp2 f,
    spaces sp1 /\ spaces sp2 /\
    strings.no_LF f = true /\ strings.HasPrefix f " " = false /\
    time_Parse entryDateFormat f = inl (Date e') /\
    line = maintainerLinePrefix ++ MaintainerName e' ++ sp1 ++ "<"
             ++ EmailAddress e' ++ ">" ++ sp2 ++ f.
Proof.
  apply parseMaintainerLine_shape.
Qed.

End AcceptedLines.

(* ------------------------------------------------------------------ *)
(** *** The entries the parser builds *)

Lemma no_LF_from (n : nat) : forall s,
  strings.no_LF s = true -> strings.no_LF (strings.from n s) = true.
Proof.
  induction n as [|n IH]; intros s H; [destruct s; exact H|].
  destruct s as [|c s]; [reflexivity|]. simpl in *.
  apply andb_true_iff in H. destruct H as [_ H]. now apply IH.
Qed.

Lemma Forall_through {A : Type} (P : A -> Prop) (f : A -> A) (l : list A) :
  (forall x, P x -> P (f x)) -> Forall P l -> forall i, Forall P (through i f l).
Proof.
  intros Hf. induction 1 as [|x l Hx Hl IH]; intros i;
    destruct i; simpl; constructor; auto.
Qed.

(** Every read is a line with no newline in it, followed by a newline. *)
Lemma readLines_reads (s : string) :
  Forall (fun read => exists l, read = l ++ nl /\ strings.no_LF l = true)
         (fst (readLines s)).
Proof.
  induction s as [|c s IH]; simpl; [constructor|].
  destruct (readLines s) as [ls rest]. simpl in IH.
  destruct (Ascii.eqb c strings.LF) eqn:E; simpl.
  - constructor; [|exact IH]. exists "". split; [|reflexivity].
    apply Ascii.eqb_eq in E. now subst c.
  - destruct ls as [|l ls]; simpl; [constructor|].
    inversion IH as [|? ? (l0 & -> & Hl) Hls]; subst.
    constructor; [|exact Hls]. exists (String c l0). split; [reflexivity|].
    simpl. now rewrite E, Hl.
Qed.

Section ParsedEntries.

Context {T : TimePkg}.

Lemma headerFields_setChanges (e : Entry) (cs : list Change) :
  headerFields e -> headerFields (setChanges e cs).
Proof. intros H. exact H. Qed.

Lemma canonicalChange_new (line : string) (n : nat) :
  strings.no_LF line = true ->
  canonicalChange {| Summary := strings.from n line; Details := [] |}.
Proof.
  intros H. split; [now apply no_LF_from | constructor].
Qed.

Lemma canonicalChange_head (c : Change) (line : string) (n : nat) :
  strings.no_LF line = true -> canonicalChange c ->
  canonicalChange
    (setDetails c (Details c ++ [{| Lines := [strings.from n line] |}])%list).
Proof.
  intros H [Hs Hds]. split; [exact Hs|]. cbn [Details setDetails].
  apply Forall_app. split; [exact Hds|]. constructor; [|constructor].
  split; cbn [Lines]; [discriminate|].
  constructor; [now apply no_LF_from | constructor].
Qed.

Lemma canonicalChange_tail (c : Change) (line : string) (n j : nat) :
  strings.no_LF line = true -> canonicalChange c ->
  canonicalChange
    (setDetails c
       (through j (fun d => setLines d (Lines d ++ [strings.from n line])%list)
          (Details c))).
Proof.
  intros H [Hs Hds]. split; [exact Hs|]. cbn [Details setDetails].
  apply Forall_through; [|exact Hds].
  intros d [Hd1 Hd2]. split; cbn [Lines setLines].
  - destruct (Lines d); [contradiction | discriminate].
  - apply Forall_app. split; [exact Hd2|].
    constructor; [now apply no_LF_from | constructor].
Qed.

(** A turn of the parser keeps what it has built well formed. *)
Lemma built_dispatch (p p' : locals) (line : string) :
  strings.no_LF line = true -> built p ->
  dispatch p line = Continue p' -> built p'.
Proof.
  intros Hl [Hes Hin].
  assert (Hc : state p <> parseStateInitial ->
               processChangeLine p line = Continue p' -> built p').
  { intros Hs. destruct (Hin Hs) as (e & He & Hh & Hcs).
    unfold processChangeLine. rewrite He. intros [= <-].
    split; [exact Hes|]. intros _. eexists. split; [reflexivity|].
    split; [exact Hh|]. cbn [Changes setChanges]. apply Forall_app. split; [exact Hcs|].
    constructor; [|constructor].
    now apply (canonicalChange_new line (String.length changePrefix)). }
  assert (Hh : state p <> parseStateInitial ->
               processDetailHeadLine p line = Continue p' -> built p').
  { intros Hs. destruct (Hin Hs) as (e & He & Hh & Hcs).
    unfold processDetailHeadLine. rewrite He.
    destruct (change p) as [i|]; [|discriminate].
    destruct (nth_error (Changes e) i) as [c|] eqn:Ec; [|discriminate].
    intros [= <-]. split; [exact Hes|]. intros _. eexists.
    split; [reflexivity|]. split; [exact Hh|]. cbn [Changes setChanges].
    apply Forall_through; [|exact Hcs].
    intros c' Hc'. split; [apply Hc'|]. cbn [Details setDetails].
    apply Forall_app. split.
    - apply nth_error_In in Ec.
      rewrite Forall_forall in Hcs. apply (Hcs c Ec).
    - constructor; [|constructor]. split; cbn [Lines]; [discriminate|].
      constructor; [|constructor].
      now apply (no_LF_from (String.length detailHeadPrefix) line). }
  assert (Ht : state p <> parseStateInitial ->
               processDetailTailLine p line = Continue p' -> built p').
  { intros Hs. destruct (Hin Hs) as (e & He & Hh' & Hcs).
    unfold processDetailTailLine. rewrite He.
    destruct (detail p) as [[i j]|]; [|discriminate].
    destruct (nth_error (Changes e) i) as [c|]; [|discriminate].
    destruct (nth_error (Details c) j); [|discriminate].
    intros [= <-]. split; [exact Hes|]. intros _. eexists.
    split; [reflexivity|]. split; [exact Hh'|]. cbn [Changes setChanges].
    apply Forall_through; [|exact Hcs].
    intros c' Hc'.
    now apply (canonicalChange_tail c' line (String.length detailTailPrefix) j). }
  assert (Hm : state p <> parseStateInitial ->
               processMaintainerLine p line = Continue p' -> built p').
  { intros Hs. destruct (Hin Hs) as (e & He & Hh' & Hcs).
    unfold processMaintainerLine. rewrite He.
    destruct (parseMaintainerLine e line) as [e' [err|]] eqn:Em; [discriminate|].
    intros [= <-]. split; [|cbn [state]; contradiction]. cbn [entries].
    apply Forall_app. split; [exact Hes|]. constructor; [|constructor].
    destruct (parseMaintainerLine_shape e e' line Hl Em) as (Ht' & Ee & _).
    split; [|split; [exact Ht'|]]; rewrite Ee; [exact Hh' | exact Hcs]. }
  assert (Hi : Continue p = Continue p' -> built p').
  { intros [= <-]. split; assumption. }
  unfold dispatch. destruct (state p) eqn:Es.
  - destruct (parseEntryLine line) as [e|err] eqn:Ee; [|discriminate].
    intros [= <-]. split; [exact Hes|]. intros _. exists e.
    destruct (parseEntryLine_shape line e Hl Ee) as (Hf & (_ & _ & _ & Hcs) & _).
    split; [reflexivity|]. split; [exact Hf|]. rewrite Hcs. constructor.
  - destruct (strings.HasPrefix line changePrefix); [apply Hc; discriminate|].
    destruct (strings.HasPrefix line maintainerLinePrefix);
      [apply Hm; discriminate | exact Hi].
  - destruct (strings.HasPrefix line changePrefix); [apply Hc; discriminate|].
    destruct (strings.HasPrefix line detailHeadPrefix); [apply Hh; discriminate|].
    destruct (strings.HasPrefix line maintainerLinePrefix);
      [apply Hm; discriminate | exact Hi].
  - destruct (strings.HasPrefix line changePrefix); [apply Hc; discriminate|].
    destruct (strings.HasPrefix line detailHeadPrefix); [apply Hh; discriminate|].
    destruct (strings.HasPrefix line detailTailPrefix); [apply Ht; discriminate|].
    destruct (strings.HasPrefix line maintainerLinePrefix);
      [apply Hm; discriminate | exact Hi].
Qed.

Lemma built_loop (reads : list string) : forall p p',
  Forall (fun read => exists l, read = l ++ nl /\ strings.no_LF l = true) reads ->
  built p -> loop p reads = Continue p' -> built p'.
Proof.
  induction reads as [|read reads IH]; intros p p' Hr Hb; simpl.
  - now intros [= <-].
  - inversion Hr as [|? ? (l & -> & Hl) Hr']; subst.
    destruct (body p (l ++ nl)) as [p1|r] eqn:E; [|discriminate].
    apply (IH p1 p' Hr'). revert E. unfold body.
    rewrite (TrimRight_line l Hl).
    destruct (Nat.eqb (String.length l) 0); [now intros [= <-]|].
    now apply built_dispatch.
Qed.

Lemma parseChangelog_wellFormed (r : Reader) (es : list Entry) :
  parseChangelog r = Returns es None -> Forall wellFormed es.
Proof.
  unfold parseChangelog.
  destruct (loop initial (fst (readLines (unread r)))) as [p|res] eqn:E.
  - assert (Hb : built p).
    { apply (built_loop _ initial p (readLines_reads (unread r))); [|exact E].
      split; [constructor | simpl; contradiction]. }
    destruct (failure r); [|discriminate]. intros [= <-]. apply Hb.
  - intros ->. pose proof (valid_loop (fst (readLines (unread r))) initial I) as H.
    rewrite E in H. contradiction.
Qed.

(** X12: every entry the parser returns is well formed: the package, the
    version and the distributions are not empty and hold neither their
    delimiter nor a newline, the metadata and the distributions start
    with no space (but distributions of one space), the name and the
    address are not empty, every summary and every line of a detail is
    one line, and every detail has a line. *)
Theorem parsed_entries_are_well_formed (r : Reader) (es : list Entry) :
  parseChangelog r = Returns es None -> Forall wellFormed es.
Proof.
  apply parseChangelog_wellFormed.
Qed.

End ParsedEntries.

(* ------------------------------------------------------------------ *)
(** *** Parsing what the renderer writes for parsed entries *)

Section Reparsing.

Context {T : TimePkg}.

(** [entryLineRegex] reads back distributions of one space: the run of
    spaces before them gives its last space back. *)
Lemma entryLineRegex_header_space (pk vs md : string) :
  pk <> "" -> plain " " pk = true ->
  vs <> "" -> plain ")" vs = true ->
  strings.no_LF md = true -> strings.HasPrefix md " " = false ->
  let line := pk ++ " (" ++ vs ++ ") " ++ " " ++ "; " ++ md in
  FindStringSubmatch entryLineRegex line = Some [line; pk; vs; " "; md].
Proof.
  intros Hp1 Hp2 Hv1 Hv2 Hm1 Hm2 line.
  destruct (plain_all _ _ Hp2) as [Hp _].
  destruct (plain_all _ _ Hv2) as [Hv _].
  pose proof (no_LF_dot _ Hm1) as Hm.
  rewrite entryLineRegex_nodes. cbn [FindStringSubmatch regexp.program].
  rewrite search_anchored.
  match goal with
  | |- match regexp.exec ?r _ _ with _ => _ end = _ =>
      assert (H : exists a,
                 regexp.exec r line (regexp.begin 0) = Some a /\
                 regexp.whole a = line /\ regexp.closed a = [md; " "; vs; pk])
  end.
  { eexists. split.
    - unfold line.
      apply exec_open_take.
      apply exec_plus_take; [exact Hp1 | exact Hp | reflexivity |].
      apply exec_close_take.
      apply (exec_plus_take _ _ " " ("(" ++ vs ++ ") " ++ " " ++ "; " ++ md));
        [discriminate | reflexivity | reflexivity |].
      apply (exec_byte_take "(").
      apply exec_open_take.
      apply exec_plus_take; [exact Hv1 | exact Hv | reflexivity |].
      apply exec_close_take.
      apply (exec_byte_take ")").
      apply (exec_plus_give_back _ _ " " ("; " ++ md) " ");
        [discriminate | reflexivity | reflexivity | reflexivity | reflexivity |].
      apply exec_open_take.
      apply (exec_plus_take _ _ " " ("; " ++ md));
        [discriminate | reflexivity | reflexivity |].
      apply exec_close_take.
      apply (exec_byte_take ";").
      apply (exec_plus_take _ _ " " md);
        [discriminate | reflexivity | now apply no_space_stops |].
      apply exec_open_take.
      apply exec_star_all; [exact Hm|].
      apply exec_close_take.
      reflexivity.
    - autorewrite with attempt. cbn [option_map regexp.begin regexp.whole
        regexp.closed regexp.group].
      split.
      + unfold line. rewrite !append_assoc. reflexivity.
      + reflexivity. }
  destruct H as (a & -> & Hw & Hc). now rewrite Hw, Hc.
Qed.

(** The header the renderer writes for a well-formed entry is parsed to
    the entry's four header fields. *)
Lemma parseEntryLine_wellFormed (e : Entry) :
  headerFields e ->
  parseEntryLine (headerLine e)
  = inl {| Package := Package e; Version := Version e;
           Distributions := Distributions e; Metadata := Metadata e;
           MaintainerName := ""; EmailAddress := "";
           Date := time_zero; Changes := [] |}.
Proof.
  intros ((Hp1 & Hp2) & (Hv1 & Hv2) & (Hd1 & Hd2 & [Hd3|Hd3]) & (Hm1 & Hm2)).
  - unfold parseEntryLine, headerLine.
    now rewrite (entryLineRegex_header _ _ _ _ Hp1 Hp2 Hv1 Hv2 Hd1 Hd2 Hd3 Hm1 Hm2).
  - unfold parseEntryLine, headerLine. rewrite Hd3.
    now rewrite (entryLineRegex_header_space _ _ _ Hp1 Hp2 Hv1 Hv2 Hm1 Hm2).
Qed.

(** The trailer the renderer writes for a well-formed entry is accepted,
    and sets the name, the address and a date written the same. *)
Lemma parseMaintainerLine_wellFormed (e0 e : Entry) :
  trailerFields e -> dated e ->
  exists d,
    parseMaintainerLine e0 (trailerOf e)
    = (setDate (setMaintainer e0 (MaintainerName e) (EmailAddress e)) d, None) /\
    time_Format d entryDateFormat = time_Format (Date e) entryDateFormat.
Proof.
  intros ((Hn1 & Hn2) & (He1 & He2)) (Hf1 & Hf2 & d & Hd & Hfd).
  exists d. split; [|exact Hfd].
  unfold parseMaintainerLine, trailerOf.
  rewrite (maintainerLineRegex_trailer _ _ _ Hn1 Hn2 He1 He2 Hf1 Hf2).
  cbn [regexp.sub nth]. now rewrite Hd.
Qed.

(** The lines of one well-formed entry, from the state where a header is
    awaited. *)
Lemma feed_wellFormed (e : Entry) (p : locals) :
  wellFormed e -> dated e -> state p = parseStateInitial ->
  exists p' e',
    feed p (entryLines e) = Continue p' /\
    state p' = parseStateInitial /\
    entries p' = (entries p ++ [e'])%list /\
    sameButDate e e'.
Proof.
  intros (Hh & Ht & Hcs) Hd Hs. unfold entryLines.
  rewrite feed_cons.
  2:{ destruct Hh as ((Hp & _) & _). unfold headerLine.
      destruct (Package e); [contradiction | discriminate]. }
  unfold dispatch at 1. rewrite Hs, (parseEntryLine_wellFormed e Hh).
  match goal with
  | |- context [feed ?q _] =>
      assert (Hb : building q (entries p)
                {| Package := Package e; Version := Version e;
                   Distributions := Distributions e; Metadata := Metadata e;
                   MaintainerName := ""; EmailAddress := "";
                   Date := time_zero; Changes := [] |})
  end.
  { repeat split; try (simpl; congruence). unfold valid. simpl. eauto. }
  rewrite feed_app.
  destruct (feed_changes (entries p) (Changes e) _ _ Hcs Hb) as (p1 & Hf1 & Hb1).
  rewrite Hf1. simpl app in Hb1.
  destruct (parseMaintainerLine_wellFormed
              (setChanges
                 {| Package := Package e; Version := Version e;
                    Distributions := Distributions e; Metadata := Metadata e;
                    MaintainerName := ""; EmailAddress := "";
                    Date := time_zero; Changes := [] |} (Changes e))
              e Ht Hd)
    as (d & Hm & Hfd).
  destruct Hb1 as (Hv1 & Hn1 & Hd1 & He1).
  rewrite feed_cons by (unfold trailerOf; nonempty).
  rewrite (dispatch_trailer p1 (trailerOf e) Hn1
             (HasPrefix_app maintainerLinePrefix _)).
  unfold processMaintainerLine. rewrite He1, Hm.
  eexists. exists (setDate e d). split; [reflexivity|].
  split; [reflexivity|]. split.
  - simpl. rewrite Hd1. reflexivity.
  - split; [reflexivity | exact Hfd].
Qed.

Lemma feed_docLines (es : list Entry) : forall i p,
  Forall wellFormed es -> Forall dated es -> state p = parseStateInitial ->
  exists p' es',
    feed p (docLines i es) = Continue p' /\
    state p' = parseStateInitial /\
    entries p' = (entries p ++ es')%list /\
    Forall2 sameButDate es es'.
Proof.
  induction es as [|e es IH]; intros i p Hes Hds Hs.
  - exists p, []. rewrite app_nil_r. repeat split; auto.
  - inversion Hes as [|? ? He Hes']; subst.
    inversion Hds as [|? ? Hd Hds']; subst.
    cbn [docLines]. rewrite feed_app.
    assert (Hb : feed p (if Nat.ltb 0 i then [""] else []) = Continue p)
      by (destruct (Nat.ltb 0 i); reflexivity).
    rewrite Hb, feed_app.
    destruct (feed_wellFormed e p He Hd Hs) as (p1 & e' & Hf1 & Hs1 & He1 & Hd1).
    rewrite Hf1.
    destruct (IH (S i) p1 Hes' Hds' Hs1) as (p2 & es' & Hf2 & Hs2 & He2 & Hd2).
    exists p2, (e' :: es'). split; [exact Hf2|]. split; [exact Hs2|].
    split; [|now constructor].
    rewrite He2, He1, <- app_assoc. reflexivity.
Qed.

Lemma no_LF_wellFormed (e : Entry) :
  wellFormed e -> dated e ->
  Forall (fun l => strings.no_LF l = true) (entryLines e).
Proof.
  intros (((_ & Hp) & (_ & Hv) & (_ & Hd & _) & (Hm & _))
          & ((_ & Hn) & (_ & Hm')) & Hcs) (Hf & _).
  unfold entryLines. constructor.
  - unfold headerLine. rewrite !no_LF_app.
    now rewrite (no_LF_plain _ _ Hp), (no_LF_plain _ _ Hv), (no_LF_plain _ _ Hd), Hm.
  - apply Forall_app. split.
    + apply Forall_flat_map. eapply Forall_impl; [|exact Hcs].
      intros c [Hs Hds]. unfold changeLines. constructor.
      * rewrite no_LF_app. now rewrite Hs.
      * apply Forall_flat_map. eapply Forall_impl; [|exact Hds].
        intros d [_ Hls]. unfold detailLines.
        destruct (Lines d) as [|l ls]; [constructor|].
        inversion Hls as [|? ? Hl Hls']; subst. constructor.
        -- rewrite no_LF_app. now rewrite Hl.
        -- apply Forall_map. eapply Forall_impl; [|exact Hls'].
           intros l' Hl'. rewrite no_LF_app. now rewrite Hl'.
    + constructor; [|constructor]. unfold trailerOf. rewrite !no_LF_app.
      now rewrite (no_LF_plain _ _ Hn), (no_LF_plain _ _ Hm'), Hf.
Qed.

Lemma no_LF_docLines_wellFormed (es : list Entry) : forall i,
  Forall wellFormed es -> Forall dated es ->
  Forall (fun l => strings.no_LF l = true) (docLines i es).
Proof.
  induction es as [|e es IH]; intros i Hes Hds; [constructor|].
  inversion Hes as [|? ? He Hes']; subst.
  inversion Hds as [|? ? Hd Hds']; subst. cbn [docLines].
  apply Forall_app. split.
  - destruct (Nat.ltb 0 i); repeat constructor.
  - apply Forall_app. split; [now apply no_LF_wellFormed | now apply IH].
Qed.

(** The text the renderer writes for well-formed entries is parsed to
    these entries, up to dates that are written the same. *)
Lemma printed_text_parses (es : list Entry) :
  Forall wellFormed es -> Forall dated es ->
  exists es',
    parseChangelog {| unread := printEntries 0 es; failure := io_EOF |}
    = Returns es' None /\
    Forall2 sameButDate es es' /\
    printEntries 0 es' = printEntries 0 es.
Proof.
  intros Hes Hds.
  destruct (feed_docLines es 0 initial Hes Hds eq_refl)
    as (p & es' & Hf & _ & He & Hd).
  exists es'. split; [|split; [exact Hd | now apply printEntries_sameButDate]].
  pose proof (no_LF_docLines_wellFormed es 0 Hes Hds) as Hn.
  unfold parseChangelog. cbn [unread failure].
  rewrite printEntries_docLines, (readLines_lines _ Hn).
  cbn [fst]. rewrite (loop_feed _ _ Hn), Hf.
  now rewrite He.
Qed.

(** The filter keeps entries well formed and dated. *)
Lemma Forall_filter {A : Type} (P : A -> Prop) (f : A -> bool) (l : list A) :
  Forall P l -> Forall P (filter f l).
Proof.
  rewrite !Forall_forall. intros H x Hx. apply filter_In in Hx. now apply H.
Qed.

Lemma keptEntry_wellFormed (re : Regexp) (e e' : Entry) :
  wellFormed e -> In e' (keptEntry re e) -> wellFormed e'.
Proof.
  intros (Hh & Ht & Hcs). unfold keptEntry.
  destruct (keptChanges re e) as [|c cs] eqn:E; [contradiction|].
  intros [<-|[]]. split; [exact Hh|]. split; [exact Ht|].
  cbn [Changes setChanges]. rewrite <- E. unfold keptChanges.
  apply Forall_map. apply Forall_filter. eapply Forall_impl; [|exact Hcs].
  intros c0 [Hs Hds]. split; [exact Hs|]. now apply Forall_filter.
Qed.

Lemma keptEntry_dated (re : Regexp) (e e' : Entry) :
  dated e -> In e' (keptEntry re e) -> dated e'.
Proof.
  intros Hd. unfold keptEntry.
  destruct (keptChanges re e) as [|c cs]; [contradiction|].
  now intros [<-|[]].
Qed.

Lemma filterEntries_wellFormed (re : Regexp) (es : list Entry) :
  Forall wellFormed es -> Forall wellFormed (filterEntries es re).
Proof.
  rewrite filterEntries_spec, !Forall_forall. intros H e' He'.
  apply in_flat_map in He'. destruct He' as (e & He & Hk).
  exact (keptEntry_wellFormed re e e' (H e He) Hk).
Qed.

Lemma filterEntries_dated (re : Regexp) (es : list Entry) :
  Forall dated es -> Forall dated (filterEntries es re).
Proof.
  rewrite filterEntries_spec, !Forall_forall. intros H e' He'.
  apply in_flat_map in He'. destruct He' as (e & He & Hk).
  exact (keptEntry_dated re e e' (H e He) Hk).
Qed.

(** The filter does not look at the dates. *)
Lemma keptEntry_sameButDate (re : Regexp) (e e' : Entry) :
  sameButDate e e' ->
  Forall2 sameButDate (keptEntry re e) (keptEntry re e').
Proof.
  intros [He Hf]. unfold keptEntry.
  assert (Hk : keptChanges re e' = keptChanges re e).
  { unfold keptChanges. now rewrite He. }
  rewrite Hk. destruct (keptChanges re e) as [|c cs]; constructor; [|constructor].
  split; [|exact Hf]. rewrite He at 1. reflexivity.
Qed.

Lemma filterEntries_sameButDate (re : Regexp) (es es' : list Entry) :
  Forall2 sameButDate es es' ->
  Forall2 sameButDate (filterEntries es re) (filterEntries es' re).
Proof.
  rewrite !filterEntries_spec.
  induction 1 as [|e e' es es' He _ IH]; [constructor|].
  cbn [flat_map]. apply Forall2_app; [now apply keptEntry_sameButDate | exact IH].
Qed.

(** X13: what the program writes for the entries it has parsed is parsed
    again to the same entries, up to dates that are written the same, and
    written again to the same text. *)
Theorem parsed_entries_are_reparsed (r : Reader) (es : list Entry) :
  parseChangelog r = Returns es None ->
  Forall dated es ->
  exists es',
    parseChangelog {| unread := printEntries 0 es; failure := io_EOF |}
    = Returns es' None /\
    Forall2 sameButDate es es' /\
    printEntries 0 es' = printEntries 0 es.
Proof.
  intros Hp Hd. apply printed_text_parses; [|exact Hd].
  exact (parseChangelog_wellFormed r es Hp).
Qed.

(** X14: the same for the entries the filter has kept of them, with any
    pattern. *)
Theorem filtered_entries_are_reparsed (r : Reader) (re : Regexp)
    (es : list Entry) :
  parseChangelog r = Returns es None ->
  Forall dated es ->
  exists es',
    parseChangelog {| unread := printEntries 0 (filterEntries es re);
                      failure := io_EOF |}
    = Returns es' None /\
    Forall2 sameButDate (filterEntries es re) es' /\
    printEntries 0 es' = printEntries 0 (filterEntries es re).
Proof.
  intros Hp Hd. apply printed_text_parses.
  - apply filterEntries_wellFormed. exact (parseChangelog_wellFormed r es Hp).
  - now apply filterEntries_dated.
Qed.

End Reparsing.

(* ------------------------------------------------------------------ *)
(** *** Lines the parser passes over, and lines it reads back *)

Section Lines.

Context {T : TimePkg}.

(** A line that starts with a space is no header. *)
Lemma parseEntryLine_indented (line : string) :
  strings.HasPrefix line " " = true ->
  parseEntryLine line = inr (errorString ("invalid format entry line: " ++ line)).
Proof.
  intros Hp. unfold parseEntryLine.
  destruct (FindStringSubmatch entryLineRegex line) as [m|] eqn:E; [|reflexivity].
  exfalso.
  destruct (entryLineRegex_inv line m E)
    as (pk & sp1 & vs & sp2 & ds & sp3 & md & rest & -> & _ & (Hp1 & Hp2) & _).
  destruct pk as [|c pk]; [contradiction|].
  cbn [append] in Hp. rewrite HasPrefix_space in Hp.
  cbn [strings.all regexp.accepts] in Hp2. rewrite Hp in Hp2. discriminate Hp2.
Qed.

Lemma dispatch_unmarked (p : locals) (line : string) :
  state p <> parseStateInitial -> unmarked line = true ->
  dispatch p line = Continue p.
Proof.
  intros Hs Hu. unfold unmarked in Hu.
  apply andb_true_iff in Hu. destruct Hu as [Hu H4].
  apply andb_true_iff in Hu. destruct Hu as [Hu H3].
  apply andb_true_iff in Hu. destruct Hu as [H1 H2].
  apply negb_true_iff in H1, H2, H3, H4.
  unfold dispatch. rewrite H1, H2, H3, H4.
  destruct (state p); [contradiction | reflexivity..].
Qed.

(** A line the parser passes over in the state it is in can be left out
    of the text. *)
Lemma passed_over (before line rest : string) (f : error) (p : locals) :
  complete before ->
  loop initial (fst (readLines before)) = Continue p ->
  strings.no_LF line = true ->
  dispatch p line = Continue p ->
  parseChangelog {| unread := before ++ line ++ nl ++ rest; failure := f |}
  = parseChangelog {| unread := before ++ rest; failure := f |}.
Proof.
  intros Hc Hp Hl Hd. unfold parseChangelog. cbn [unread failure].
  rewrite (reads_split before line rest Hc Hl), (reads_app before rest Hc).
  rewrite !loop_app, Hp. cbn [loop]. unfold body at 1.
  rewrite (TrimRight_line line Hl), Hd.
  destruct (Nat.eqb (String.length line) 0); reflexivity.
Qed.

(** X15: inside an entry, a line that starts as none of the lines the
    parser looks for (a change, the head or the tail of a detail, a
    trailer) is passed over: the result is that of the text without
    it. *)
Theorem unmarked_line_is_passed_over (before line rest : string) (f : error)
    (p : locals) :
  complete before ->
  loop initial (fst (readLines before)) = Continue p ->
  state p <> parseStateInitial ->
  strings.no_LF line = true -> unmarked line = true ->
  parseChangelog {| unread := before ++ line ++ nl ++ rest; failure := f |}
  = parseChangelog {| unread := before ++ rest; failure := f |}.
Proof.
  intros Hc Hp Hs Hl Hu.
  apply (passed_over before line rest f p Hc Hp Hl).
  now apply dispatch_unmarked.
Qed.

(** A line that starts with no space is unmarked. *)
Lemma unmarked_unindented (line : string) :
  strings.HasPrefix line " " = false -> unmarked line = true.
Proof.
  destruct line as [|c line]; [reflexivity|]. rewrite HasPrefix_space.
  intros Hc. unfold unmarked. simpl. now rewrite Hc.
Qed.

Lemma parseEntryLine_unindented (line : string) (e : Entry) :
  parseEntryLine line = inl e -> strings.HasPrefix line " " = false.
Proof.
  intros He. destruct (strings.HasPrefix line " ") eqn:E; [|reflexivity].
  rewrite (parseEntryLine_indented line E) in He. discriminate He.
Qed.

(** X16: a header inside an entry, before its trailer, is passed over:
    the entry in progress goes on, and takes the changes and the trailer
    that follow. *)
Theorem header_inside_an_entry_is_passed_over (before line rest : string)
    (f : error) (p : locals) (e : Entry) :
  complete before ->
  loop initial (fst (readLines before)) = Continue p ->
  state p <> parseStateInitial ->
  strings.no_LF line = true ->
  parseEntryLine line = inl e ->
  parseChangelog {| unread := before ++ line ++ nl ++ rest; failure := f |}
  = parseChangelog {| unread := before ++ rest; failure := f |}.
Proof.
  intros Hc Hp Hs Hl He.
  apply (passed_over before line rest f p Hc Hp Hl).
  apply dispatch_unmarked; [exact Hs|].
  apply unmarked_unindented. exact (parseEntryLine_unindented line e He).
Qed.

(** X17: a line that continues a detail is passed over when there is no
    detail to continue: after a change line, and after the header. *)
Theorem continuation_without_detail_is_passed_over (before line rest : string)
    (f : error) (p : locals) :
  complete before ->
  loop initial (fst (readLines before)) = Continue p ->
  state p = parseStateInChange \/ state p = parseStateInEntry ->
  strings.no_LF line = true ->
  strings.HasPrefix line detailTailPrefix = true ->
  parseChangelog {| unread := before ++ line ++ nl ++ rest; failure := f |}
  = parseChangelog {| unread := before ++ rest; failure := f |}.
Proof.
  intros Hc Hp Hs Hl Ht.
  apply (passed_over before line rest f p Hc Hp Hl).
  assert (Hx : strings.HasPrefix line changePrefix = false /\
               strings.HasPrefix line detailHeadPrefix = false /\
               strings.HasPrefix line maintainerLinePrefix = false).
  { destruct (HasPrefix_inv _ _ Ht) as [r ->]. repeat split. }
  destruct Hx as (H1 & H2 & H3). unfold dispatch. rewrite H1, H2, H3.
  destruct Hs as [->| ->]; reflexivity.
Qed.

(** X18: a header line the parser accepts and the header the renderer
    writes for the entry it gives are parsed to the same entry, however
    many spaces the line has between its parts. *)
Theorem accepted_header_is_read_back (line : string) (e : Entry) :
  strings.no_LF line = true ->
  parseEntryLine line = inl e ->
  parseEntryLine (headerLine e) = inl e.
Proof.
  intros Hl He.
  destruct (parseEntryLine_shape line e Hl He) as (Hh & (H1 & H2 & H3 & H4) & _).
  rewrite (parseEntryLine_wellFormed e Hh).
  destruct e; cbn [MaintainerName EmailAddress Date Changes] in H1, H2, H3, H4.
  subst. reflexivity.
Qed.



End Lines.

(* ------------------------------------------------------------------ *)
(** *** The driver *)

Lemma append_nonempty (a b : string) (c : ascii) : a ++ String c b <> "".
Proof. destruct a; discriminate. Qed.

Section DriverFacts.

Context {T : TimePkg}.

Lemma parsed_total (w : World) (filename : string) :
  (exists es, parsed w filename = Returns es None) \/
  (exists err, parsed w filename = Returns [] (Some err)).
Proof.
  unfold parsed, parseChangelogFile.
  destruct (String.eqb filename "-"); [apply parseChangelog_total|].
  destruct (os_Open w filename); [apply parseChangelog_total | eauto].
Qed.

Lemma run_parsed (w : World) (filename filter : string) :
  run w filename filter
  = match regexp_Compile w filter with
    | inr err => Exits "" (Some err)
    | inl filterRE =>
        match parsed w filename with
        | Panics => Crashes
        | Returns _ (Some err) => Exits "" (Some err)
        | Returns entries None =>
            Exits (printEntries 0 (filterEntries entries filterRE)) None
        end
    end.
Proof. reflexivity. Qed.

(** What a run that succeeds has done. *)
Lemma run_succeeds (w : World) (filename filter out : string) :
  run w filename filter = Exits out None ->
  exists re es,
    regexp_Compile w filter = inl re /\
    parsed w filename = Returns es None /\
    out = printEntries 0 (filterEntries es re).
Proof.
  rewrite run_parsed. destruct (regexp_Compile w filter) as [re|err]; [|discriminate].
  destruct (parsed w filename) as [es [err|]|]; try discriminate.
  intros [= <-]. now exists re, es.
Qed.

(** X21: [run] does not panic, and it writes nothing when it returns an
    error: either it writes and returns no error, or it returns an error
    and has written nothing. *)
Theorem run_writes_or_fails (w : World) (filename filter : string) :
  (exists out, run w filename filter = Exits out None) \/
  (exists err, run w filename filter = Exits "" (Some err)).
Proof.
  rewrite run_parsed. destruct (regexp_Compile w filter) as [re|err]; [|eauto].
  destruct (parsed_total w filename) as [[es ->]|[err ->]]; eauto.
Qed.

(** X22: the output of a run that succeeds, given to the program on its
    standard input with the same pattern, is written again as it is. *)
Theorem run_reproduces_its_output (w : World) (filename filter out : string) :
  (forall es, parsed w filename = Returns es None -> Forall dated es) ->
  run w filename filter = Exits out None ->
  run (withStdin w out) "-" filter = Exits out None.
Proof.
  intros Hd Hr. destruct (run_succeeds _ _ _ _ Hr) as (re & es & Hc & Hp & ->).
  assert (Hw : Forall wellFormed es).
  { revert Hp. unfold parsed, parseChangelogFile.
    destruct (String.eqb filename "-"); [apply parseChangelog_wellFormed|].
    destruct (os_Open w filename); [apply parseChangelog_wellFormed | discriminate]. }
  destruct (printed_text_parses (filterEntries es re)
              (filterEntries_wellFormed re es Hw)
              (filterEntries_dated re es (Hd es Hp)))
    as (es' & Hp' & Hs & _).
  rewrite run_parsed. cbn [withStdin regexp_Compile]. rewrite Hc.
  unfold parsed. cbn [String.eqb Ascii.eqb Bool.eqb withStdin os_Stdin].
  rewrite Hp'. f_equal.
  rewrite (printEntries_sameButDate _ _ (filterEntries_sameButDate re _ _ Hs)).
  now rewrite filterEntries_twice.
Qed.

Lemma printEntries_later (es : list Entry) : forall i,
  printEntries (S i) es = printEntries 1 es.
Proof.
  induction es as [|e es IH]; intros i; [reflexivity|].
  cbn [printEntries]. rewrite (IH (S i)), (IH 1). reflexivity.
Qed.

Lemma printEntries_next (es : list Entry) :
  es <> [] -> printEntries 1 es = nl ++ printEntries 0 es.
Proof.
  destruct es as [|e es]; [contradiction|]. intros _.
  cbn [printEntries]. rewrite (printEntries_later es 1). reflexivity.
Qed.

Lemma printEntries_app (a b : list Entry) : forall i,
  printEntries i (a ++ b) = printEntries i a ++ printEntries (i + length a) b.
Proof.
  induction a as [|e a IH]; intros i.
  - simpl. now rewrite Nat.add_0_r.
  - cbn [app printEntries length]. rewrite (IH (S i)).
    rewrite !append_assoc. now rewrite Nat.add_succ_r.
Qed.

Lemma printEntries_empty (es : list Entry) :
  printEntries 0 es = "" -> es = [].
Proof.
  destruct es as [|e es]; [reflexivity|]. cbn [printEntries Nat.ltb Nat.leb].
  unfold Entry_String. intros H. exfalso. revert H.
  rewrite !append_assoc. cbn [append]. apply append_nonempty.
Qed.

Lemma printEntries_joined (a b : list Entry) :
  printEntries 0 (a ++ b) = joined (printEntries 0 a) (printEntries 0 b).
Proof.
  destruct a as [|e a].
  - simpl app. unfold joined. cbn [printEntries]. reflexivity.
  - destruct b as [|e' b].
    + rewrite app_nil_r. unfold joined. cbn [printEntries].
      destruct (_ ++ _)%string; reflexivity.
    + rewrite printEntries_app. cbn [Nat.add length].
      rewrite printEntries_later, printEntries_next by discriminate.
      unfold joined.
      destruct (printEntries 0 (e :: a)) eqn:Ea;
        [now apply printEntries_empty in Ea|].
      destruct (printEntries 0 (e' :: b)) eqn:Eb;
        [now apply printEntries_empty in Eb|].
      reflexivity.
Qed.

(** X23: the output for one text after another is the output for the
    first, an empty line when neither output is empty, and the output for
    the second, when the first text ends after the trailer of an
    entry. *)
Theorem run_of_concatenation (w : World) (filter t1 t2 out1 out2 : string)
    (es1 : list Entry) :
  wholeEntries t1 es1 ->
  run (withStdin w t1) "-" filter = Exits out1 None ->
  run (withStdin w t2) "-" filter = Exits out2 None ->
  run (withStdin w (t1 ++ t2)) "-" filter = Exits (joined out1 out2) None.
Proof.
  intros Hw H1 H2.
  destruct (run_succeeds _ _ _ _ H1) as (re & es & Hc & Hp1 & ->).
  destruct (run_succeeds _ _ _ _ H2) as (re' & es2 & Hc' & Hp2 & ->).
  cbn [withStdin regexp_Compile] in Hc, Hc'. rewrite Hc in Hc'.
  injection Hc' as <-.
  unfold parsed in Hp1, Hp2.
  cbn [String.eqb Ascii.eqb Bool.eqb withStdin os_Stdin] in Hp1, Hp2.
  assert (es = es1) as ->.
  { destruct Hw as (_ & p & Hl & _ & He). revert Hp1. unfold parseChangelog.
    cbn [unread failure]. rewrite Hl, He. now intros [= <-]. }
  rewrite run_parsed. cbn [withStdin regexp_Compile]. rewrite Hc.
  unfold parsed. cbn [String.eqb Ascii.eqb Bool.eqb withStdin os_Stdin].
  rewrite (parse_concat t1 t2 io_EOF es1 Hw), Hp2. cbn [after].
  rewrite !filterEntries_spec, flat_map_app, <- !filterEntries_spec.
  now rewrite printEntries_joined.
Qed.

End DriverFacts.

(* ================================================================== *)
(** * The further properties on concrete inputs *)

Lemma complete_lines (ls : list string) : complete (lines ls).
Proof.
  induction ls as [|l ls IH]; [left; reflexivity|].
  right. rewrite lines_cons. destruct IH as [->|[t ->]].
  - exists l. now rewrite append_nil_r.
  - exists (l ++ nl ++ t). now rewrite !append_assoc.
Qed.

Lemma complete_app (a b : string) : complete a -> complete b -> complete (a ++ b).
Proof.
  intros Ha [->|[t ->]]; [now rewrite append_nil_r|].
  right. exists (a ++ t). now rewrite append_assoc.
Qed.

Lemma wholeEntries_scenarioText : wholeEntries scenarioText [scenarioEntry].
Proof.
  split; [apply complete_lines|].
  exists afterScenario. repeat split; reflexivity.
Qed.

Lemma dated_scenarioEntry : dated scenarioEntry.
Proof.
  repeat split; try reflexivity. exists scenarioDate. split; reflexivity.
Qed.

Lemma dated_spacedEntry : dated spacedEntry.
Proof.
  repeat split; try reflexivity. exists scenarioDate. split; reflexivity.
Qed.

Lemma kept_parts_all_match_witness :
  Changes (setChanges scenarioEntry [changeA]) <> [] /\
  forall c', In c' (Changes (setChanges scenarioEntry [changeA])) ->
    (MatchString detailRE (Summary c') = true \/ Details c' <> []) /\
    forall d, In d (Details c') ->
      exists l, In l (Lines d) /\ MatchString detailRE l = true.
Proof.
  apply (kept_parts_all_match [scenarioEntry] detailRE
           (setChanges scenarioEntry [changeA])).
  left. reflexivity.
Defined.

Lemma parse_of_concatenation_witness :
  parseChangelog {| unread := scenarioText ++ spacedText; failure := io_EOF |}
  = after [scenarioEntry]
      (parseChangelog {| unread := spacedText; failure := io_EOF |}).
Proof.
  apply (parse_of_concatenation scenarioText spacedText io_EOF [scenarioEntry]).
  exact wholeEntries_scenarioText.
Defined.

Lemma entries_of_a_prefix_witness :
  exists es1 more,
    parseChangelog {| unread := scenarioText; failure := io_EOF |}
    = Returns es1 None /\
    [scenarioEntry; spacedEntry] = (es1 ++ more)%list.
Proof.
  apply (entries_of_a_prefix scenarioText spacedText io_EOF
           [scenarioEntry; spacedEntry]).
  - apply complete_lines.
  - reflexivity.
Defined.

Lemma empty_line_is_ignored_witness :
  parseChangelog
    {| unread := detailPart ++ nl ++ afterDetailPart; failure := io_EOF |}
  = parseChangelog (T := GoTimePkg)
    {| unread := detailPart ++ afterDetailPart; failure := io_EOF |}.
Proof.
  apply (empty_line_is_ignored detailPart afterDetailPart io_EOF).
  apply complete_lines.
Defined.

Lemma entry_without_trailer_is_dropped_witness :
  parseChangelog
    {| unread := scenarioText ++ lines (unfinishedHeader :: unfinishedLines);
       failure := io_EOF |}
  = Returns [scenarioEntry] None.
Proof.
  apply (entry_without_trailer_is_dropped scenarioText unfinishedHeader
           unfinishedLines [scenarioEntry] unfinishedStart).
  - exact wholeEntries_scenarioText.
  - reflexivity.
  - repeat constructor.
  - repeat constructor.
Defined.

Lemma read_error_discards_entries_witness :
  exists err, parseChangelog (T := GoTimePkg) failingReader = Returns [] (Some err).
Proof.
  apply (read_error_discards_entries failingReader). discriminate.
Defined.

Lemma accepted_header_shape_witness :
  headerFields spacedStart /\
  (MaintainerName spacedStart = "" /\ EmailAddress spacedStart = "" /\
   Date spacedStart = time_zero /\ Changes spacedStart = []) /\
  exists sp1 sp2 sp3,
    spaces sp1 /\ spaces sp2 /\ spaces sp3 /\
    spacedHeader
    = Package spacedStart ++ sp1 ++ "(" ++ Version spacedStart ++ ")" ++ sp2
        ++ Distributions spacedStart ++ ";" ++ sp3 ++ Metadata spacedStart.
Proof.
  apply (accepted_header_shape spacedHeader spacedStart); reflexivity.
Defined.

Lemma accepted_trailer_shape_witness :
  trailerFields spacedEntry /\
  spacedEntry
  = setDate (setMaintainer (setChanges spacedStart [changeB])
               (MaintainerName spacedEntry) (EmailAddress spacedEntry))
      (Date spacedEntry) /\
  exists sp1 sp2 f,
    spaces sp1 /\ spaces sp2 /\
    strings.no_LF f = true /\ strings.HasPrefix f " " = false /\
    time_Parse entryDateFormat f = inl (Date spacedEntry) /\
    spacedTrailer
    = maintainerLinePrefix ++ MaintainerName spacedEntry ++ sp1 ++ "<"
        ++ EmailAddress spacedEntry ++ ">" ++ sp2 ++ f.
Proof.
  apply (accepted_trailer_shape (setChanges spacedStart [changeB]) spacedEntry
           spacedTrailer); reflexivity.
Defined.

Lemma parsed_entries_are_well_formed_witness :
  Forall wellFormed [spacedEntry; scenarioEntry].
Proof.
  apply (parsed_entries_are_well_formed (os_Stdin sampleWorld)). reflexivity.
Defined.

Lemma parsed_entries_are_reparsed_witness :
  exists es',
    parseChangelog
      {| unread := printEntries 0 [spacedEntry; scenarioEntry];
         failure := io_EOF |}
    = Returns es' None /\
    Forall2 sameButDate [spacedEntry; scenarioEntry] es' /\
    printEntries 0 es' = printEntries 0 [spacedEntry; scenarioEntry].
Proof.
  apply (parsed_entries_are_reparsed (os_Stdin sampleWorld)).
  - reflexivity.
  - constructor; [exact dated_spacedEntry|].
    constructor; [exact dated_scenarioEntry | constructor].
Defined.

Lemma filtered_entries_are_reparsed_witness :
  exists es',
    parseChangelog
      {| unread := printEntries 0
                     (filterEntries [spacedEntry; scenarioEntry] detailRE);
         failure := io_EOF |}
    = Returns es' None /\
    Forall2 sameButDate (filterEntries [spacedEntry; scenarioEntry] detailRE) es' /\
    printEntries 0 es'
    = printEntries 0 (filterEntries [spacedEntry; scenarioEntry] detailRE).
Proof.
  apply (filtered_entries_are_reparsed (os_Stdin sampleWorld) detailRE).
  - reflexivity.
  - constructor; [exact dated_spacedEntry|].
    constructor; [exact dated_scenarioEntry | constructor].
Defined.

Lemma unmarked_line_is_passed_over_witness :
  parseChangelog
    {| unread := detailPart ++ sectionLine ++ nl ++ afterDetailPart;
       failure := io_EOF |}
  = parseChangelog (T := GoTimePkg)
    {| unread := detailPart ++ afterDetailPart; failure := io_EOF |}.
Proof.
  apply (unmarked_line_is_passed_over detailPart sectionLine afterDetailPart
           io_EOF insideDetail).
  - apply complete_lines.
  - reflexivity.
  - discriminate.
  - reflexivity.
  - reflexivity.
Defined.

Lemma header_inside_an_entry_is_passed_over_witness :
  parseChangelog
    {| unread := detailPart ++ unfinishedHeader ++ nl ++ afterDetailPart;
       failure := io_EOF |}
  = parseChangelog (T := GoTimePkg)
    {| unread := detailPart ++ afterDetailPart; failure := io_EOF |}.
Proof.
  apply (header_inside_an_entry_is_passed_over detailPart unfinishedHeader
           afterDetailPart io_EOF insideDetail unfinishedStart).
  - apply complete_lines.
  - reflexivity.
  - discriminate.
  - reflexivity.
  - reflexivity.
Defined.

Lemma continuation_without_detail_is_passed_over_witness :
  parseChangelog
    {| unread := lines [spacedHeader] ++ "      continuation" ++ nl ++ afterDetailPart;
       failure := io_EOF |}
  = parseChangelog (T := GoTimePkg)
    {| unread := lines [spacedHeader] ++ afterDetailPart; failure := io_EOF |}.
Proof.
  apply (continuation_without_detail_is_passed_over (lines [spacedHeader])
           "      continuation" afterDetailPart io_EOF
           {| entries := []; entry := Some spacedStart; change := None;
              detail := None; state := parseStateInEntry |}).
  - apply complete_lines.
  - reflexivity.
  - right. reflexivity.
  - reflexivity.
  - reflexivity.
Defined.

Lemma accepted_header_is_read_back_witness :
  parseEntryLine (headerLine spacedStart) = inl spacedStart.
Proof.
  apply (accepted_header_is_read_back spacedHeader spacedStart); reflexivity.
Defined.



Lemma run_reproduces_its_output_witness :
  run (withStdin sampleWorld sampleOutput) "-" "Change"
  = Exits sampleOutput None.
Proof.
  apply (run_reproduces_its_output sampleWorld "-" "Change" sampleOutput).
  - intros es H.
    assert (E : parsed sampleWorld "-" = Returns [spacedEntry; scenarioEntry] None)
      by reflexivity.
    rewrite E in H. injection H as <-.
    constructor; [exact dated_spacedEntry|].
    constructor; [exact dated_scenarioEntry | constructor].
  - reflexivity.
Defined.

Lemma run_of_concatenation_witness :
  run (withStdin sampleWorld (scenarioText ++ spacedText)) "-" "Change"
  = Exits
      (joined
         (printEntries 0 [setChanges scenarioEntry [setDetails changeA []; changeB]])
         (printEntries 0 [spacedEntry]))
      None.
Proof.
  apply (run_of_concatenation sampleWorld "Change" scenarioText spacedText
           (printEntries 0 [setChanges scenarioEntry [setDetails changeA []; changeB]])
           (printEntries 0 [spacedEntry])
           [scenarioEntry]).
  - exact wholeEntries_scenarioText.
  - reflexivity.
  - reflexivity.
Defined.
